(** * The higher-order NAPP inverted index with hashed pivot combinations

    A shallow embedding of
    [similarity_search/src/method/pivot_neighb_horder_hashpiv_invindx.cc]
    (class [PivotNeighbHorderHashPivInvIndex]): the parameter surface, the
    combination-key encoder, the buffered index builder, the four
    posting-list processing algorithms of the query executor and the
    persistence entry points.

    Conventions.
    - C++ integers are [Z]; where the source computes in a fixed width the
      wrap-around is written out with [u32] / [usize].
    - [std::vector] is [list]; an index is a [nat] and an access outside the
      vector, which is undefined behaviour in C++, is the error
      [undefined_behaviour].
    - A C++ exception ([throw], a failed [CHECK] / [CHECK_MSG]) is the [Err]
      branch of [Res]; statements run in the [Res] monad in source order. *)

From stdpp Require Import base list strings pretty sorting.
From Stdlib Require Import ZArith Lia.

Local Open Scope Z_scope.

(** ** Machine integers *)

Definition wrap (w x : Z) : Z := x mod 2 ^ w.
(** [unsigned], [uint32_t], [IdTypeUnsign] *)
Definition u32 : Z → Z := wrap 32.
(** [size_t] *)
Definition usize : Z → Z := wrap 64.

Definition in_range (w x : Z) : bool := bool_decide (0 ≤ x < 2 ^ w).

(** ** Exceptions *)

Inductive error : Type :=
  | runtime_error (what : string)        (* throw runtime_error(...), THROW_RUNTIME_ERR *)
  | check_failed (cond : string)         (* CHECK(cond), CHECK_MSG(cond, ...) *)
  | undefined_behaviour (what : string)  (* out-of-range access, division by zero *)
  | out_of_fuel.                         (* a loop of the model ran out of steps *)

Inductive Res (A : Type) : Type :=
  | Ok (a : A)
  | Err (e : error).
Arguments Ok {A} a.
Arguments Err {A} e.

(** Sequencing: an exception skips the rest of the body. *)
Definition bind {A B} (m : Res A) (k : A → Res B) : Res B :=
  match m with Ok a => k a | Err e => Err e end.

Notation "'do' x <- m ; k" := (bind m (λ x, k))
  (at level 10, x name, m at level 100, k at level 200, only parsing).
Notation "'do' ' p <- m ; k" := (bind m (λ p, k))
  (at level 10, p pattern, m at level 100, k at level 200, only parsing).

Definition is_Ok {A} (r : Res A) : Prop := ∃ a, r = Ok a.
Definition is_Err {A} (r : Res A) : Prop := ∃ e, r = Err e.

Definition CHECK (cond : bool) (text : string) : Res unit :=
  if cond then Ok () else Err (check_failed text).

(** [v[i]] on a [std::vector]. *)
Definition at_ {A} (v : list A) (i : nat) : Res A :=
  match v !! i with
  | Some x => Ok x
  | None => Err (undefined_behaviour "vector index out of range")
  end.

(** [v[i]] with a signed index: a negative one is out of range. *)
Definition at_z {A} (v : list A) (i : Z) : Res A :=
  if decide (0 ≤ i) then at_ v (Z.to_nat i)
  else Err (undefined_behaviour "vector index out of range").

(** Integer division and remainder; a zero divisor is undefined behaviour. *)
Definition div_ (a b : Z) : Res Z :=
  if decide (b = 0) then Err (undefined_behaviour "division by zero") else Ok (a / b).
Definition mod_ (a b : Z) : Res Z :=
  if decide (b = 0) then Err (undefined_behaviour "division by zero") else Ok (a mod b).

(** ** Parameters: [AnyParams] and [AnyParamManager] *)

(** A parameter value as the user wrote it: a decimal number or any other
    text. *)
Inductive ParamValue : Type :=
  | PNum (n : Z)
  | PStr (s : string).

(** Modelled from the spec: [AnyParams] (params.h is not among the sources):
    the list of (name, value) pairs the caller passed, in order. *)
Abbreviation AnyParams := (list (string * ParamValue)) (only parsing).

(** Modelled from the spec: [AnyParamManager]; it remembers which names were
    asked for, so that [CheckUnused] can report an unknown key. *)
Record AnyParamManager : Type := mkPmgr {
  params : AnyParams;
  seen : list string;
}.

Definition hasParam (pmgr : AnyParamManager) (name : string) : bool :=
  existsb (String.eqb name) (params pmgr).*1.

(** Modelled from the spec: conversion of a parameter's text to the type of
    the member that receives it. A number that does not fit the member's
    type, or text where a number is expected, fails the conversion. *)
Definition conversion_failed {A} : Res A :=
  Err (runtime_error "Failed to convert value").

Definition to_unsigned (w : Z) (v : ParamValue) : Res Z :=
  match v with
  | PNum n => if in_range w n then Ok n else conversion_failed
  | PStr _ => conversion_failed
  end.
Definition to_size_t : ParamValue → Res Z := to_unsigned 64.
Definition to_uint : ParamValue → Res Z := to_unsigned 32.
Definition to_bool (v : ParamValue) : Res bool :=
  match v with
  | PNum 0 => Ok false
  | PNum 1 => Ok true
  | _ => conversion_failed
  end.
Definition to_string (v : ParamValue) : Res string :=
  match v with
  | PNum n => Ok (pretty n)
  | PStr s => Ok s
  end.

(** Modelled from the spec: [AnyParamManager::GetParam]'s loop over the
    parameter list: every entry called [Name] is converted into [Value], so
    the last one wins. *)
Fixpoint GetParam_loop {A} (conv : ParamValue → Res A) (Name : string)
    (ps : AnyParams) (Value : A) (bFound : bool) : Res (A * bool) :=
  match ps with
  | [] => Ok (Value, bFound)
  | (n, v) :: ps' =>
      if String.eqb Name n
      then do Value' <- conv v; GetParam_loop conv Name ps' Value' true
      else GetParam_loop conv Name ps' Value bFound
  end.

(** Modelled from the spec: [AnyParamManager::GetParamOptional(Name, Value,
    DefaultValue)]: [Value] is the parameter called [Name] when the caller
    gave one and [DefaultValue] otherwise. *)
Definition GetParamOptional {A} (pmgr : AnyParamManager) (Name : string)
    (conv : ParamValue → Res A) (DefaultValue : A) : Res (A * AnyParamManager) :=
  do '(Value, bFound) <- GetParam_loop conv Name (params pmgr) DefaultValue false;
  Ok (Value, if bFound then mkPmgr (params pmgr) (Name :: seen pmgr) else pmgr).

(** Modelled from the spec: [AnyParamManager::CheckUnused]: a parameter no
    one asked for is an unknown key. *)
Definition CheckUnused (pmgr : AnyParamManager) : Res unit :=
  if forallb (λ n, existsb (String.eqb n) (seen pmgr)) (params pmgr).*1
  then Ok ()
  else Err (runtime_error "Unknown parameter").

(** ** The index object *)

Inductive InvProcAlg : Type := kScan | kMerge | kPriorQueue | kStoreSort.

(** Members set by [CreateIndex] from the build-time parameters. *)
Record BuildParams : Type := mkBuildParams {
  num_pivot_ : Z;
  num_prefix_ : Z;
  index_thread_qty_ : Z;
  disable_pivot_index_ : bool;
  hash_trick_dim_ : Z;
  pivot_file_ : string;
  skip_val_ : Z;
  pivot_comb_qty_ : Z;
  print_pivot_stat_ : bool;
  maxPostQty_ : Z;
  exp_avg_post_size_ : Z;
  exp_post_per_query_qty_ : Z;
}.

(** Members set by [SetQueryTimeParams]. *)
Record QueryParams : Type := mkQueryParams {
  skip_checking_ : bool;
  inv_proc_alg_ : InvProcAlg;
  min_times_ : Z;
  num_prefix_search_ : Z;
}.

(** Modelled from the spec: the values of [invProcAlg] (the [PERM_PROC_*]
    macros of the header), section 4.8's "scan | store-sort | merge |
    priority-queue". *)
Definition PERM_PROC_FAST_SCAN : string := "scan".
Definition PERM_PROC_STORE_SORT : string := "store-sort".
Definition PERM_PROC_MERGE : string := "merge".
Definition PERM_PROC_PRIOR_QUEUE : string := "priority-queue".

(** [SetQueryTimeParams] (source lines 267-313). [num_prefix] and [num_pivot]
    are the members [num_prefix_] and [num_pivot_] it reads. *)
Definition SetQueryTimeParams (num_prefix num_pivot : Z)
    (QueryTimeParams : AnyParams) : Res QueryParams :=
  let pmgr := mkPmgr QueryTimeParams [] in
  do '(skip_checking, pmgr) <- GetParamOptional pmgr "skipChecking" to_bool false;
  do '(inv_proc_alg, pmgr) <- GetParamOptional pmgr "invProcAlg" to_string PERM_PROC_STORE_SORT;
  do _ <- (if hasParam pmgr "minTimes" && hasParam pmgr "numPivotSearch"
       then Err (runtime_error
         "One shouldn't specify both parameters minTimes and numPivotSearch, b/c they are synonyms!")
       else Ok ());
  do '(min_times, pmgr) <- GetParamOptional pmgr "minTimes" to_size_t 2;
  do '(min_times, pmgr) <- GetParamOptional pmgr "numPivotSearch" to_size_t 2;
  do '(num_prefix_search, pmgr) <- GetParamOptional pmgr "numPrefixSearch" to_size_t num_prefix;
  do _ <- (if bool_decide (num_prefix_search > num_pivot)
       then Err (runtime_error "requires that numPrefixSearch should be <= numPivot")
       else Ok ());
  do alg <- (if String.eqb inv_proc_alg PERM_PROC_FAST_SCAN then Ok kScan
         else if String.eqb inv_proc_alg PERM_PROC_STORE_SORT then Ok kStoreSort
         else if String.eqb inv_proc_alg PERM_PROC_MERGE then Ok kMerge
         else if String.eqb inv_proc_alg PERM_PROC_PRIOR_QUEUE then Ok kPriorQueue
         else Err (runtime_error
           "Unknown value of parameter for the inverted file processing algorithm"));
  do _ <- CheckUnused pmgr;
  Ok (mkQueryParams skip_checking alg min_times num_prefix_search).

(** [Index::ResetQueryTimeParams]: the query-time defaults. *)
Definition ResetQueryTimeParams (num_prefix num_pivot : Z) : Res QueryParams :=
  SetQueryTimeParams num_prefix num_pivot [].

(** ** Loops *)

(** [for (x : l) body] in the [Res] monad; [for (i = a; i < b; ++i)] runs
    over [seq a (b - a)]. *)
Fixpoint foldM {A S} (body : A → S → Res S) (l : list A) (s : S) : Res S :=
  match l with
  | [] => Ok s
  | a :: l' => do s' <- body a s; foldM body l' s'
  end.

(** ** The combination-key encoder *)

(** [Permutation]: pivot indices by ascending distance. *)
Abbreviation Permutation := (list Z) (only parsing).

(** Modelled from the spec: the two-argument [PostingListIndex] of the header,
    section 4.3's PAIR(x, y) = max(x,y)·(max(x,y)−1)/2 + min(x,y). *)
Definition PostingListIndex (pivotId1 pivotId2 : Z) : Z :=
  Z.max pivotId1 pivotId2 * (Z.max pivotId1 pivotId2 - 1) / 2
  + Z.min pivotId1 pivotId2.

(** The tail of each loop body of [genPivotCombIds]: the skip-val filter and
    the append to the caller's buffer [ids], of which [resSize] entries are
    in use. [imod] is the remainder as the branch computed it. *)
Definition emit (idiv imod : Z) (st : list Z * nat) : list Z * nat :=
  let '(ids, resSize) := st in
  if decide (imod = 0) then
    let ids :=
      if bool_decide (length ids ≤ resSize + 1)%nat
      then resize (2 * (resSize + 1)) 0 ids else ids in
    (<[resSize := idiv]> ids, S resSize)
  else (ids, resSize).

Section Encoder.

(** The three-argument [PostingListIndex] of the header (the index of an
    unordered triple); the sources give neither its body nor a formula. *)
Variable PostingListIndex3 : Z → Z → Z → Z.

(** [genPivotCombIds] (source lines 482-549); [pivot_comb_qty] and [skip_val]
    are the members it reads. It returns the buffer and [resSize]. *)
Definition genPivotCombIds (pivot_comb_qty skip_val : Z) (ids : list Z)
    (perm : Permutation) (permPrefixSize : nat) : Res (list Z * nat) :=
  do _ <- CHECK (bool_decide (pivot_comb_qty ≠ 0) && bool_decide (pivot_comb_qty ≤ 3))
           "pivot_comb_qty_ && pivot_comb_qty_ <= 3";
  if decide (pivot_comb_qty = 1) then
    do _ <- CHECK (bool_decide (permPrefixSize < length perm)%nat)
             "permPrefixSize < perm.size()";
    foldM (λ i st,
        do index <- at_ perm i;
        do q <- div_ index skip_val;
        do imod <- mod_ index skip_val;
        Ok (emit (u32 q) imod st))
      (seq 0 permPrefixSize) (ids, 0%nat)
  else if decide (pivot_comb_qty = 2) then
    foldM (λ j st,
        foldM (λ k st,
            do pj <- at_ perm j;
            do pk <- at_ perm k;
            let index := PostingListIndex pj pk in
            do q <- div_ index skip_val;
            do imod <- mod_ index skip_val;
            Ok (emit (u32 q) imod st))
          (seq 0 j) st)
      (seq 1 (permPrefixSize - 1)) (ids, 0%nat)
  else
    do _ <- CHECK (bool_decide (pivot_comb_qty = 3)) "pivot_comb_qty_ == 3";
    foldM (λ j st,
        foldM (λ k st,
            foldM (λ l st,
                do pj <- at_ perm j;
                do pk <- at_ perm k;
                do pl <- at_ perm l;
                let index := PostingListIndex3 pj pk pl in
                do q <- div_ index skip_val;
                let idiv := u32 q in
                let imod := u32 (index - u32 (idiv * skip_val)) in
                Ok (emit idiv imod st))
              (seq 0 k) st)
          (seq 1 (j - 1)) st)
      (seq 2 (permPrefixSize - 2)) (ids, 0%nat).

(** The keys a call wrote: the first [resSize] entries of the buffer. *)
Definition emitted (r : list Z * nat) : list Z := take r.2 r.1.

(** ** The index builder *)

(** Modelled from the spec: [getPostQtys] of the header, section 3's
    maxPostQty: ⌈N/skip_val⌉ for k = 1, ⌈N·(N−1)/(2·skip_val)⌉ for k = 2 and
    ⌈N·(N−1)·(N−2)/(6·skip_val)⌉ for k = 3. [CreateIndex] calls it only
    with k in 1..3. *)
Definition ceil_div (a b : Z) : Res Z := div_ (a + b - 1) b.
Definition getPostQtys (num_pivot pivot_comb_qty skip_val : Z) : Res Z :=
  if decide (pivot_comb_qty = 1) then ceil_div num_pivot skip_val
  else if decide (pivot_comb_qty = 2) then
    ceil_div (num_pivot * (num_pivot - 1)) (2 * skip_val)
  else ceil_div (num_pivot * (num_pivot - 1) * (num_pivot - 2)) (6 * skip_val).

Definition MAX_TMP_DOC_QTY : Z := 4096 * 32.

(** The part of [CreateIndex] that reads the parameters (source lines
    68-105). [hardware_concurrency] is [thread::hardware_concurrency()],
    [dataSize] is [this->data_.size()]. *)
Definition CreateIndex_params (hardware_concurrency dataSize : Z)
    (IndexParams : AnyParams) : Res (BuildParams * QueryParams) :=
  let pmgr := mkPmgr IndexParams [] in
  do '(num_pivot, pmgr) <- GetParamOptional pmgr "numPivot" to_size_t 512;
  do _ <- (if hasParam pmgr "numPivotIndex" && hasParam pmgr "numPrefix"
       then Err (runtime_error
         "One shouldn't specify both parameters numPrefix and numPivotIndex, b/c they are synonyms!")
       else Ok ());
  do '(num_prefix, pmgr) <- GetParamOptional pmgr "numPivotIndex" to_size_t 32;
  do '(num_prefix, pmgr) <- GetParamOptional pmgr "numPrefix" to_size_t num_prefix;
  do '(index_thread_qty, pmgr) <-
    GetParamOptional pmgr "indexThreadQty" to_size_t hardware_concurrency;
  do '(disable_pivot_index, pmgr) <- GetParamOptional pmgr "disablePivotIndex" to_bool false;
  do '(hash_trick_dim, pmgr) <- GetParamOptional pmgr "hashTrickDim" to_size_t 0;
  do _ <- (if bool_decide (num_prefix > num_pivot)
       then Err (runtime_error "requires that numPrefix should be <= numPivot")
       else Ok ());
  do _ <- CHECK (bool_decide (num_prefix ≤ num_pivot)) "num_prefix_ <= num_pivot_";
  do '(pivot_file, pmgr) <- GetParamOptional pmgr "pivotFile" to_string "";
  do '(skip_val, pmgr) <- GetParamOptional pmgr "skipVal" to_uint 1;
  do '(pivot_comb_qty, pmgr) <- GetParamOptional pmgr "pivotCombQty" to_uint 2;
  do '(print_pivot_stat, pmgr) <- GetParamOptional pmgr "printPivotStat" to_bool false;
  do _ <- CHECK (bool_decide (pivot_comb_qty ≠ 0) && bool_decide (pivot_comb_qty ≤ 3))
           "pivot_comb_qty_ && pivot_comb_qty_ <= 3";
  do _ <- CheckUnused pmgr;
  do qp <- ResetQueryTimeParams num_prefix num_pivot;
  do maxPostQty <- getPostQtys num_pivot pivot_comb_qty skip_val;
  do _ <- CHECK (bool_decide (pivot_comb_qty = 2)) "pivot_comb_qty_ == 2";
  do exp_avg_post_size <-
    div_ (usize (usize (dataSize * usize (num_prefix - 1)) * num_prefix))
         (usize (u32 (2 * skip_val) * maxPostQty));
  do exp_post_per_query_qty <-
    div_ (usize (usize (exp_avg_post_size * num_prefix_search_ qp)
                 * usize (num_prefix_search_ qp - 1)))
         (u32 (2 * skip_val));
  Ok (mkBuildParams num_pivot num_prefix index_thread_qty disable_pivot_index
        hash_trick_dim pivot_file skip_val pivot_comb_qty print_pivot_stat
        maxPostQty exp_avg_post_size exp_post_per_query_qty, qp).

(** The shared posting lists, the workers' private posting lists and their
    document counters. *)
Record Store : Type := mkStore {
  posting_lists_ : list (list Z);
  tmp_posting_lists_ : list (list (list Z));
  tmp_post_doc_qty_ : list Z;
}.

(** Modelled from the spec: [flushTmpPost] of the header, section 4.5's
    flush: every private bucket of the worker is appended to the shared list
    of the same bucket id, the private buckets are cleared and the worker's
    counter is reset. *)
Definition flushTmpPost (threadId : nat) (st : Store) : Res Store :=
  do tmp <- at_ (tmp_posting_lists_ st) threadId;
  do _ <- at_ (tmp_post_doc_qty_ st) threadId;
  Ok (mkStore
        (zip_with (λ permList tmpList, permList ++ tmpList) (posting_lists_ st) tmp)
        (<[threadId := replicate (length tmp) []]> (tmp_posting_lists_ st))
        (<[threadId := 0]> (tmp_post_doc_qty_ st))).

(** Modelled from the spec: [boost::sort::spreadsort::integer_sort]: the
    range sorted ascending. *)
Definition integer_sort (l : list Z) : list Z := merge_sort Z.le l.

(** Modelled from the spec: [ParallelFor(start, end, numThreads, fn)] of
    thread_pool.h, section 6's parallel_for(range, workers, body(item,
    worker_id)). A schedule lists the pairs (item, worker id) in the order in
    which the bodies take effect; it is admissible when every item of the
    range occurs once and every worker id is below [numThreads]. A body takes
    effect as a whole: with one thread this is the plain loop of the source
    ([one_worker] below), with several it covers the executions in which the
    bodies do not overlap, and no others. *)
Definition ParallelFor {S} (schedule : list (nat * nat))
    (fn : nat → nat → S → Res S) (s : S) : Res S :=
  foldM (λ '(item, threadId) s, fn item threadId s) schedule s.

Definition admissible (start end_ numThreads : nat) (schedule : list (nat * nat)) : Prop :=
  schedule.*1 ≡ₚ seq start (end_ - start) ∧ Forall (λ it, it.2 < numThreads)%nat schedule.

(** The body of the first [ParallelFor] of [CreateIndex] (source lines
    161-194) for the object [id], whose permutation is [perm]. The buffer
    lent by [combId_pool_] is a vector of [maxPostQty_] entries. *)
Definition index_object (b : BuildParams) (data_perm : list Permutation)
    (id threadId : nat) (st : Store) : Res Store :=
  do perm <- at_ data_perm id;
  do _ <- CHECK (bool_decide (Z.of_nat threadId < index_thread_qty_ b)) "threadId < index_thread_qty_";
  let combIds := replicate (Z.to_nat (maxPostQty_ b)) 0 in
  do '(combIds, cqty) <-
    genPivotCombIds (pivot_comb_qty_ b) (skip_val_ b) combIds perm (Z.to_nat (num_prefix_ b));
  do postList <- at_ (tmp_posting_lists_ st) threadId;
  do postList <- foldM (λ i postList,
      do cid <- at_ combIds i;
      do _ <- CHECK (bool_decide (cid < maxPostQty_ b)) "cid < maxPostQty_";
      do l <- at_ postList (Z.to_nat cid);
      Ok (<[Z.to_nat cid := l ++ [Z.of_nat id]]> postList))
    (seq 0 cqty) postList;
  do qty <- at_ (tmp_post_doc_qty_ st) threadId;
  let st := mkStore (posting_lists_ st)
              (<[threadId := postList]> (tmp_posting_lists_ st))
              (<[threadId := qty + 1]> (tmp_post_doc_qty_ st)) in
  if bool_decide (MAX_TMP_DOC_QTY ≤ qty + 1) then flushTmpPost threadId st else Ok st.

(** The body of the second [ParallelFor] (source lines 197-201). *)
Definition flush_and_sort (pivId threadId : nat) (st : Store) : Res Store :=
  do st <- flushTmpPost threadId st;
  do oneList <- at_ (posting_lists_ st) pivId;
  Ok (mkStore (<[pivId := integer_sort oneList]> (posting_lists_ st))
        (tmp_posting_lists_ st) (tmp_post_doc_qty_ st)).

(** The index: its parameters and its posting lists. *)
Record Index : Type := mkIndex {
  data_qty : nat;            (* this->data_.size() *)
  bparams : BuildParams;
  qparams : QueryParams;
  store : Store;
}.

(** [SetQueryTimeParams] as a member: it reads [num_prefix_] and
    [num_pivot_] and sets the query-time members. *)
Definition Index_SetQueryTimeParams (idx : Index) (QueryTimeParams : AnyParams)
    : Res Index :=
  do q <- SetQueryTimeParams (num_prefix_ (bparams idx)) (num_pivot_ (bparams idx))
            QueryTimeParams;
  Ok (mkIndex (data_qty idx) (bparams idx) q (store idx)).

(** [CreateIndex] (source lines 66-233). [data_perm] gives, for every object
    of [this->data_], the permutation [GetPermutationPPIndexEfficiently]
    computes for it; [sched1] and [sched2] are the schedules of the two
    parallel loops. The model is of the parameters (lines 68-105) and of the
    store (lines 138-201): the choice or loading of the pivots (lines
    116-127), which can throw, and the statistics written at the end (lines
    205-232) are not part of it. *)
Definition CreateIndex (hardware_concurrency : Z) (data_perm : list Permutation)
    (IndexParams : AnyParams) (sched1 sched2 : list (nat * nat)) : Res Index :=
  do '(b, q) <- CreateIndex_params hardware_concurrency (Z.of_nat (length data_perm)) IndexParams;
  let maxPostQty := Z.to_nat (maxPostQty_ b) in
  let W := Z.to_nat (index_thread_qty_ b) in
  let st := mkStore (replicate maxPostQty [])
              (replicate W (replicate maxPostQty []))
              (replicate W 0) in
  do st <- ParallelFor sched1 (index_object b data_perm) st;
  do st <- ParallelFor sched2 flush_and_sort st;
  Ok (mkIndex (length data_perm) b q st).

(** ** The query executor *)

(** The threshold of [GenSearch] (source lines 604-610, [SCALE_MIN_TIMES]
    is [true]); [min_times_] and [num_prefix_] are [size_t]. *)
Definition scaled_thresh (pivot_comb_qty min_times num_prefix : Z) : Z :=
  let thresh := min_times in
  let thresh :=
    if decide (pivot_comb_qty = 3)
    then usize (usize (min_times * usize (num_prefix - 1)) * usize (num_prefix - 2)) / 6
    else thresh in
  let thresh :=
    if decide (pivot_comb_qty = 2)
    then usize (min_times * usize (num_prefix - 1)) / 2
    else thresh in
  thresh.

(** Modelled from the spec: [addToVectorWithResSize(cands, obj, candQty)] of
    the header: the candidate is appended. A candidate is the position of an
    object in [data_]. *)
Definition addToVectorWithResSize (cands : list Z) (obj : Z) : list Z := cands ++ [obj].

(** [data_start[i]]: the object at position [i] of [data_]. *)
Definition data_start (dataQty : nat) (i : Z) : Res Z :=
  if bool_decide (0 ≤ i < Z.of_nat dataQty) then Ok i
  else Err (undefined_behaviour "data_ index out of range").

(** The head of each loop over the query's keys: the key's posting list. *)
Definition query_post (posting_lists : list (list Z)) (combIds : list Z) (kk : nat)
    : Res (list Z) :=
  do idiv <- at_ combIds kk;
  do _ <- CHECK (bool_decide (0 ≤ idiv < Z.of_nat (length posting_lists)))
           "idiv < posting_lists_.size()";
  at_z posting_lists idiv.

Section Algorithms.

Variable posting_lists : list (list Z).
Variable dataQty : nat.
Variable skip_val : Z.
Variable thresh : Z.
Variable combIds : list Z.
Variable cqty : nat.

(** *** Scan (source lines 684-706) *)

Definition scan_count (counter : list Z) : Res (list Z) :=
  foldM (λ kk counter,
      do post <- query_post posting_lists combIds kk;
      foldM (λ p counter,
          do c <- at_z counter p;
          Ok (<[Z.to_nat p := u32 (c + skip_val)]> counter))
        post counter)
    (seq 0 cqty) counter.

Definition scan_alg : Res (list Z) :=
  do counter <- scan_count (replicate dataQty 0);
  foldM (λ i cands,
      do c <- at_ counter i;
      if bool_decide (thresh ≤ c)
      then do obj <- data_start dataQty (Z.of_nat i);
           Ok (addToVectorWithResSize cands obj)
      else Ok cands)
    (seq 0 dataQty) [].

(** *** Store and sort (source lines 735-778) *)

(** The copy of one posting list behind the [tmpResSize] entries in use. *)
Definition copy_post (post : list Z) (st : list Z * nat) : list Z * nat :=
  let '(tmpRes, tmpResSize) := st in
  let tmpRes :=
    if bool_decide (length tmpRes < length post + tmpResSize)%nat
    then resize (2 * tmpResSize + length post) 0 tmpRes else tmpRes in
  (take tmpResSize tmpRes ++ post ++ drop (tmpResSize + length post) tmpRes,
   (tmpResSize + length post)%nat).

(** [for (; next < tmpResSize && tmpRes[next] == prevId; ++next);] *)
Fixpoint run_end (fuel : nat) (tmpRes : list Z) (tmpResSize : nat) (prevId : Z)
    (next : nat) : nat :=
  match fuel with
  | O => next
  | S fuel =>
      if bool_decide (next < tmpResSize)%nat && bool_decide (tmpRes !! next = Some prevId)
      then run_end fuel tmpRes tmpResSize prevId (S next)
      else next
  end.

(** [while (start < tmpResSize) { ... }]; every turn moves [start] on, so
    [tmpResSize] turns are enough. *)
Fixpoint scan_sorted (fuel : nat) (tmpRes : list Z) (tmpResSize : nat) (start : nat)
    (cands : list Z) : Res (list Z) :=
  if bool_decide (start < tmpResSize)%nat then
    match fuel with
    | O => Err out_of_fuel
    | S fuel =>
        do prevId <- at_ tmpRes start;
        let next := run_end tmpResSize tmpRes tmpResSize prevId (S start) in
        do cands <-
          (if bool_decide (thresh ≤ u32 (skip_val * (Z.of_nat next - Z.of_nat start)))
           then do obj <- data_start dataQty prevId;
                Ok (addToVectorWithResSize cands obj)
           else Ok cands);
        scan_sorted fuel tmpRes tmpResSize next cands
    end
  else Ok cands.

Definition store_sort_alg (tmpRes : list Z) : Res (list Z) :=
  do '(tmpRes, tmpResSize) <-
    foldM (λ kk st,
        do post <- query_post posting_lists combIds kk;
        Ok (copy_post post st))
      (seq 0 cqty) (tmpRes, 0%nat);
  let tmpRes := integer_sort (take tmpResSize tmpRes) ++ drop tmpResSize tmpRes in
  scan_sorted tmpResSize tmpRes tmpResSize 0 [].

(** *** Pairwise merge (source lines 708-733) *)

(** [IdCount]: an object id and its count. *)
Abbreviation IdCount := (Z * Z)%type (only parsing).

(** Modelled from the spec: [postListUnion(lst1, lst2, res, skip_val)] of the
    header, section 4.6's merge of a posting list into the running list: the
    count grows by [skip_val] where the id is in both and a new id enters
    with the count [skip_val]. The union is what the call leaves in [res]. *)
Fixpoint postListUnion (lst1 : list IdCount) : list Z → list IdCount :=
  fix into (lst2 : list Z) : list IdCount :=
    match lst1, lst2 with
    | [], _ => (λ id, (id, skip_val)) <$> lst2
    | _, [] => lst1
    | (id1, qty1) :: lst1', id2 :: lst2' =>
        if bool_decide (id1 < id2) then (id1, qty1) :: postListUnion lst1' lst2
        else if bool_decide (id2 < id1) then (id2, skip_val) :: into lst2'
        else (id1, usize (qty1 + skip_val)) :: postListUnion lst1' lst2'
    end.

(** The loop over the query's keys: [tmpRes] are the two buffers,
    [prevRes] is 0 or 1. *)
Definition merge_lists : Res (list (list IdCount) * nat) :=
  foldM (λ kk '(tmpRes, prevRes),
      do post <- query_post posting_lists combIds kk;
      do lst1 <- at_ tmpRes prevRes;
      let tmpRes := <[(1 - prevRes)%nat := postListUnion lst1 post]> tmpRes in
      Ok (tmpRes, (1 - prevRes)%nat))
    (seq 0 cqty) ([[]; []], 0%nat).

Definition merge_alg : Res (list Z) :=
  do '(tmpRes, prevRes) <- merge_lists;
  do res <- at_ tmpRes (1 - prevRes);
  foldM (λ (it : IdCount) cands,
      if bool_decide (thresh ≤ it.2)
      then do obj <- data_start dataQty it.1;
           Ok (addToVectorWithResSize cands obj)
      else Ok cands)
    res [].

(** *** Priority queue (source lines 612-682) *)

(** Modelled from the spec: [FalconnHeapMod1<IdType, int32_t>] of
    falconn_heap_mod.h, a heap of (key, data) entries whose top is an entry
    with the greatest key (the ids are stored negated, so the top is the
    smallest id). The heap is the bag of its entries. *)
Abbreviation Heap := (list (Z * nat)) (only parsing).

Definition heap_push (key : Z) (data : nat) (h : Heap) : Heap := (key, data) :: h.

Fixpoint heap_top (h : Heap) : option (Z * nat) :=
  match h with
  | [] => None
  | e :: h' =>
      match heap_top h' with
      | Some e' => if bool_decide (e'.1 ≤ e.1) then Some e else Some e'
      | None => Some e
      end
  end.

Fixpoint heap_remove (e : Z * nat) (h : Heap) : Heap :=
  match h with
  | [] => []
  | e' :: h' => if decide (e' = e) then h' else e' :: heap_remove e h'
  end.

Definition heap_pop (h : Heap) : Heap :=
  match heap_top h with
  | Some e => heap_remove e h
  | None => h
  end.

Definition heap_replace_top_key (key : Z) (h : Heap) : Heap :=
  match heap_top h with
  | Some e => (key, e.2) :: heap_remove e h
  | None => h
  end.

(** [PostListQueryState]: a posting list and the position reached in it. *)
Record PostListQueryState : Type := mkQueryState {
  post_ : list Z;
  post_pos_ : nat;
}.

Record PQState : Type := mkPQ {
  postListQueue : Heap;
  queryStates : list PostListQueryState;
  accum : Z;
}.

(** The loop that opens a cursor on every non-empty posting list of the
    query (source lines 621-638). *)
Definition pq_init : Res PQState :=
  foldM (λ kk st,
      do post <- query_post posting_lists combIds kk;
      match post with
      | [] => Ok st
      | post0 :: _ =>
          let qsi := length (queryStates st) in
          Ok (mkPQ (heap_push (- post0) qsi (postListQueue st))
                (queryStates st ++ [mkQueryState post 0])
                (accum st))
      end)
    (seq 0 cqty) (mkPQ [] [] 0).

(** The inner [while]: all cursors that stand on the document
    [-minDocIdNeg] (source lines 647-674). *)
Fixpoint pq_accumulate (fuel : nat) (minDocIdNeg : Z) (st : PQState) : Res PQState :=
  match heap_top (postListQueue st) with
  | Some (key, qsi) =>
      if decide (key = minDocIdNeg) then
        match fuel with
        | O => Err out_of_fuel
        | S fuel =>
            do queryState <- at_ (queryStates st) qsi;
            let pl := post_ queryState in
            let accum := u32 (accum st + skip_val) in
            let pos := S (post_pos_ queryState) in
            let queryStates := <[qsi := mkQueryState pl pos]> (queryStates st) in
            do queue <-
              (if bool_decide (pos < length pl)%nat
               then do next <- at_ pl pos;
                    Ok (heap_replace_top_key (- next) (postListQueue st))
               else Ok (heap_pop (postListQueue st)));
            pq_accumulate fuel minDocIdNeg (mkPQ queue queryStates accum)
        end
      else Ok st
  | None => Ok st
  end.

(** The outer [while (!postListQueue.empty())] (source lines 642-681). *)
Fixpoint pq_merge (fuel : nat) (st : PQState) (cands : list Z) : Res (list Z) :=
  match heap_top (postListQueue st) with
  | None => Ok cands
  | Some (minDocIdNeg, _) =>
      match fuel with
      | O => Err out_of_fuel
      | S fuel =>
          do st <- pq_accumulate (S fuel) minDocIdNeg st;
          do cands <-
            (if bool_decide (thresh ≤ accum st)
             then do obj <- data_start dataQty (- minDocIdNeg);
                  Ok (addToVectorWithResSize cands obj)
             else Ok cands);
          pq_merge fuel (mkPQ (postListQueue st) (queryStates st) 0) cands
      end
  end.

(** The number of postings the cursors still have to pass. *)
Definition pq_remaining (st : PQState) : nat :=
  sum_list ((λ qs, length (post_ qs) - post_pos_ qs)%nat <$> queryStates st).

Definition prior_queue_alg : Res (list Z) :=
  do st <- pq_init;
  pq_merge (pq_remaining st) st [].

End Algorithms.

(** [GenSearch] (source lines 551-811) for a query whose permutation is
    [perm_q]. It returns the candidates and the objects handed to the
    query's [CheckAndAddToResult]. *)
Definition GenSearch (idx : Index) (perm_q : Permutation) : Res (list Z * list Z) :=
  let b := bparams idx in
  let q := qparams idx in
  let dataQty := data_qty idx in
  let posting_lists := posting_lists_ (store idx) in
  let combIds := replicate (Z.to_nat (maxPostQty_ b)) 0 in
  do '(combIds, cqty) <-
    genPivotCombIds (pivot_comb_qty_ b) (skip_val_ b) combIds perm_q
      (Z.to_nat (num_prefix_search_ q));
  let thresh := scaled_thresh (pivot_comb_qty_ b) (min_times_ q) (num_prefix_ b) in
  let num_prefix_search_ge_1 :=
    CHECK (bool_decide (1 ≤ num_prefix_search_ q)) "num_prefix_search_ >= 1" in
  do cands <-
    match inv_proc_alg_ q with
    | kPriorQueue =>
        do _ <- num_prefix_search_ge_1;
        prior_queue_alg posting_lists dataQty (skip_val_ b) thresh combIds cqty
    | kScan =>
        do _ <- num_prefix_search_ge_1;
        scan_alg posting_lists dataQty (skip_val_ b) thresh combIds cqty
    | kMerge =>
        do _ <- num_prefix_search_ge_1;
        merge_alg posting_lists dataQty (skip_val_ b) thresh combIds cqty
    | kStoreSort =>
        do _ <- num_prefix_search_ge_1;
        store_sort_alg posting_lists dataQty (skip_val_ b) thresh combIds cqty
          (replicate (Z.to_nat (2 * exp_post_per_query_qty_ b)) 0)
    end;
  let checked := if skip_checking_ q then [] else cands in
  Ok (cands, checked).

End Encoder.

(** ** Persistence *)

(** The files [SaveIndex] and [LoadIndex] see: the content of every file
    that exists, and which locations can be opened for writing. *)
Record FileSystem : Type := mkFS {
  file_content : string → option string;
  can_write : string → bool;
}.

(** [SaveIndex] and [LoadIndex] are members that may change the index and
    the files, and may throw: an exception keeps the state reached. *)
Definition World : Type := (Index * FileSystem)%type.
Definition IO (A : Type) : Type := World → Res A * World.

Definition io_bind {A B} (m : IO A) (k : A → IO B) : IO B := λ w,
  match m w with
  | (Ok a, w') => k a w'
  | (Err e, w') => (Err e, w')
  end.
Definition throw {A} (e : error) : IO A := λ w, (Err e, w).

Notation "'io' x <- m ; k" := (io_bind m (λ x, k))
  (at level 10, x name, m at level 100, k at level 200, only parsing).

(** [ofstream outFile(location)]: opening a file for writing creates it or
    empties it; the result tells whether the stream is good. *)
Definition ofstream (location : string) : IO bool := λ '(idx, fs),
  if can_write fs location
  then (Ok true,
        (idx, mkFS (λ l, if String.eqb l location then Some "" else file_content fs l)
                (can_write fs)))
  else (Ok false, (idx, fs)).

(** [ifstream inFile(location)] *)
Definition ifstream (location : string) : IO bool := λ '(idx, fs),
  (Ok (bool_decide (is_Some (file_content fs location))), (idx, fs)).

Definition CHECK_MSG (cond : bool) (text : string) : IO unit := λ w,
  (CHECK cond text, w).

Section Persistence.

(** The statements of [SaveIndex] behind its [throw] (source lines 341-372)
    and those of [LoadIndex] behind its [throw] (source lines 383-479). *)
Variable SaveIndex_rest : string → IO unit.
Variable LoadIndex_rest : string → IO unit.

(** [SaveIndex] (source lines 333-373) *)
Definition SaveIndex (location : string) : IO unit :=
  io outFile <- ofstream location;
  io _ <- CHECK_MSG outFile "outFile";
  io _ <- throw (A := unit) (runtime_error "This was never properly updated, likely it does not work!");
  SaveIndex_rest location.

(** [LoadIndex] (source lines 375-480) *)
Definition LoadIndex (location : string) : IO unit :=
  io inFile <- ifstream location;
  io _ <- CHECK_MSG inFile "inFile";
  io _ <- throw (A := unit) (runtime_error "This was never properly updated, likely it does not work!");
  LoadIndex_rest location.

End Persistence.

(** ** The encoder as section 4.3 words it *)

(** PAIR(x, y) = max(x,y)·(max(x,y)−1)/2 + min(x,y) *)
Definition PAIR (x y : Z) : Z := Z.max x y * (Z.max x y - 1) / 2 + Z.min x y.

(** The skip-val filter: "compute q = idx / skip_val, r = idx mod skip_val;
    emit q iff r == 0". *)
Definition skip_filter (skip_val idx : Z) : list Z :=
  if decide (idx mod skip_val = 0) then [idx / skip_val] else [].

(** k = 2: "for each 0 ≤ a < b < P, compute idx = PAIR(π[b], π[a]) ...
    apply the same skip-val filter and emit idx / skip_val". *)
Definition pair_keys (skip_val : Z) (π : Permutation) (P : nat) : list Z :=
  b ← seq 0 P; a ← seq 0 b; skip_filter skip_val (PAIR (π !!! b) (π !!! a)).

(** k = 1: "keys are {π[i] : i ∈ [0,P)}", filtered the same way. *)
Definition single_keys (skip_val : Z) (π : Permutation) (P : nat) : list Z :=
  i ← seq 0 P; skip_filter skip_val (π !!! i).

(** ** The candidates as sections 4.6 and 4.7 word them *)

(** The posting lists PL[b] of the query's buckets b ∈ Q, one per key. *)
Definition query_lists (posting_lists : list (list Z)) (combIds : list Z) (cqty : nat)
    : list (list Z) :=
  (λ idiv, posting_lists !!! Z.to_nat idiv) <$> take cqty combIds.

(** The number of posting-list hits of the object [x]. *)
Definition hits (x : Z) (lists : list (list Z)) : Z :=
  Z.of_nat (count_occ Z.eq_dec (concat lists) x).

(** "accumulated_count is the sum of skip_val per bucket hit" *)
Definition accumulated_count (skip_val x : Z) (lists : list (list Z)) : Z :=
  skip_val * hits x lists.

(** The formula of section 4.7 in whole numbers, the quotients truncated:
    min_times for k = 1, min_times · (num_prefix − 1) / 2 for k = 2 and
    min_times · (num_prefix − 1) · (num_prefix − 2) / 6 for k = 3. *)
Definition thresh_formula (k min_times num_prefix : Z) : Z :=
  if decide (k = 1) then min_times
  else if decide (k = 2) then min_times * (num_prefix - 1) / 2
  else min_times * (num_prefix - 1) * (num_prefix - 2) / 6.

(** The index with another processing algorithm selected. *)
Definition with_alg (alg : InvProcAlg) (idx : Index) : Index :=
  mkIndex (data_qty idx) (bparams idx)
    (mkQueryParams (skip_checking_ (qparams idx)) alg (min_times_ (qparams idx))
       (num_prefix_search_ (qparams idx)))
    (store idx).

(** The keys of a query are bucket ids of the store. *)
Definition keys_in_store (posting_lists : list (list Z)) (combIds : list Z) (cqty : nat)
    : Prop :=
  (cqty ≤ length combIds)%nat
  ∧ Forall (λ idiv, 0 ≤ idiv < Z.of_nat (length posting_lists)) (take cqty combIds).

(** The posting lists hold positions of [data_], in ascending order. *)
Definition postings_ok (dataQty : nat) (lists : list (list Z)) : Prop :=
  Forall (λ post, Sorted Z.le post ∧ Forall (λ p, 0 ≤ p < Z.of_nat dataQty) post) lists.

(** What is left of the posting list of the cursor a queue entry names. *)
Definition cursor_rest (queryStates : list PostListQueryState) (e : Z * nat) : list Z :=
  match queryStates !! e.2 with
  | Some qs => drop (post_pos_ qs) (post_ qs)
  | None => []
  end.

(** The postings the cursors in the queue still have to pass. *)
Definition pq_pending (st : PQState) : list Z :=
  postListQueue st ≫= cursor_rest (queryStates st).

(** The cursors of the priority queue are well placed: every entry of the
    queue names its own cursor, whose posting list ascends, and is keyed by
    the negated id the cursor stands on. *)
Definition pq_ok (st : PQState) : Prop :=
  NoDup (postListQueue st).*2
  ∧ ∀ key qsi, (key, qsi) ∈ postListQueue st →
      ∃ qs, queryStates st !! qsi = Some qs
        ∧ StronglySorted Z.le (post_ qs)
        ∧ post_ qs !! post_pos_ qs = Some (- key).

(** ** Invariants used in the proofs *)

(** The manager has been asked for the name [n]. *)
Definition was_seen (pmgr : AnyParamManager) (n : string) : bool :=
  existsb (String.eqb n) (seen pmgr).

(** [pmgr'] manages the parameters of [pmgr] and one more, [x], and has seen
    at least what [pmgr] has. *)
Definition extends (x : string * ParamValue) (pmgr' pmgr : AnyParamManager) : Prop :=
  params pmgr' = params pmgr ++ [x]
  ∧ ∀ n, was_seen pmgr n = true → was_seen pmgr' n = true.

(** The counter array of scan after the postings [seen] have been counted. *)
Definition counter_counts (dataQty : nat) (skip_val : Z) (seen counter : list Z) : Prop :=
  length counter = dataQty
  ∧ ∀ i, (i < dataQty)%nat →
      counter !! i = Some (skip_val * Z.of_nat (count_occ Z.eq_dec seen (Z.of_nat i))).

(** ** The permutation builder *)

(** What [std::sort] requires of [operator<] on the distances: a strict weak
    order. It is one on every [int], and on the [float]s and [double]s other
    than NaN. *)
Definition strict_weak_order {A} (lt : relation A) : Prop :=
  (∀ x, ¬ lt x x)
  ∧ (∀ x y z, lt x y → lt y z → lt x z)
  ∧ (∀ x y z, lt x y → lt x z ∨ lt z y).

Section PermutationBuilder.

(** [dist_t] with its [operator<]: the class is instantiated for [float],
    [double] and [int] (source lines 823-825). *)
Context {dist_t : Type} (dist_lt : relation dist_t) `{!RelDecision dist_lt}.

(** [static_cast<PivotIdType>]; the header that declares [PivotIdType] is not
    among the sources. *)
Variable to_PivotIdType : Z → Z.

(** [DistInt<dist_t>]: a distance and a pivot id. *)
Local Abbreviation DistInt := (dist_t * Z)%type (only parsing).

(** [operator<] of [std::pair]: by the distances and, where neither distance
    is less than the other, by the pivot ids. *)
Definition DistInt_lt (a b : DistInt) : Prop :=
  dist_lt a.1 b.1 ∨ (¬ dist_lt b.1 a.1 ∧ a.2 < b.2).

(** The order [sort] leaves the pairs in: none is less than one before it. *)
Definition DistInt_le (a b : DistInt) : Prop := ¬ DistInt_lt b a.

#[global] Instance DistInt_le_dec : RelDecision DistInt_le.
Proof. intros a b. unfold DistInt_le, DistInt_lt. apply _. Defined.

(** Modelled from the spec: [std::sort(dists.begin(), dists.end())], section
    4.2's sort ascending by distance with ties broken by ascending pivot
    index. *)
Definition std_sort (dists : list DistInt) : list DistInt := merge_sort DistInt_le dists.

(** [GetPermutationPPIndexEfficiently(p, vDst)] (source lines 251-265);
    [pivot_size] is [pivot_.size()]. It returns [p]. *)
Definition GetPermutationPPIndexEfficiently (pivot_size : nat) (vDst : list dist_t)
    : Res Permutation :=
  do dists <-
    foldM (λ i dists,
        do d <- at_ vDst i;
        Ok (dists ++ [(d, to_PivotIdType (Z.of_nat i))]))
      (seq 0 pivot_size) [];
  let dists := std_sort dists in
  foldM (λ i p,
      do e <- at_ dists i;
      Ok (p ++ [e.2]))
    (seq 0 pivot_size) [].

End PermutationBuilder.

(** ** The postings of a build *)

(** The keys of the object at position [id] of [data_]: what the encoder
    writes for its permutation when the builder calls it. *)
Definition object_keys (PostingListIndex3 : Z → Z → Z → Z) (b : BuildParams)
    (data_perm : list Permutation) (id : nat) : list Z :=
  match data_perm !! id with
  | Some perm =>
      match genPivotCombIds PostingListIndex3 (pivot_comb_qty_ b) (skip_val_ b)
              (replicate (Z.to_nat (maxPostQty_ b)) 0) perm (Z.to_nat (num_prefix_ b)) with
      | Ok r => emitted r
      | Err _ => []
      end
  | None => []
  end.

(** The postings the objects [ids] owe the bucket [bucket]: the position of
    an object once for each of its keys that is the bucket's id. *)
Definition bucket_postings (keys : nat → list Z) (ids : list nat) (bucket : nat)
    : list Z :=
  id ← ids; k ← keys id; if decide (k = Z.of_nat bucket) then [Z.of_nat id] else [].

(** What the store holds for a bucket: its shared list, then the private
    lists the workers keep for it. *)
Definition bucket_content (st : Store) (bucket : nat) : list Z :=
  (posting_lists_ st !!! bucket) ++ (tmp ← tmp_posting_lists_ st; tmp !!! bucket).

(** The store has [maxPostQty] shared lists, and every worker as many
    private ones and a document counter. *)
Definition store_wf (maxPostQty : nat) (st : Store) : Prop :=
  length (posting_lists_ st) = maxPostQty
  ∧ Forall (λ tmp, length tmp = maxPostQty) (tmp_posting_lists_ st)
  ∧ length (tmp_post_doc_qty_ st) = length (tmp_posting_lists_ st).

(** Every object's permutation is one of the pivot indices 0 .. [num_pivot] - 1,
    as the permutation builder returns them. *)
Definition perms_ok (num_pivot : Z) (data_perm : list Permutation) : Prop :=
  Forall (λ perm, perm ≡ₚ Z.of_nat <$> seq 0 (Z.to_nat num_pivot)) data_perm.

(** The number of the query's keys that are keys of the object. *)
Definition shared_keys (qkeys okeys : list Z) : Z :=
  Z.of_nat (length (filter (λ k, k ∈ okeys) qkeys)).

(** Two outcomes agree: both are results, related by [R], or both are the
    same exception. *)
Definition res_rel {A B} (R : A → B → Prop) (r1 : Res A) (r2 : Res B) : Prop :=
  match r1, r2 with
  | Ok a, Ok b => R a b
  | Err e1, Err e2 => e1 = e2
  | _, _ => False
  end.

(** Two key buffers in use hold the same keys. *)
Definition same_keys (st1 st2 : list Z * nat) : Prop :=
  st1.2 = st2.2 ∧ (st1.2 ≤ length st1.1)%nat ∧ (st2.2 ≤ length st2.1)%nat
  ∧ emitted st1 = emitted st2.

(** The posting lists hold positions of [data_], in any order. *)
Definition postings_in_range (dataQty : nat) (lists : list (list Z)) : Prop :=
  Forall (λ post, Forall (λ p, 0 ≤ p < Z.of_nat dataQty) post) lists.

(** The index with another [min_times_]. *)
Definition with_min_times (min_times : Z) (idx : Index) : Index :=
  mkIndex (data_qty idx) (bparams idx)
    (mkQueryParams (skip_checking_ (qparams idx)) (inv_proc_alg_ (qparams idx)) min_times
       (num_prefix_search_ (qparams idx)))
    (store idx).

(** The test [accumulated_count ≥ thresh] of section 4.7 with the quotient of
    the threshold taken as it is written, not truncated: section 8 has
    thresh = 1 for min_times = 1 and num_prefix = 2, where whole counts reach
    1·(2 − 1)/2 from 1 on. *)
Definition reaches_thresh (k min_times num_prefix count : Z) : Prop :=
  if decide (k = 1) then min_times ≤ count
  else if decide (k = 2) then min_times * (num_prefix - 1) ≤ 2 * count
  else min_times * (num_prefix - 1) * (num_prefix - 2) ≤ 6 * count.

(** The store of [CreateIndex]: its set-up and the two parallel loops (source
    lines 138-201), for the parameters [b]. *)
Definition CreateIndex_build (PostingListIndex3 : Z → Z → Z → Z) (b : BuildParams)
    (data_perm : list Permutation) (sched1 sched2 : list (nat * nat)) : Res Store :=
  let maxPostQty := Z.to_nat (maxPostQty_ b) in
  let W := Z.to_nat (index_thread_qty_ b) in
  let st := mkStore (replicate maxPostQty [])
              (replicate W (replicate maxPostQty []))
              (replicate W 0) in
  do st <- ParallelFor sched1 (index_object PostingListIndex3 b data_perm) st;
  ParallelFor sched2 flush_and_sort st.

(** [ParallelFor] with one thread: a plain loop over the range on worker 0. *)
Definition one_worker (start end_ : nat) : list (nat * nat) :=
  (λ id, (id, 0%nat)) <$> seq start (end_ - start).

(** * Properties *)

(** ** The error monad *)

Lemma bind_Ok {A B} (m : Res A) (k : A → Res B) (b : B) :
  bind m k = Ok b → ∃ a, m = Ok a ∧ k a = Ok b.
Proof. destruct m as [a|e]; simpl; [eauto|discriminate]. Qed.

Lemma bind_Err_l {A B} (m : Res A) (k : A → Res B) :
  is_Err m → is_Err (bind m k).
Proof. intros [e ->]. by exists e. Qed.

Lemma is_Err_Err {A} (e : error) : is_Err (@Err A e).
Proof. by exists e. Qed.

(** Runs one statement of a body whose outcome is an error either way. *)
Tactic Notation "step_Err" "as" simple_intropattern(pat) "eqn" ":" ident(E) :=
  lazymatch goal with
  | |- is_Err (bind ?m _) =>
      destruct m as [pat|?] eqn:E; [cbn [bind]|apply bind_Err_l, is_Err_Err]
  end.

(** ** The parameter manager *)

Lemma GetParam_loop_absent {A} (conv : ParamValue → Res A) Name ps Value bFound :
  existsb (String.eqb Name) ps.*1 = false →
  GetParam_loop conv Name ps Value bFound = Ok (Value, bFound).
Proof.
  induction ps as [|[n v] ps IH]; simpl; [done|].
  intros [Hn Hps]%orb_false_iff. rewrite Hn. auto.
Qed.

Lemma GetParamOptional_params {A} pmgr Name (conv : ParamValue → Res A) d v pmgr' :
  GetParamOptional pmgr Name conv d = Ok (v, pmgr') → params pmgr' = params pmgr.
Proof.
  unfold GetParamOptional. intros ([v' [|]] & _ & [= _ <-])%bind_Ok; done.
Qed.

Lemma GetParamOptional_absent {A} pmgr Name (conv : ParamValue → Res A) d :
  hasParam pmgr Name = false →
  GetParamOptional pmgr Name conv d = Ok (d, pmgr).
Proof.
  intros H. unfold GetParamOptional. by rewrite GetParam_loop_absent.
Qed.

Lemma hasParam_params pmgr pmgr' Name :
  params pmgr' = params pmgr → hasParam pmgr' Name = hasParam pmgr Name.
Proof. unfold hasParam. by intros ->. Qed.

(** ** Build-time parameters *)

(** C9. [CreateIndex] ends in an exception whenever the parameters name both
    [numPrefix] and [numPivotIndex], whatever values the two carry (equal
    ones included). *)
Theorem CreateIndex_rejects_both_aliases
    (T3 : Z → Z → Z → Z) (hardware_concurrency : Z) (data_perm : list Permutation)
    (IndexParams : AnyParams) (sched1 sched2 : list (nat * nat)) :
  hasParam (mkPmgr IndexParams []) "numPivotIndex" = true →
  hasParam (mkPmgr IndexParams []) "numPrefix" = true →
  is_Err (CreateIndex T3 hardware_concurrency data_perm IndexParams sched1 sched2).
Proof.
  intros H1 H2. unfold CreateIndex. apply bind_Err_l.
  unfold CreateIndex_params. step_Err as [num_pivot pmgr] eqn:E.
  apply GetParamOptional_params in E.
  rewrite !(hasParam_params _ _ _ E), H1, H2. apply is_Err_Err.
Qed.

Lemma CreateIndex_rejects_both_aliases_witness :
  is_Err (CreateIndex (λ _ _ _, 0) 8 [[0; 1; 2]]
            [("numPrefix", PNum 2); ("numPivotIndex", PNum 2); ("numPivot", PNum 3)]
            [(0, 0)]%nat [(0, 0); (1, 0); (2, 0)]%nat).
Proof. apply CreateIndex_rejects_both_aliases; reflexivity. Defined.

(** ** Query-time parameters *)

(** C8. When the query-time parameters do not name [numPivotSearch],
    [SetQueryTimeParams] leaves [min_times_] at 2 whatever [minTimes] says:
    the lookup of [numPivotSearch] puts its default into the member that the
    lookup of [minTimes] has just set. *)
Theorem SetQueryTimeParams_minTimes_overwritten
    (num_prefix num_pivot : Z) (QueryTimeParams : AnyParams) (q : QueryParams) :
  hasParam (mkPmgr QueryTimeParams []) "numPivotSearch" = false →
  SetQueryTimeParams num_prefix num_pivot QueryTimeParams = Ok q →
  min_times_ q = 2.
Proof.
  intros Habs. unfold SetQueryTimeParams.
  intros ([skip_checking pmgr1] & E1 & H)%bind_Ok.
  apply bind_Ok in H as ([inv_proc_alg pmgr2] & E2 & H).
  apply bind_Ok in H as (_ & _ & H).
  apply bind_Ok in H as ([min_times pmgr3] & E3 & H).
  apply GetParamOptional_params in E1, E2, E3.
  assert (hasParam pmgr3 "numPivotSearch" = false) as Habs3.
  { rewrite (hasParam_params (mkPmgr QueryTimeParams []) pmgr3); [done|].
    simpl in *. congruence. }
  rewrite (GetParamOptional_absent _ _ _ _ Habs3) in H.
  cbn [bind] in H.
  apply bind_Ok in H as ([num_prefix_search pmgr4] & E4 & H).
  apply bind_Ok in H as (_ & _ & H).
  apply bind_Ok in H as (alg & _ & H).
  apply bind_Ok in H as (_ & _ & [= <-]). done.
Qed.

Lemma SetQueryTimeParams_minTimes_overwritten_witness :
  SetQueryTimeParams 32 512 [("minTimes", PNum 5)]
  = Ok (mkQueryParams false kStoreSort 2 32)
  ∧ min_times_ (mkQueryParams false kStoreSort 2 32) = 2.
Proof.
  split; [reflexivity|].
  apply (SetQueryTimeParams_minTimes_overwritten 32 512 [("minTimes", PNum 5)]);
    reflexivity.
Defined.

(** *** One more parameter at the end of the list *)

Lemma GetParam_loop_snoc {A} (conv : ParamValue → Res A) Name ps n v Value bFound :
  GetParam_loop conv Name (ps ++ [(n, v)]) Value bFound
  = do '(Value', bFound') <- GetParam_loop conv Name ps Value bFound;
    if String.eqb Name n then do Value'' <- conv v; Ok (Value'', true)
    else Ok (Value', bFound').
Proof.
  revert Value bFound. induction ps as [|[n' v'] ps IH]; intros Value bFound; simpl.
  - destruct (String.eqb Name n); [destruct (conv v)|]; done.
  - destruct (String.eqb Name n'); [destruct (conv v'); simpl|]; auto.
Qed.

Lemma GetParamOptional_extends {A} x pmgr' pmgr Name (conv : ParamValue → Res A) d v pmgr1 :
  extends x pmgr' pmgr → String.eqb Name x.1 = false →
  GetParamOptional pmgr Name conv d = Ok (v, pmgr1) →
  ∃ pmgr1', GetParamOptional pmgr' Name conv d = Ok (v, pmgr1')
    ∧ extends x pmgr1' pmgr1
    ∧ (∀ n, was_seen pmgr' n = true → was_seen pmgr1' n = true).
Proof.
  intros [Hp Hs] Hne. unfold GetParamOptional.
  intros ([v' b] & E & [= -> <-])%bind_Ok.
  destruct x as [n w]. rewrite Hp, GetParam_loop_snoc, E. simpl in *. rewrite Hne.
  eexists; split; [done|]. unfold extends, was_seen in *.
  destruct b; simpl; repeat split; try done.
  - intros n' [->|H]%orb_true_iff; [done|]. by rewrite (Hs _ H), orb_true_r.
  - intros n' ->. by rewrite orb_true_r.
Qed.

Lemma GetParamOptional_last pmgr' ps Name w (conv : ParamValue → Res Z) d v pmgr1' :
  params pmgr' = ps ++ [(Name, w)] →
  GetParamOptional pmgr' Name conv d = Ok (v, pmgr1') →
  conv w = Ok v ∧ was_seen pmgr1' Name = true ∧ params pmgr1' = params pmgr'.
Proof.
  intros Hp. unfold GetParamOptional.
  rewrite Hp, GetParam_loop_snoc. intros ([v' b] & E & H)%bind_Ok.
  apply bind_Ok in E as ([v0 b0] & _ & E). rewrite String.eqb_refl in E.
  apply bind_Ok in E as (v1 & Ev & [= -> <-]). injection H as <- <-.
  unfold was_seen. simpl. by rewrite String.eqb_refl.
Qed.

Lemma hasParam_extends x pmgr' pmgr Name :
  extends x pmgr' pmgr → String.eqb Name x.1 = false →
  hasParam pmgr' Name = hasParam pmgr Name.
Proof.
  intros [Hp _] Hne. unfold hasParam. rewrite Hp, fmap_app, existsb_app. simpl.
  by rewrite Hne, !orb_false_r.
Qed.

Lemma CheckUnused_extends x pmgr' pmgr :
  extends x pmgr' pmgr → was_seen pmgr' x.1 = true →
  CheckUnused pmgr = Ok () → CheckUnused pmgr' = Ok ().
Proof.
  intros [Hp Hs] Hx. unfold CheckUnused.
  destruct (forallb _ (params pmgr).*1) eqn:E; [intros _|done].
  rewrite Hp, fmap_app, forallb_app. simpl. fold (was_seen pmgr' x.1). rewrite Hx.
  rewrite andb_true_r.
  erewrite (proj2 (forallb_forall _ _)); [done|].
  intros n Hn. apply Hs. by eapply (proj1 (forallb_forall _ _)) in E.
Qed.

Lemma to_uint_Ok v n : to_uint v = Ok n → v = PNum n.
Proof.
  destruct v as [m|s]; simpl; [|done]. by destruct (in_range 32 m); intros [= ->].
Qed.

(** The value [CreateIndex] reads for [pivotCombQty] when the parameter is
    the last of the list, and what it does with a value other than 2. *)
Lemma CreateIndex_params_pivotCombQty hardware_concurrency dataSize ps k b q :
  CreateIndex_params hardware_concurrency dataSize (ps ++ [("pivotCombQty", PNum k)])
  = Ok (b, q) →
  k = 2 ∧ pivot_comb_qty_ b = 2.
Proof.
  unfold CreateIndex_params. intros H.
  repeat match type of H with
  | bind (GetParamOptional _ "pivotCombQty" _ _) _ = _ => fail 1
  | bind (GetParamOptional _ _ _ _) _ = _ =>
      let E := fresh "E" in
      apply bind_Ok in H as ([? ?] & E & H); apply GetParamOptional_params in E
  | bind _ _ = _ => apply bind_Ok in H as (_ & _ & H)
  end.
  apply bind_Ok in H as ([pivot_comb_qty pmgr] & Elast & H).
  apply (GetParamOptional_last _ ps _ (PNum k)) in Elast as (Ek & _ & _);
    [|simpl in *; congruence].
  apply to_uint_Ok in Ek as [= <-].
  repeat match type of H with
  | bind (CHECK (bool_decide (_ = 2)) _) _ = _ => fail 1
  | bind (GetParamOptional _ _ _ _) _ = _ => apply bind_Ok in H as ([? ?] & _ & H)
  | bind _ _ = _ => apply bind_Ok in H as (? & _ & H)
  end.
  apply bind_Ok in H as (? & Hk & H). unfold CHECK in Hk. case_bool_decide; [|done].
  subst k. do 2 apply bind_Ok in H as (? & _ & H). by injection H as <- _.
Qed.

Lemma GetParamOptional_extends_new {A} n w pmgr' pmgr (conv : ParamValue → Res A) d v :
  extends (n, w) pmgr' pmgr → hasParam pmgr n = false → conv w = Ok v →
  ∃ pmgr1', GetParamOptional pmgr' n conv d = Ok (v, pmgr1')
    ∧ extends (n, w) pmgr1' pmgr ∧ was_seen pmgr1' n = true.
Proof.
  intros [Hp Hs] Habs Hv. unfold GetParamOptional.
  rewrite Hp, GetParam_loop_snoc. rewrite GetParam_loop_absent by done.
  cbn [bind]. rewrite String.eqb_refl, Hv. cbn [bind].
  eexists; split; [done|]. unfold extends, was_seen in *. simpl.
  rewrite String.eqb_refl. repeat split; try done.
  intros n' H. by rewrite (Hs _ H), orb_true_r.
Qed.

(** Naming the default explicitly changes nothing. *)
Lemma CreateIndex_params_pivotCombQty_2 hardware_concurrency dataSize ps r :
  hasParam (mkPmgr ps []) "pivotCombQty" = false →
  CreateIndex_params hardware_concurrency dataSize ps = Ok r →
  CreateIndex_params hardware_concurrency dataSize (ps ++ [("pivotCombQty", PNum 2)])
  = Ok r.
Proof.
  intros Habs H. unfold CreateIndex_params in *.
  set (x := ("pivotCombQty", PNum 2)).
  assert (extends x (mkPmgr (ps ++ [x]) []) (mkPmgr ps [])) as HR by done.
  revert HR Habs H. generalize (mkPmgr (ps ++ [x]) []) (mkPmgr ps []).
  intros pmgr' pmgr HR Habs H.
  repeat match goal with
  | H : bind (GetParamOptional _ "pivotCombQty" _ _) _ = _ |- _ => fail 1
  | HR : extends x ?pm' ?pm, H : bind (GetParamOptional ?pm ?n ?c ?d) _ = Ok _ |- _ =>
      let E := fresh "E" in let pm1 := fresh "pmgr" in let pm1' := fresh "pmgr'" in
      let v := fresh "v" in let HR' := fresh "HR" in
      apply bind_Ok in H as ([v pm1] & E & H);
      destruct (GetParamOptional_extends x pm' pm n c d v pm1 HR eq_refl E)
        as (pm1' & -> & HR' & _);
      rewrite <-(hasParam_params _ _ "pivotCombQty" (GetParamOptional_params _ _ _ _ _ _ E))
        in Habs;
      cbn [bind]; clear HR E
  | HR : extends x ?pm' ?pm, H : bind (if hasParam ?pm ?n1 && hasParam ?pm ?n2 then _ else _) _ = Ok _ |- _ =>
      rewrite (hasParam_extends x pm' pm n1 HR eq_refl),
        (hasParam_extends x pm' pm n2 HR eq_refl);
      let E := fresh "E" in
      apply bind_Ok in H as ([] & E & H); rewrite E; cbn [bind]; clear E
  | H : bind ?m _ = Ok _ |- bind ?m _ = Ok _ =>
      let E := fresh "E" in
      apply bind_Ok in H as (? & E & H); rewrite E; cbn [bind]; clear E
  end.
  rewrite GetParamOptional_absent in H by done. cbn [bind] in H.
  lazymatch goal with
  | HR : extends x ?pm' ?pm |- _ =>
      destruct (GetParamOptional_extends_new "pivotCombQty" (PNum 2) pm' pm to_uint 2 2
                  HR Habs eq_refl) as (pmgr1' & -> & HR1 & Hseen);
      clear HR
  end.
  cbn [bind]. fold x in HR1.
  repeat match goal with
  | HR : extends x ?pm' ?pm, H : bind (GetParamOptional ?pm ?n ?c ?d) _ = Ok _ |- _ =>
      let E := fresh "E" in let pm1 := fresh "pmgr" in let pm1' := fresh "pmgr'" in
      let v := fresh "v" in let HR' := fresh "HR" in let Hm := fresh "Hm" in
      apply bind_Ok in H as ([v pm1] & E & H);
      destruct (GetParamOptional_extends x pm' pm n c d v pm1 HR eq_refl E)
        as (pm1' & -> & HR' & Hm);
      apply Hm in Hseen;
      cbn [bind]; clear HR E Hm
  | HR : extends x ?pm' ?pm, H : bind (CheckUnused ?pm) _ = Ok _ |- _ =>
      let E := fresh "E" in
      apply bind_Ok in H as ([] & E & H);
      rewrite (CheckUnused_extends x pm' pm HR Hseen E); cbn [bind]; clear E
  | H : bind ?m _ = Ok _ |- bind ?m _ = Ok _ =>
      let E := fresh "E" in
      apply bind_Ok in H as (? & E & H); rewrite E; cbn [bind]; clear E
  end.
  done.
Qed.

(** C2 (amended). Given parameters that [CreateIndex] accepts when
    [pivotCombQty] is left out, [CreateIndex] accepts [pivotCombQty = k]
    exactly when k = 2; every other value, 1 and 3 included, ends the build
    in an exception. *)
Theorem CreateIndex_accepts_pairs_only
    (hardware_concurrency dataSize : Z) (ps : AnyParams) (k : Z) :
  hasParam (mkPmgr ps []) "pivotCombQty" = false →
  is_Ok (CreateIndex_params hardware_concurrency dataSize ps) →
  (is_Ok (CreateIndex_params hardware_concurrency dataSize
            (ps ++ [("pivotCombQty", PNum k)])) ↔ k = 2)
  ∧ (k ≠ 2 → ∀ T3 data_perm sched1 sched2,
       is_Err (CreateIndex T3 hardware_concurrency data_perm
                 (ps ++ [("pivotCombQty", PNum k)]) sched1 sched2)).
Proof.
  intros Habs [r Hr]. split; [split|].
  - intros [[b q] H]. by apply CreateIndex_params_pivotCombQty in H as [-> _].
  - intros ->. exists r. by apply CreateIndex_params_pivotCombQty_2.
  - intros Hk T3 data_perm sched1 sched2. unfold CreateIndex. apply bind_Err_l.
    destruct (CreateIndex_params _ (Z.of_nat _) _) as [[b q]|e] eqn:E; [|apply is_Err_Err].
    by apply CreateIndex_params_pivotCombQty in E as [-> _].
Qed.

Lemma CreateIndex_accepts_pairs_only_witness :
  (is_Ok (CreateIndex_params 8 100 ([("numPivot", PNum 64)] ++ [("pivotCombQty", PNum 2)]))
   ↔ 2 = 2)
  ∧ (2 ≠ 2 → ∀ T3 data_perm sched1 sched2,
       is_Err (CreateIndex T3 8 data_perm
                 ([("numPivot", PNum 64)] ++ [("pivotCombQty", PNum 2)]) sched1 sched2)).
Proof.
  apply (CreateIndex_accepts_pairs_only 8 100 [("numPivot", PNum 64)] 2).
  - reflexivity.
  - eexists. vm_compute. reflexivity.
Defined.

(** C2 as stated fails: with parameters that are accepted for k = 2, the
    values 1 and 3 end the build in a failed check. *)
Lemma CreateIndex_rejects_singles_and_triples :
  let data_perm := [[0; 1; 2]; [2; 1; 0]] in
  let sched1 := [(0, 0); (1, 0)]%nat in
  let sched2 := [(0, 0); (1, 0); (2, 0)]%nat in
  let params k := [("numPivot", PNum 3); ("numPrefix", PNum 2);
                   ("indexThreadQty", PNum 1); ("pivotCombQty", PNum k)] in
  is_Ok (CreateIndex (λ _ _ _, 0) 8 data_perm (params 2) sched1 sched2)
  ∧ CreateIndex (λ _ _ _, 0) 8 data_perm (params 1) sched1 sched2
    = Err (check_failed "pivot_comb_qty_ == 2")
  ∧ CreateIndex (λ _ _ _, 0) 8 data_perm (params 3) sched1 sched2
    = Err (check_failed "pivot_comb_qty_ == 2").
Proof.
  cbv zeta. split; [eexists; vm_compute; reflexivity|]. split; vm_compute; reflexivity.
Qed.

(** ** A query with an empty prefix *)

(** C6 (amended). A query run with [num_prefix_search_ = 0] ends in an
    exception: when the encoder returns, it is the failed check
    [num_prefix_search_ >= 1] that every one of the four algorithms starts
    with; no candidate list is produced and nothing is re-ranked. *)
Theorem GenSearch_empty_prefix_aborts
    (T3 : Z → Z → Z → Z) (idx : Index) (perm_q : Permutation) :
  num_prefix_search_ (qparams idx) = 0 →
  ∃ e, GenSearch T3 idx perm_q = Err e
    ∧ (is_Ok (genPivotCombIds T3 (pivot_comb_qty_ (bparams idx)) (skip_val_ (bparams idx))
                (replicate (Z.to_nat (maxPostQty_ (bparams idx))) 0) perm_q 0)
       → e = check_failed "num_prefix_search_ >= 1").
Proof.
  intros H0. unfold GenSearch. rewrite H0. simpl Z.to_nat.
  destruct (genPivotCombIds _ _ _ _ _ _) as [[combIds cqty]|e]; cbn [bind].
  - exists (check_failed "num_prefix_search_ >= 1"). split; [|done].
    by destruct (inv_proc_alg_ (qparams idx)).
  - exists e. split; [done|]. by intros [? ?].
Qed.

Lemma GenSearch_empty_prefix_aborts_witness :
  let idx :=
    mkIndex 2 (mkBuildParams 3 2 1 false 0 "" 1 2 false 3 0 0)
      (mkQueryParams false kStoreSort 2 0) (mkStore [[0]; []; [1]] [[[]; []; []]] [0]) in
  ∃ e, GenSearch (λ _ _ _, 0) idx [0; 1; 2] = Err e
    ∧ (is_Ok (genPivotCombIds (λ _ _ _, 0) 2 1 (replicate (Z.to_nat 3) 0) [0; 1; 2] 0)
       → e = check_failed "num_prefix_search_ >= 1").
Proof.
  exact (GenSearch_empty_prefix_aborts (λ _ _ _, 0)
           (mkIndex 2 (mkBuildParams 3 2 1 false 0 "" 1 2 false 3 0 0)
              (mkQueryParams false kStoreSort 2 0)
              (mkStore [[0]; []; [1]] [[[]; []; []]] [0]))
           [0; 1; 2] eq_refl).
Defined.

(** C6 as stated fails: on an index built over two objects, a query with
    [numPrefixSearch = 0] does not return the empty candidate list; it ends
    in the failed check, under each of the four algorithms. *)
Lemma GenSearch_empty_prefix_throws :
  let built :=
    CreateIndex (λ _ _ _, 0) 8 [[0; 1; 2]; [2; 1; 0]]
      [("numPivot", PNum 3); ("numPrefix", PNum 2); ("indexThreadQty", PNum 1)]
      [(0, 0); (1, 0)]%nat [(0, 0); (1, 0); (2, 0)]%nat in
  let search alg :=
    do idx <- built;
    do idx <- Index_SetQueryTimeParams idx
                [("numPrefixSearch", PNum 0); ("invProcAlg", PStr alg)];
    GenSearch (λ _ _ _, 0) idx [0; 1; 2] in
  is_Ok built
  ∧ Forall (λ alg, search alg = Err (check_failed "num_prefix_search_ >= 1")
                   ∧ search alg ≠ Ok ([], []))
      [PERM_PROC_FAST_SCAN; PERM_PROC_STORE_SORT; PERM_PROC_MERGE; PERM_PROC_PRIOR_QUEUE].
Proof.
  cbv zeta. split; [eexists; vm_compute; reflexivity|].
  repeat constructor; solve [vm_compute; reflexivity | vm_compute; discriminate].
Qed.

(** ** Persistence *)

(** C10. With a location that can be opened, [SaveIndex] and [LoadIndex]
    throw their runtime error before any statement that writes or reads the
    index runs: whatever those statements are, [SaveIndex] leaves the index
    as it was and an empty file at the location (other files untouched), and
    [LoadIndex] leaves the index and the files as they were. *)
Theorem SaveIndex_LoadIndex_throw
    (SaveIndex_rest LoadIndex_rest : string → IO unit)
    (location : string) (idx : Index) (fs : FileSystem) :
  (can_write fs location = true →
   ∃ fs', SaveIndex SaveIndex_rest location (idx, fs)
          = (Err (runtime_error "This was never properly updated, likely it does not work!"),
             (idx, fs'))
     ∧ file_content fs' location = Some ""
     ∧ ∀ l, l ≠ location → file_content fs' l = file_content fs l)
  ∧ (is_Some (file_content fs location) →
     LoadIndex LoadIndex_rest location (idx, fs)
     = (Err (runtime_error "This was never properly updated, likely it does not work!"),
        (idx, fs))).
Proof.
  split.
  - intros Hw. unfold SaveIndex, io_bind, ofstream. rewrite Hw. simpl.
    eexists; split; [done|]. simpl. rewrite String.eqb_refl. split; [done|].
    intros l Hl. by apply String.eqb_neq in Hl as ->.
  - intros Hr. unfold LoadIndex, io_bind, ifstream. by rewrite bool_decide_eq_true_2.
Qed.

Lemma SaveIndex_LoadIndex_throw_witness :
  let idx :=
    mkIndex 2 (mkBuildParams 3 2 1 false 0 "" 1 2 false 3 0 0)
      (mkQueryParams false kStoreSort 2 2) (mkStore [[0]; []; [1]] [[[]; []; []]] [0]) in
  let fs := mkFS (λ l, if String.eqb l "index.bin" then Some "old" else None) (λ _, true) in
  let rest (_ : string) : IO unit := λ w, (Ok (), w) in
  (∃ fs', SaveIndex rest "index.bin" (idx, fs)
          = (Err (runtime_error "This was never properly updated, likely it does not work!"),
             (idx, fs'))
     ∧ file_content fs' "index.bin" = Some ""
     ∧ ∀ l, l ≠ "index.bin" → file_content fs' l = file_content fs l)
  ∧ LoadIndex rest "index.bin" (idx, fs)
    = (Err (runtime_error "This was never properly updated, likely it does not work!"),
       (idx, fs)).
Proof.
  cbv zeta.
  pose proof (SaveIndex_LoadIndex_throw (λ _ w, (Ok (), w)) (λ _ w, (Ok (), w)) "index.bin"
    (mkIndex 2 (mkBuildParams 3 2 1 false 0 "" 1 2 false 3 0 0)
      (mkQueryParams false kStoreSort 2 2) (mkStore [[0]; []; [1]] [[[]; []; []]] [0]))
    (mkFS (λ l, if String.eqb l "index.bin" then Some "old" else None) (λ _, true)))
    as [HS HL].
  split; [apply HS; reflexivity|apply HL; by eexists].
Defined.

(** ** The builder *)

(** C1. With two workers, three objects and four pivots (six buckets), an
    admissible schedule of the two parallel loops builds an index whose
    posting lists of the buckets 0, 4 and 5 are not ascending: the last loop
    sorts the buckets below [num_pivot_] only, and a bucket it has sorted
    receives the postings another worker flushes later. *)
Theorem CreateIndex_leaves_unsorted_lists (T3 : Z → Z → Z → Z) :
  let data_perm := [[0; 1; 2; 3]; [0; 1; 2; 3]; [0; 1; 2; 3]] in
  let IndexParams :=
    [("numPivot", PNum 4); ("numPrefix", PNum 4); ("indexThreadQty", PNum 2)] in
  let sched1 := [(0, 0); (1, 1); (2, 0)]%nat in
  let sched2 := [(0, 0); (1, 1); (2, 0); (3, 1)]%nat in
  admissible 0 3 2 sched1 ∧ admissible 0 4 2 sched2
  ∧ ∃ idx, CreateIndex T3 8 data_perm IndexParams sched1 sched2 = Ok idx
      ∧ maxPostQty_ (bparams idx) = 6
      ∧ posting_lists_ (store idx)
        = [[0; 2; 1]; [0; 1; 2]; [0; 1; 2]; [0; 1; 2]; [0; 2; 1]; [0; 2; 1]]
      ∧ ¬ Sorted Z.lt [0; 2; 1].
Proof.
  cbv zeta. split; [|split].
  - split; [done|]. repeat constructor.
  - split; [done|]. repeat constructor.
  - eexists. split; [vm_compute; reflexivity|]. split; [done|]. split; [done|].
    intros H. inversion H as [|? ? H1 _]; subst. inversion H1 as [|? ? _ H2]; subst.
    inversion H2; subst. lia.
Qed.

(** ** The encoder for pairs *)

Lemma emit_emitted idiv imod st :
  (st.2 ≤ length st.1)%nat →
  ((emit idiv imod st).2 ≤ length (emit idiv imod st).1)%nat
  ∧ emitted (emit idiv imod st)
    = emitted st ++ (if decide (imod = 0) then [idiv] else []).
Proof.
  destruct st as [ids resSize]. unfold emit, emitted. simpl. intros Hle.
  destruct (decide (imod = 0)); simpl; [|by rewrite app_nil_r].
  set (ids' := if bool_decide _ then _ else _).
  assert (resSize < length ids')%nat as Hlt.
  { unfold ids'. case_bool_decide; [rewrite length_resize|]; lia. }
  assert (take resSize ids' = take resSize ids) as Htake.
  { unfold ids'. case_bool_decide; [|done].
    rewrite take_resize_le, resize_le by lia. done. }
  rewrite length_insert. split; [lia|].
  rewrite (take_S_r _ _ idiv) by (by apply list_lookup_insert_eq).
  by rewrite take_insert_ge, Htake by lia.
Qed.

(** A loop whose every turn appends keys to the buffer appends them all. *)
Lemma foldM_emitted {A} (body : A → list Z * nat → Res (list Z * nat))
    (out : A → list Z) (l : list A) (st : list Z * nat) :
  (∀ a st, a ∈ l → (st.2 ≤ length st.1)%nat →
     ∃ st', body a st = Ok st' ∧ (st'.2 ≤ length st'.1)%nat
       ∧ emitted st' = emitted st ++ out a) →
  (st.2 ≤ length st.1)%nat →
  ∃ st', foldM body l st = Ok st' ∧ (st'.2 ≤ length st'.1)%nat
    ∧ emitted st' = emitted st ++ (l ≫= out).
Proof.
  revert st. induction l as [|a l IH]; intros st Hbody Hle; simpl.
  - exists st. by rewrite app_nil_r.
  - destruct (Hbody a st) as (st1 & -> & Hle1 & Hem1); [left|done|]. cbn [bind].
    destruct (IH st1) as (st2 & -> & Hle2 & Hem2); [|done|].
    { intros a' st' Ha'. apply Hbody. by right. }
    exists st2. rewrite Hem2, Hem1, <-app_assoc. done.
Qed.

Lemma at_lookup_total (perm : list Z) (i : nat) :
  (i < length perm)%nat → at_ perm i = Ok (perm !!! i).
Proof.
  intros Hi. unfold at_. destruct (lookup_lt_is_Some_2 perm i Hi) as [x Hx].
  by rewrite Hx, (list_lookup_total_correct _ _ _ Hx).
Qed.

Lemma PAIR_bound (x y : Z) :
  0 ≤ x < 2 ^ 16 → 0 ≤ y < 2 ^ 16 → 0 ≤ PAIR x y < 2 ^ 32.
Proof.
  intros Hx Hy. unfold PAIR.
  assert (0 ≤ Z.max x y * (Z.max x y - 1) / 2 ≤ 2 ^ 31).
  { split; [apply Z.div_pos; nia|]. apply Z.div_le_upper_bound; nia. }
  lia.
Qed.

Lemma PostingListIndex_PAIR (x y : Z) : PostingListIndex x y = PAIR x y.
Proof. reflexivity. Qed.

Lemma u32_small (x : Z) : 0 ≤ x < 2 ^ 32 → u32 x = x.
Proof. intros. unfold u32, wrap. by apply Z.mod_small. Qed.

Lemma seq_bind_skip_first {B} (f : nat → list B) (P : nat) :
  f 0%nat = [] → seq 1 (P - 1) ≫= f = seq 0 P ≫= f.
Proof.
  intros H0. destruct P as [|P]; [done|].
  simpl seq at 2. rewrite bind_cons, H0. simpl. by rewrite Nat.sub_0_r.
Qed.

(** C5. For k = 2 and a prefix of the permutation of at most 2^16 pivots,
    the encoder returns the number of keys it wrote, and the keys are
    idx / skip_val for the pairs 0 <= a < b < P with
    idx = PAIR(π[b], π[a]) and idx mod skip_val = 0. *)
Theorem genPivotCombIds_pairs
    (T3 : Z → Z → Z → Z) (skip_val : Z) (ids : list Z) (π : Permutation) (P : nat)
    (num_pivot : Z) :
  0 < skip_val →
  (P ≤ length π)%nat →
  num_pivot ≤ 2 ^ 16 →
  Forall (λ p, 0 ≤ p < num_pivot) π →
  ∃ ids' resSize,
    genPivotCombIds T3 2 skip_val ids π P = Ok (ids', resSize)
    ∧ resSize = length (pair_keys skip_val π P)
    ∧ take resSize ids' = pair_keys skip_val π P.
Proof.
  intros Hskip HP HN Hπ. unfold genPivotCombIds. cbn [bind CHECK].
  rewrite (decide_False (P := 2 = 1)), (decide_True (P := 2 = 2)) by done.
  simpl bool_decide. unfold CHECK. cbn [andb bind].
  lazymatch goal with
  | |- context [foldM ?body (seq 1 (P - 1)) ?st] =>
      destruct (foldM_emitted body
        (λ b, a ← seq 0 b; skip_filter skip_val (PAIR (π !!! b) (π !!! a)))
        (seq 1 (P - 1)) st) as ([ids' resSize] & -> & Hle & Hem)
  end.
  - intros j st Hj Hst. apply elem_of_seq in Hj.
    apply foldM_emitted; [|done]. intros k st' Hk Hst'. apply elem_of_seq in Hk.
    rewrite !at_lookup_total by lia. cbn [bind].
    unfold div_, mod_. rewrite !decide_False by lia. cbn [bind].
    eexists. split; [done|].
    assert (∀ i, (i < length π)%nat → 0 ≤ π !!! i < 2 ^ 16) as Hin.
    { intros i Hi. rewrite Forall_lookup in Hπ.
      specialize (Hπ i (π !!! i) (list_lookup_lookup_total_lt _ _ Hi)). simpl in Hπ. lia. }
    assert (0 ≤ π !!! j < 2 ^ 16) as Hpj by (apply Hin; lia).
    assert (0 ≤ π !!! k < 2 ^ 16) as Hpk by (apply Hin; lia).
    pose proof (PAIR_bound _ _ Hpj Hpk) as Hb.
    lazymatch goal with
    | |- context [emit ?idiv ?imod st'] =>
        destruct (emit_emitted idiv imod st' Hst') as [Hle' Hem']
    end.
    split; [done|]. rewrite Hem'. f_equal. unfold skip_filter.
    rewrite !PostingListIndex_PAIR. rewrite u32_small; [done|].
    split; [apply Z.div_pos; lia|]. apply Z.div_lt_upper_bound; nia.
  - simpl. lia.
  - unfold emitted in Hem. simpl in Hem.
    rewrite seq_bind_skip_first in Hem by done. fold (pair_keys skip_val π P) in Hem.
    exists ids', resSize. split; [done|]. split; [|done].
    rewrite <-Hem, length_take. simpl in Hle. lia.
Qed.

Lemma genPivotCombIds_pairs_witness :
  ∃ ids' resSize,
    genPivotCombIds (λ _ _ _, 0) 2 2 [] [1; 0; 2; 3] 4 = Ok (ids', resSize)
    ∧ resSize = length (pair_keys 2 [1; 0; 2; 3] 4)
    ∧ take resSize ids' = pair_keys 2 [1; 0; 2; 3] 4.
Proof.
  apply (genPivotCombIds_pairs (λ _ _ _, 0) 2 [] [1; 0; 2; 3] 4 4).
  - lia.
  - simpl. lia.
  - lia.
  - repeat constructor; lia.
Defined.

(** ** The encoder for single pivots *)

(** The strict check of the branch for k = 1 (source line 492). *)
Lemma genPivotCombIds_singles_check (T3 : Z → Z → Z → Z) (skip_val : Z) (ids : list Z)
    (perm : Permutation) (P : nat) :
  (length perm ≤ P)%nat →
  genPivotCombIds T3 1 skip_val ids perm P
  = Err (check_failed "permPrefixSize < perm.size()").
Proof.
  intros HP. unfold genPivotCombIds.
  rewrite (bool_decide_eq_false_2 (P < length perm)%nat) by lia. done.
Qed.

(** The keys of the branch for k = 1 once the check has passed. *)
Lemma genPivotCombIds_singles_emitted (T3 : Z → Z → Z → Z) (skip_val : Z) (ids : list Z)
    (π : Permutation) (P : nat) :
  0 < skip_val →
  (P < length π)%nat →
  Forall (λ p, 0 ≤ p < 2 ^ 32) π →
  ∃ r, genPivotCombIds T3 1 skip_val ids π P = Ok r
    ∧ (r.2 ≤ length r.1)%nat
    ∧ emitted r = single_keys skip_val π P.
Proof.
  intros Hskip HP Hπ. unfold genPivotCombIds.
  rewrite (decide_True (P := 1 = 1)) by done.
  rewrite (bool_decide_eq_true_2 (P < length π)%nat) by done.
  simpl bool_decide. unfold CHECK. cbn [andb bind].
  lazymatch goal with
  | |- context [foldM ?body (seq 0 P) ?st] =>
      destruct (foldM_emitted body (λ i, skip_filter skip_val (π !!! i)) (seq 0 P) st)
        as (r & -> & Hle & Hem)
  end.
  - intros i st [_ Hi]%elem_of_seq Hst.
    assert (0 ≤ π !!! i < 2 ^ 32) as Hrange.
    { rewrite Forall_lookup in Hπ. apply (Hπ i). apply list_lookup_lookup_total_lt. lia. }
    rewrite at_lookup_total by lia. cbn [bind].
    unfold div_, mod_. rewrite !decide_False by lia. cbn [bind].
    eexists. split; [done|].
    destruct (emit_emitted (u32 (π !!! i / skip_val)) (π !!! i `mod` skip_val) st Hst)
      as [Hle Hem].
    split; [done|]. rewrite Hem. f_equal. unfold skip_filter.
    rewrite u32_small; [done|].
    split; [apply Z.div_pos; lia|]. apply Z.div_lt_upper_bound; nia.
  - simpl. lia.
  - exists r. split; [done|]. split; [done|]. by rewrite Hem.
Qed.

(** C7 (amended). For k = 1 the encoder succeeds for every prefix shorter
    than the permutation, P < N, and then returns the number of keys it
    wrote, the keys being π[i] / skip_val for the i < P with
    π[i] mod skip_val = 0; from P = N on it fails its check
    [permPrefixSize < perm.size()]. *)
Theorem genPivotCombIds_singles_strict_prefix
    (T3 : Z → Z → Z → Z) (skip_val : Z) (ids : list Z) (π : Permutation) (P : nat) :
  0 < skip_val →
  Forall (λ p, 0 ≤ p < 2 ^ 32) π →
  ((P < length π)%nat →
   ∃ ids' resSize,
     genPivotCombIds T3 1 skip_val ids π P = Ok (ids', resSize)
     ∧ resSize = length (single_keys skip_val π P)
     ∧ take resSize ids' = single_keys skip_val π P)
  ∧ ((length π ≤ P)%nat →
     genPivotCombIds T3 1 skip_val ids π P
     = Err (check_failed "permPrefixSize < perm.size()")).
Proof.
  intros Hskip Hπ. split.
  - intros HP.
    destruct (genPivotCombIds_singles_emitted T3 skip_val ids π P Hskip HP Hπ)
      as ([ids' resSize] & Hrun & Hle & Hem).
    unfold emitted in Hem. simpl in Hle, Hem.
    exists ids', resSize. split; [done|]. split; [|done].
    rewrite <-Hem, length_take. lia.
  - apply genPivotCombIds_singles_check.
Qed.

Lemma genPivotCombIds_singles_strict_prefix_witness :
  (∃ ids' resSize,
     genPivotCombIds (λ _ _ _, 0) 1 2 [] [2; 0; 3; 1] 3 = Ok (ids', resSize)
     ∧ resSize = length (single_keys 2 [2; 0; 3; 1] 3)
     ∧ take resSize ids' = single_keys 2 [2; 0; 3; 1] 3)
  ∧ genPivotCombIds (λ _ _ _, 0) 1 2 [] [2; 0; 3; 1] 4
    = Err (check_failed "permPrefixSize < perm.size()").
Proof.
  split.
  - apply (genPivotCombIds_singles_strict_prefix (λ _ _ _, 0) 2 [] [2; 0; 3; 1] 3).
    + lia.
    + repeat constructor; lia.
    + simpl. lia.
  - apply (genPivotCombIds_singles_strict_prefix (λ _ _ _, 0) 2 [] [2; 0; 3; 1] 4).
    + lia.
    + repeat constructor; lia.
    + simpl. lia.
Defined.

(** C7 as stated fails at P = N: for the permutation 1, 0 and the prefix
    P = N = 2 the keys the claim lists are 1 and 0, and the encoder returns
    no keys but fails its check. *)
Lemma genPivotCombIds_singles_full_prefix_throws :
  single_keys 1 [1; 0] 2 = [1; 0]
  ∧ genPivotCombIds (λ _ _ _, 0) 1 1 [] [1; 0] 2
    = Err (check_failed "permPrefixSize < perm.size()")
  ∧ ¬ is_Ok (genPivotCombIds (λ _ _ _, 0) 1 1 [] [1; 0] 2).
Proof.
  split; [reflexivity|]. split; [reflexivity|]. intros [r Hr]. discriminate.
Qed.

(** X1. For k = 1 and a prefix shorter than the permutation, the encoder
    returns the number of keys it wrote, and the keys are π[i] / skip_val for the
    i < P with π[i] mod skip_val = 0. *)
Theorem genPivotCombIds_singles
    (T3 : Z → Z → Z → Z) (skip_val : Z) (ids : list Z) (π : Permutation) (P : nat) :
  0 < skip_val →
  (P < length π)%nat →
  Forall (λ p, 0 ≤ p < 2 ^ 32) π →
  ∃ ids' resSize,
    genPivotCombIds T3 1 skip_val ids π P = Ok (ids', resSize)
    ∧ resSize = length (single_keys skip_val π P)
    ∧ take resSize ids' = single_keys skip_val π P.
Proof.
  intros Hskip HP Hπ. unfold genPivotCombIds.
  rewrite (decide_True (P := 1 = 1)) by done.
  rewrite (bool_decide_eq_true_2 (P < length π)%nat) by done.
  simpl bool_decide. unfold CHECK. cbn [andb bind].
  lazymatch goal with
  | |- context [foldM ?body (seq 0 P) ?st] =>
      destruct (foldM_emitted body (λ i, skip_filter skip_val (π !!! i)) (seq 0 P) st)
        as ([ids' resSize] & -> & Hle & Hem)
  end.
  - intros i st Hi Hst. apply elem_of_seq in Hi.
    rewrite at_lookup_total by lia. cbn [bind].
    unfold div_, mod_. rewrite !decide_False by lia. cbn [bind].
    eexists. split; [done|].
    lazymatch goal with
    | |- context [emit ?idiv ?imod st] =>
        destruct (emit_emitted idiv imod st Hst) as [Hle' Hem']
    end.
    split; [done|]. rewrite Hem'. f_equal. unfold skip_filter.
    rewrite u32_small; [done|].
    assert (0 ≤ π !!! i < 2 ^ 32) as Hi'.
    { rewrite Forall_lookup in Hπ. apply (Hπ i). apply list_lookup_lookup_total_lt. lia. }
    split; [apply Z.div_pos; lia|]. apply Z.div_lt_upper_bound; nia.
  - simpl. lia.
  - unfold emitted in Hem. simpl in Hem. fold (single_keys skip_val π P) in Hem.
    exists ids', resSize. split; [done|]. split; [|done].
    rewrite <-Hem, length_take. simpl in Hle. lia.
Qed.

Lemma genPivotCombIds_singles_witness :
  ∃ ids' resSize,
    genPivotCombIds (λ _ _ _, 0) 1 2 [] [3; 0; 2; 1] 3 = Ok (ids', resSize)
    ∧ resSize = length (single_keys 2 [3; 0; 2; 1] 3)
    ∧ take resSize ids' = single_keys 2 [3; 0; 2; 1] 3.
Proof.
  apply (genPivotCombIds_singles (λ _ _ _, 0) 2 [] [3; 0; 2; 1] 3).
  - lia.
  - simpl. lia.
  - repeat constructor; lia.
Defined.

(** ** The loops over the query's keys *)

Lemma foldM_app {A S} (body : A → S → Res S) (l1 l2 : list A) (s : S) :
  foldM body (l1 ++ l2) s = do s' <- foldM body l1 s; foldM body l2 s'.
Proof.
  revert s. induction l1 as [|a l1 IH]; intros s; simpl; [done|].
  destruct (body a s); simpl; auto.
Qed.

Lemma foldM_concat {A S} (body : A → S → Res S) (ls : list (list A)) (s : S) :
  foldM (λ l s, foldM body l s) ls s = foldM body (concat ls) s.
Proof.
  revert s. induction ls as [|l ls IH]; intros s; simpl; [done|].
  rewrite foldM_app. destruct (foldM body l s); simpl; auto.
Qed.

Lemma query_post_lookup posting_lists combIds cqty kk :
  keys_in_store posting_lists combIds cqty → (kk < cqty)%nat →
  ∃ post, query_lists posting_lists combIds cqty !! kk = Some post
    ∧ query_post posting_lists combIds kk = Ok post.
Proof.
  intros [Hlen Hkeys] Hkk. unfold query_lists, query_post.
  destruct (lookup_lt_is_Some_2 combIds kk) as [idiv Hidiv]; [lia|].
  rewrite list_lookup_fmap, lookup_take_lt, Hidiv by done. simpl.
  eexists; split; [done|]. unfold at_. rewrite Hidiv. cbn [bind].
  rewrite Forall_lookup in Hkeys. specialize (Hkeys kk idiv).
  rewrite lookup_take_lt in Hkeys by done. specialize (Hkeys Hidiv). simpl in Hkeys.
  unfold CHECK. rewrite bool_decide_eq_true_2 by done. cbn [bind].
  unfold at_z, at_. rewrite decide_True by lia.
  destruct (lookup_lt_is_Some_2 posting_lists (Z.to_nat idiv)) as [post Hpost]; [lia|].
  by rewrite Hpost, (list_lookup_total_correct _ _ _ Hpost).
Qed.

Lemma length_query_lists posting_lists combIds cqty :
  keys_in_store posting_lists combIds cqty →
  length (query_lists posting_lists combIds cqty) = cqty.
Proof. intros [Hlen _]. unfold query_lists. rewrite length_fmap, length_take. lia. Qed.

Lemma foldM_seq_lookup {A St} (g : nat → Res A) (f : A → St → Res St)
    (ls : list A) (start : nat) (s : St) :
  (∀ kk a, ls !! kk = Some a → g (start + kk)%nat = Ok a) →
  foldM (λ kk s, do a <- g kk; f a s) (seq start (length ls)) s = foldM f ls s.
Proof.
  revert start s. induction ls as [|l ls IH]; intros start s Hg; simpl; [done|].
  specialize (Hg 0%nat l eq_refl) as Hg0. rewrite Nat.add_0_r in Hg0.
  rewrite Hg0. cbn [bind]. destruct (f l s) as [s'|]; simpl; [|done].
  apply IH. intros kk a Hkk.
  replace (S start + kk)%nat with (start + S kk)%nat by lia. by apply Hg.
Qed.

(** A loop over the positions of the query's keys is a loop over the
    posting lists of the query. *)
Lemma foldM_query_lists {St} posting_lists combIds cqty
    (f : list Z → St → Res St) (s : St) :
  keys_in_store posting_lists combIds cqty →
  foldM (λ kk s, do post <- query_post posting_lists combIds kk; f post s) (seq 0 cqty) s
  = foldM f (query_lists posting_lists combIds cqty) s.
Proof.
  intros Hkeys. pose proof (length_query_lists _ _ _ Hkeys) as Hlen.
  rewrite <-Hlen at 1. apply foldM_seq_lookup. intros kk post Hkk. simpl.
  destruct (query_post_lookup posting_lists combIds cqty kk Hkeys) as (post' & E & ->).
  - rewrite <-Hlen. by eapply lookup_lt_Some.
  - congruence.
Qed.

(** ** The scan algorithm *)

Section Scan.

Context (dataQty : nat) (skip_val thresh : Z).
Hypothesis Hskip : 0 ≤ skip_val.

Local Abbreviation counts := (counter_counts dataQty skip_val).

Lemma scan_count_postings (todo seen counter : list Z) :
  counts seen counter →
  Forall (λ p, 0 ≤ p < Z.of_nat dataQty) todo →
  (∀ x, skip_val * Z.of_nat (count_occ Z.eq_dec (seen ++ todo) x) < 2 ^ 32) →
  ∃ counter',
    foldM (λ p counter,
        do c <- at_z counter p; Ok (<[Z.to_nat p := u32 (c + skip_val)]> counter))
      todo counter = Ok counter'
    ∧ counts (seen ++ todo) counter'.
Proof.
  revert seen counter. induction todo as [|p todo IH]; intros seen counter Hc Hin Hover.
  - exists counter. by rewrite app_nil_r.
  - apply Forall_cons in Hin as [Hp Hin]. destruct Hc as [Hlen Hc]. simpl.
    unfold at_z, at_. rewrite decide_True by lia.
    rewrite (Hc (Z.to_nat p)) by lia. rewrite Z2Nat.id by lia. cbn [bind].
    replace (seen ++ p :: todo) with ((seen ++ [p]) ++ todo) in * by by rewrite <-app_assoc.
    apply IH; [|done|done]. split; [by rewrite length_insert|].
    intros i Hi. pose proof (Hover p) as Hov.
    rewrite !count_occ_app, (count_occ_cons_eq Z.eq_dec _ (eq_refl p)) in Hov.
    rewrite u32_small by nia.
    destruct (decide (i = Z.to_nat p)) as [->|Hne].
    + rewrite list_lookup_insert_eq by lia. rewrite Z2Nat.id by lia.
      rewrite count_occ_app, (count_occ_cons_eq Z.eq_dec _ (eq_refl p)). simpl.
      f_equal. lia.
    + rewrite list_lookup_insert_ne by done. rewrite Hc by done.
      rewrite count_occ_app, count_occ_cons_neq by lia. simpl. f_equal. lia.
Qed.

Lemma scan_collect (counter : list Z) (positions : list nat) (cands : list Z)
    (count : nat → Z) :
  (∀ i, (i < dataQty)%nat → counter !! i = Some (count i)) →
  Forall (λ i, i < dataQty)%nat positions →
  foldM (λ i cands,
      do c <- at_ counter i;
      if bool_decide (thresh ≤ c)
      then do obj <- data_start dataQty (Z.of_nat i);
           Ok (addToVectorWithResSize cands obj)
      else Ok cands)
    positions cands
  = Ok (cands ++ (Z.of_nat <$> filter (λ i, thresh ≤ count i) positions)).
Proof.
  intros Hc. revert cands. induction positions as [|i positions IH]; intros cands Hin.
  - simpl. by rewrite app_nil_r.
  - apply Forall_cons in Hin as [Hi Hin]. simpl. unfold at_. rewrite (Hc i Hi). cbn [bind].
    rewrite filter_cons. case_bool_decide.
    + rewrite decide_True by done. unfold data_start.
      rewrite bool_decide_eq_true_2 by lia. cbn [bind]. rewrite IH by done.
      unfold addToVectorWithResSize. by rewrite <-app_assoc.
    + rewrite decide_False by done. by apply IH.
Qed.

Context (posting_lists : list (list Z)) (combIds : list Z) (cqty : nat).
Hypothesis Hkeys : keys_in_store posting_lists combIds cqty.
Hypothesis Hpost : postings_ok dataQty (query_lists posting_lists combIds cqty).
Hypothesis Hover : ∀ x,
  accumulated_count skip_val x (query_lists posting_lists combIds cqty) < 2 ^ 32.

(** Scan admits the positions of [data_] whose accumulated count reaches the
    threshold. *)
Lemma scan_alg_spec :
  ∃ cands,
    scan_alg posting_lists dataQty skip_val thresh combIds cqty = Ok cands
    ∧ ∀ x, x ∈ cands ↔
        0 ≤ x < Z.of_nat dataQty
        ∧ thresh ≤ accumulated_count skip_val x (query_lists posting_lists combIds cqty).
Proof.
  unfold scan_alg, scan_count.
  rewrite (foldM_query_lists posting_lists combIds cqty
             (λ post counter, foldM (λ p counter,
                do c <- at_z counter p; Ok (<[Z.to_nat p := u32 (c + skip_val)]> counter))
                post counter)) by done.
  rewrite foldM_concat.
  destruct (scan_count_postings (concat (query_lists posting_lists combIds cqty)) []
              (replicate dataQty 0)) as (counter & -> & Hlen & Hc).
  - split; [by rewrite length_replicate|]. intros i Hi. simpl.
    rewrite lookup_replicate_2 by done. f_equal. lia.
  - apply Forall_concat. eapply Forall_impl; [exact Hpost|]. by intros post [_ ?].
  - intros x. apply Hover.
  - cbn [bind]. simpl in Hc. erewrite scan_collect; [|exact Hc|].
    2:{ apply Forall_forall. intros i Hi%elem_of_seq. lia. }
    eexists; split; [done|]. intros x. simpl.
    rewrite list_elem_of_fmap. setoid_rewrite list_elem_of_filter.
    setoid_rewrite elem_of_seq. unfold accumulated_count, hits. split.
    + intros (i & -> & Hi & ?). split; [lia|done].
    + intros [Hx Ht]. exists (Z.to_nat x). rewrite Z2Nat.id by lia. split; [done|].
      split; [done|lia].
Qed.

End Scan.

(** ** The store-and-sort algorithm *)

Lemma copy_post_spec (post : list Z) (st : list Z * nat) :
  (st.2 ≤ length st.1)%nat →
  ((copy_post post st).2 ≤ length (copy_post post st).1)%nat
  ∧ (copy_post post st).2 = (st.2 + length post)%nat
  ∧ take (copy_post post st).2 (copy_post post st).1 = take st.2 st.1 ++ post.
Proof.
  destruct st as [tmpRes tmpResSize]. unfold copy_post. simpl. intros Hle.
  set (tmpRes' := if bool_decide _ then _ else _).
  assert (tmpResSize + length post ≤ length tmpRes')%nat as Hlen.
  { unfold tmpRes'. case_bool_decide; [rewrite length_resize|]; lia. }
  assert (take tmpResSize tmpRes' = take tmpResSize tmpRes) as Htake.
  { unfold tmpRes'. case_bool_decide; [|done].
    rewrite take_resize_le, resize_le by lia. done. }
  rewrite Htake. split; [|split; [done|]].
  - rewrite !length_app, length_take, length_drop. lia.
  - rewrite app_assoc. apply take_app_length'.
    rewrite length_app, length_take. lia.
Qed.

Lemma copy_posts_spec (lists : list (list Z)) (st : list Z * nat) :
  (st.2 ≤ length st.1)%nat →
  ∃ st', foldM (λ post st, Ok (copy_post post st)) lists st = Ok st'
    ∧ (st'.2 ≤ length st'.1)%nat
    ∧ take st'.2 st'.1 = take st.2 st.1 ++ concat lists.
Proof.
  revert st. induction lists as [|post lists IH]; intros st Hle; simpl.
  - exists st. by rewrite app_nil_r.
  - destruct (copy_post_spec post st Hle) as (Hle' & _ & Htake).
    destruct (IH _ Hle') as (st' & -> & Hle'' & Htake').
    exists st'. by rewrite Htake', Htake, <-app_assoc.
Qed.

Lemma StronglySorted_lookup_le (l : list Z) i j x y :
  StronglySorted Z.le l → (i ≤ j)%nat → l !! i = Some x → l !! j = Some y → x ≤ y.
Proof.
  intros Hl. revert i j. induction Hl as [|a l Hl IH Ha]; intros i j Hij Hi Hj; [done|].
  destruct i as [|i], j as [|j]; simpl in *; try lia.
  - by simplify_eq.
  - simplify_eq. rewrite Forall_lookup in Ha. by eapply Ha.
  - eapply IH; [|done..]; lia.
Qed.

Lemma count_occ_Forall_eq (l : list Z) (p : Z) :
  Forall (λ y, y = p) l → count_occ Z.eq_dec l p = length l.
Proof.
  induction 1 as [|y l -> _ IH]; [done|].
  by rewrite (count_occ_cons_eq Z.eq_dec _ (eq_refl p)), IH.
Qed.

Lemma count_occ_not_elem_of (l : list Z) (p : Z) :
  p ∉ l → count_occ Z.eq_dec l p = 0%nat.
Proof. rewrite list_elem_of_In. apply count_occ_not_In. Qed.

Lemma count_occ_elem_of (l : list Z) (p : Z) :
  p ∈ l ↔ (1 ≤ count_occ Z.eq_dec l p)%nat.
Proof. rewrite list_elem_of_In, (count_occ_In Z.eq_dec). lia. Qed.

Section StoreSort.

Context (dataQty : nat) (skip_val thresh : Z).
Context (tmpRes : list Z) (tmpResSize : nat).
Hypothesis Hsize : (tmpResSize ≤ length tmpRes)%nat.
Hypothesis Hsorted : StronglySorted Z.le (take tmpResSize tmpRes).
Hypothesis Hrange : Forall (λ p, 0 ≤ p < Z.of_nat dataQty) (take tmpResSize tmpRes).

Lemma run_end_spec (prevId : Z) (fuel next : nat) :
  (tmpResSize - next ≤ fuel)%nat →
  let r := run_end fuel tmpRes tmpResSize prevId next in
  (next ≤ r)%nat ∧ (next ≤ tmpResSize → r ≤ tmpResSize)%nat
  ∧ (∀ i, next ≤ i < r → tmpRes !! i = Some prevId)%nat
  ∧ ((r < tmpResSize)%nat → tmpRes !! r ≠ Some prevId).
Proof.
  revert next. induction fuel as [|fuel IH]; intros next Hfuel; simpl.
  - repeat split; lia.
  - case_bool_decide as Hlt; simpl; [case_bool_decide as Heq; simpl|].
    + destruct (IH (S next)) as (H1 & H2 & H3 & H4); [lia|].
      repeat split; [lia|lia| |done].
      intros i Hi. destruct (decide (i = next)) as [->|]; [done|]. apply H3. lia.
    + repeat split; [lia..|done].
    + repeat split; lia.
Qed.

(** The candidates of the walk once it has reached [start]: the ids before
    [start] whose run reaches the threshold. *)
Lemma scan_sorted_spec (fuel start : nat) (cands : list Z) :
  (tmpResSize - start ≤ fuel)%nat → (start ≤ tmpResSize)%nat →
  (∀ i j x y, (i < start ≤ j)%nat → (j < tmpResSize)%nat →
     tmpRes !! i = Some x → tmpRes !! j = Some y → x < y) →
  ∃ cands',
    scan_sorted dataQty skip_val thresh fuel tmpRes tmpResSize start cands = Ok cands'
    ∧ ∀ x, x ∈ cands' ↔
        x ∈ cands
        ∨ (x ∈ drop start (take tmpResSize tmpRes)
           ∧ thresh ≤ u32 (skip_val * Z.of_nat
                 (count_occ Z.eq_dec (take tmpResSize tmpRes) x))).
Proof.
  set (s := take tmpResSize tmpRes) in *.
  assert (length s = tmpResSize) as Hlen by (unfold s; rewrite length_take; lia).
  assert (∀ i, (i < tmpResSize)%nat → s !! i = tmpRes !! i) as Hs.
  { intros i Hi. unfold s. by rewrite lookup_take_lt. }
  revert start cands. induction fuel as [|fuel IH]; intros start cands Hfuel Hstart Hb.
  - assert (start = tmpResSize) as -> by lia. simpl.
    rewrite bool_decide_eq_false_2 by lia. exists cands. split; [done|].
    intros x. rewrite drop_ge by lia.
    split; [by left|by intros [?|[?%elem_of_nil _]]].
  - simpl. case_bool_decide as Hlt.
    2:{ exists cands. split; [done|]. intros x. rewrite drop_ge by lia.
        split; [by left|by intros [?|[?%elem_of_nil _]]]. }
    destruct (lookup_lt_is_Some_2 tmpRes start) as [p Hp]; [lia|].
    unfold at_. rewrite Hp. cbn [bind].
    destruct (run_end_spec p tmpResSize (S start)) as (Hr1 & Hr2 & Hr3 & Hr4); [lia|].
    set (r := run_end tmpResSize tmpRes tmpResSize p (S start)) in *.
    specialize (Hr2 ltac:(lia)).
    assert (∀ i, (start ≤ i < r)%nat → s !! i = Some p) as Hrun.
    { intros i Hi. rewrite Hs by lia. destruct (decide (i = start)) as [->|]; [done|].
      apply Hr3. lia. }
    assert (∀ j y, (r ≤ j)%nat → s !! j = Some y → p < y) as Hafter.
    { intros j y Hj Hy. assert (j < tmpResSize)%nat by (rewrite <-Hlen; by eapply lookup_lt_Some).
      destruct (lookup_lt_is_Some_2 s r) as [z Hz]; [lia|].
      assert (p ≤ z) by (eapply (StronglySorted_lookup_le s start r); [done|lia|by rewrite Hs|done]).
      assert (z ≤ y) by (by eapply (StronglySorted_lookup_le s r j)).
      assert (z ≠ p); [|lia]. intros ->. apply Hr4; [lia|]. by rewrite <-Hs by lia. }
    assert (count_occ Z.eq_dec s p = (r - start)%nat) as Hcount.
    { rewrite <-(take_drop start s), <-(take_drop (r - start) (drop start s)).
      rewrite !count_occ_app. rewrite (count_occ_not_elem_of (take start s)).
      2:{ intros (i & Hi & ?)%elem_of_take. rewrite Hs in Hi by lia.
          apply (Z.lt_irrefl p), (Hb i start p p); [lia|lia|done|done]. }
      rewrite (count_occ_not_elem_of (drop (r - start) (drop start s))).
      2:{ intros (j & Hj)%list_elem_of_lookup. rewrite !lookup_drop in Hj.
          apply Hafter in Hj; lia. }
      rewrite count_occ_Forall_eq.
      - rewrite length_take, length_drop. lia.
      - apply Forall_lookup. intros i y Hi. pose proof (lookup_lt_Some _ _ _ Hi) as Hi'.
        rewrite length_take in Hi'. rewrite lookup_take_lt, lookup_drop in Hi by lia.
        rewrite Hrun in Hi by lia. congruence. }
    assert (0 ≤ p < Z.of_nat dataQty) as Hp_range.
    { rewrite Forall_lookup in Hrange. apply (Hrange start). by rewrite Hs. }
    assert (∀ x, x ∈ drop start s ↔ x = p ∨ x ∈ drop r s) as Hdrop.
    { intros x. rewrite <-(take_drop (r - start) (drop start s)), drop_drop.
      replace (start + (r - start))%nat with r by lia. rewrite elem_of_app.
      apply or_iff_compat_r. split.
      - intros (i & Hi & ?)%elem_of_take. rewrite lookup_drop, Hrun in Hi by lia. congruence.
      - intros ->. apply elem_of_take. exists 0%nat. rewrite lookup_drop, Hrun by lia.
        split; [done|lia]. }
    replace (Z.of_nat r - Z.of_nat start) with (Z.of_nat (count_occ Z.eq_dec s p)) by lia.
    set (cands1 := if bool_decide (thresh ≤ u32 (skip_val * Z.of_nat (count_occ Z.eq_dec s p)))
                   then cands ++ [p] else cands).
    assert ((if bool_decide (thresh ≤ u32 (skip_val * Z.of_nat (count_occ Z.eq_dec s p)))
             then do obj <- data_start dataQty p; Ok (addToVectorWithResSize cands obj)
             else Ok cands) = Ok cands1) as ->.
    { unfold cands1, data_start. case_bool_decide; [|done].
      by rewrite bool_decide_eq_true_2 by done. }
    cbn [bind].
    destruct (IH r cands1) as (cands' & -> & Hcands'); [lia|lia| |].
    { intros i j x y Hij Hj Hx Hy.
      destruct (decide (i < start)%nat).
      - apply (Hb i j); [lia|done..].
      - rewrite <-Hs in Hx, Hy by lia.
        rewrite Hrun in Hx by lia. injection Hx as <-. apply (Hafter j); [lia|done]. }
    exists cands'. split; [done|]. intros x. rewrite Hcands', Hdrop.
    unfold cands1. case_bool_decide as Ht.
    + rewrite elem_of_app, list_elem_of_singleton.
      clear -Ht. intuition (try subst x; auto).
    + clear -Ht. intuition (try subst x; auto). done.
Qed.

End StoreSort.

Lemma count_occ_Permutation (l1 l2 : list Z) (x : Z) :
  l1 ≡ₚ l2 → count_occ Z.eq_dec l1 x = count_occ Z.eq_dec l2 x.
Proof.
  induction 1 as [|y l1 l2 _ IH|y z l|l1 l2 l3 _ IH1 _ IH2]; simpl; [done|..].
  - by rewrite IH.
  - by destruct (Z.eq_dec y x), (Z.eq_dec z x).
  - congruence.
Qed.

Section StoreSortAlg.

Context (dataQty : nat) (skip_val thresh : Z).
Context (posting_lists : list (list Z)) (combIds : list Z) (cqty : nat).
Hypothesis Hskip : 0 ≤ skip_val.
Hypothesis Hkeys : keys_in_store posting_lists combIds cqty.
Hypothesis Hpost : postings_ok dataQty (query_lists posting_lists combIds cqty).
Hypothesis Hover : ∀ x,
  accumulated_count skip_val x (query_lists posting_lists combIds cqty) < 2 ^ 32.

(** Store-and-sort admits the ids that occur in a posting list of the query
    and whose accumulated count reaches the threshold; the content of the
    scratch buffer it is lent does not matter. *)
Lemma store_sort_alg_spec (tmpRes : list Z) :
  ∃ cands,
    store_sort_alg posting_lists dataQty skip_val thresh combIds cqty tmpRes = Ok cands
    ∧ ∀ x, x ∈ cands ↔
        1 ≤ hits x (query_lists posting_lists combIds cqty)
        ∧ thresh ≤ accumulated_count skip_val x (query_lists posting_lists combIds cqty).
Proof.
  unfold store_sort_alg.
  rewrite (foldM_query_lists posting_lists combIds cqty
             (λ post st, Ok (copy_post post st))) by done.
  set (lists := query_lists posting_lists combIds cqty) in *.
  destruct (copy_posts_spec lists (tmpRes, 0%nat)) as ([buf n] & -> & Hle & Htake);
    [simpl; lia|].
  simpl in Hle, Htake. cbn [bind]. rewrite Htake.
  set (s := integer_sort (concat lists)).
  assert (s ≡ₚ concat lists) as Hperm by apply merge_sort_Permutation.
  assert (length s = n) as Hlen.
  { rewrite Hperm, <-Htake, length_take. lia. }
  assert (take n (s ++ drop n buf) = s) as Htake' by (by apply take_app_length').
  destruct (scan_sorted_spec dataQty skip_val thresh (s ++ drop n buf) n) with
    (fuel := n) (start := 0%nat) (cands := @nil Z) as (cands & -> & Hcands).
  - rewrite length_app. lia.
  - rewrite Htake'. apply StronglySorted_merge_sort; apply _.
  - rewrite Htake', Hperm. apply Forall_concat.
    eapply Forall_impl; [exact Hpost|]. by intros post [_ ?].
  - lia.
  - lia.
  - intros i j x y Hij. lia.
  - exists cands. split; [done|]. intros x. rewrite Hcands, Htake'. simpl.
    rewrite (count_occ_elem_of s x). unfold accumulated_count, hits.
    rewrite <-(count_occ_Permutation _ _ x Hperm).
    pose proof (Hover x) as Hov. unfold accumulated_count, hits in Hov.
    rewrite <-(count_occ_Permutation _ _ x Hperm) in Hov.
    rewrite u32_small by nia.
    split; [intros [?%elem_of_nil|[? ?]]; [done|]; split; [lia|done]|].
    intros [? ?]. right. split; [lia|done].
Qed.

End StoreSortAlg.

(** ** The priority-queue algorithm *)

Lemma heap_top_None (h : list (Z * nat)) : heap_top h = None → h = [].
Proof.
  destruct h as [|e h]; [done|]. simpl.
  destruct (heap_top h) as [e'|]; [|done]. by case_bool_decide.
Qed.

Lemma heap_top_Some (h : list (Z * nat)) (e : Z * nat) :
  heap_top h = Some e → e ∈ h ∧ ∀ e', e' ∈ h → e'.1 ≤ e.1.
Proof.
  revert e. induction h as [|e0 h IH]; intros e; simpl; [done|].
  destruct (heap_top h) as [e1|] eqn:E.
  - destruct (IH e1 eq_refl) as [Hin Hmax]. case_bool_decide as Hle; intros [= <-].
    + split; [left|]. intros e' [->|He']%elem_of_cons; [lia|].
      specialize (Hmax e' He'). lia.
    + split; [by right|]. intros e' [->|He']%elem_of_cons; [lia|by apply Hmax].
  - intros [= <-]. apply heap_top_None in E as ->. split; [left|].
    intros e' ->%list_elem_of_singleton. lia.
Qed.

Lemma heap_remove_Permutation (h : list (Z * nat)) (e : Z * nat) :
  e ∈ h → h ≡ₚ e :: heap_remove e h.
Proof.
  induction h as [|e0 h IH]; [by intros ?%elem_of_nil|]. simpl.
  destruct (decide (e0 = e)) as [->|Hne]; [done|].
  intros [->|He]%elem_of_cons; [done|]. rewrite (IH He) at 1. apply Permutation_swap.
Qed.

Lemma pq_pending_min (st : PQState) (key : Z) (qsi : nat) :
  pq_ok st → heap_top (postListQueue st) = Some (key, qsi) →
  - key ∈ pq_pending st ∧ ∀ y, y ∈ pq_pending st → - key ≤ y.
Proof.
  intros [_ Hok] [Hin Hmax]%heap_top_Some. split.
  - apply list_elem_of_bind. exists (key, qsi). split; [|done].
    destruct (Hok key qsi Hin) as (qs & Hqs & _ & Hpos). unfold cursor_rest. simpl.
    rewrite Hqs. apply list_elem_of_lookup. exists 0%nat.
    by rewrite lookup_drop, Nat.add_0_r.
  - intros y ([k j] & Hy & He)%list_elem_of_bind.
    destruct (Hok k j He) as (qs & Hqs & Hsorted & Hpos).
    unfold cursor_rest in Hy. simpl in Hy. rewrite Hqs in Hy.
    apply list_elem_of_lookup in Hy as [i Hi]. rewrite lookup_drop in Hi.
    assert (- k ≤ y).
    { eapply (StronglySorted_lookup_le (post_ qs) (post_pos_ qs) (post_pos_ qs + i));
        [done|lia|done..]. }
    specialize (Hmax (k, j) He). simpl in Hmax. lia.
Qed.

(** One turn of the inner loop: the top cursor moves one posting on. *)
Lemma pq_step (st : PQState) (key : Z) (qsi : nat) (accum' : Z) :
  pq_ok st → heap_top (postListQueue st) = Some (key, qsi) →
  ∃ pl pos queue,
    queryStates st !! qsi = Some (mkQueryState pl pos)
    ∧ (if bool_decide (S pos < length pl)%nat
       then do next <- at_ pl (S pos);
            Ok (heap_replace_top_key (- next) (postListQueue st))
       else Ok (heap_pop (postListQueue st))) = Ok queue
    ∧ pq_ok (mkPQ queue (<[qsi := mkQueryState pl (S pos)]> (queryStates st)) accum')
    ∧ pq_pending st
      ≡ₚ (- key) :: pq_pending
           (mkPQ queue (<[qsi := mkQueryState pl (S pos)]> (queryStates st)) accum').
Proof.
  destruct st as [q qs a]. simpl. intros [Hnd Hok] Htop.
  pose proof (heap_top_Some _ _ Htop) as [Hin _].
  destruct (Hok key qsi Hin) as ([pl pos] & Hqs & Hsorted & Hpos). simpl in *.
  exists pl, pos.
  set (rest := heap_remove (key, qsi) q).
  assert (q ≡ₚ (key, qsi) :: rest) as Hperm by by apply heap_remove_Permutation.
  assert ((qsi ∉ rest.*2) ∧ NoDup rest.*2) as [Hfresh Hnd'].
  { rewrite Hperm in Hnd. simpl in Hnd. by apply NoDup_cons in Hnd. }
  set (qs' := <[qsi := mkQueryState pl (S pos)]> qs).
  assert (qs' !! qsi = Some (mkQueryState pl (S pos))) as Hqs'.
  { apply list_lookup_insert_eq. by eapply lookup_lt_Some. }
  assert (∀ e, e ∈ rest → qs' !! e.2 = qs !! e.2) as Hother.
  { intros e He. apply list_lookup_insert_ne. intros ->. apply Hfresh.
    apply list_elem_of_fmap. by exists e. }
  assert (rest ≫= cursor_rest qs' = rest ≫= cursor_rest qs) as Hrest.
  { apply Forall_bind_ext, Forall_forall. intros e He. unfold cursor_rest.
    by rewrite Hother. }
  assert (∀ k j, (k, j) ∈ rest →
            ∃ s, qs' !! j = Some s ∧ StronglySorted Z.le (post_ s)
              ∧ post_ s !! post_pos_ s = Some (- k)) as Hok_rest.
  { intros k j He. pose proof (Hother (k, j) He) as Hj. simpl in Hj. rewrite Hj.
    apply Hok. rewrite Hperm. by right. }
  assert (pq_pending (mkPQ q qs a) ≡ₚ (- key) :: drop (S pos) pl ++ (rest ≫= cursor_rest qs))
    as Hpending.
  { unfold pq_pending. cbn [postListQueue queryStates].
    rewrite Hperm, bind_cons. unfold cursor_rest at 1. cbn [snd].
    rewrite Hqs. cbn [post_ post_pos_]. by rewrite (drop_S _ _ _ Hpos). }
  case_bool_decide as Hlt.
  - destruct (lookup_lt_is_Some_2 pl (S pos) Hlt) as [next Hnext].
    unfold at_. rewrite Hnext. cbn [bind]. eexists. split; [done|]. split; [done|].
    unfold heap_replace_top_key. rewrite Htop. simpl. fold rest.
    unfold pq_ok. simpl. split; [split|].
    + by apply NoDup_cons.
    + intros k j [[= -> ->]|He]%elem_of_cons; [|by apply Hok_rest].
      exists (mkQueryState pl (S pos)). rewrite Z.opp_involutive. by fold qs'.
    + rewrite Hpending. unfold pq_pending. cbn [postListQueue queryStates].
      rewrite bind_cons. fold qs'. rewrite Hrest.
      unfold cursor_rest at 2. cbn [snd]. rewrite Hqs'. done.
  - eexists. split; [done|]. split; [done|]. unfold heap_pop. rewrite Htop. fold rest.
    unfold pq_ok. simpl. split; [split|].
    + done.
    + by fold qs'.
    + rewrite Hpending. unfold pq_pending. cbn [postListQueue queryStates].
      fold qs'. rewrite Hrest. by rewrite drop_ge by lia.
Qed.

Section PriorQueue.

Context (dataQty : nat) (skip_val thresh : Z).
Hypothesis Hskip : 0 ≤ skip_val.

(** The inner loop passes every pending posting of the document [x], the
    smallest pending id, and adds [skip_val] for each. *)
Lemma pq_accumulate_spec (fuel : nat) (x : Z) (st : PQState) :
  pq_ok st →
  (∀ y, y ∈ pq_pending st → x ≤ y) →
  (count_occ Z.eq_dec (pq_pending st) x ≤ fuel)%nat →
  0 ≤ accum st →
  accum st + skip_val * Z.of_nat (count_occ Z.eq_dec (pq_pending st) x) < 2 ^ 32 →
  ∃ st',
    pq_accumulate skip_val fuel (- x) st = Ok st'
    ∧ pq_ok st'
    ∧ pq_pending st
      ≡ₚ replicate (count_occ Z.eq_dec (pq_pending st) x) x ++ pq_pending st'
    ∧ (x ∉ pq_pending st')
    ∧ accum st' = accum st + skip_val * Z.of_nat (count_occ Z.eq_dec (pq_pending st) x).
Proof.
  revert st. induction fuel as [|fuel IH]; intros st Hok Hmin Hfuel Hacc Hover.
  - assert (count_occ Z.eq_dec (pq_pending st) x = 0%nat) as Hc by lia.
    assert (x ∉ pq_pending st) as Hx by (rewrite count_occ_elem_of; lia).
    exists st. rewrite Hc. simpl.
    destruct (heap_top (postListQueue st)) as [[key qsi]|] eqn:Htop.
    + destruct (pq_pending_min st key qsi Hok Htop) as [Hin _].
      rewrite decide_False by (intros ->; by rewrite Z.opp_involutive in Hin).
      split_and!; [done..|lia].
    + split_and!; [done..|lia].
  - simpl. destruct (heap_top (postListQueue st)) as [[key qsi]|] eqn:Htop.
    2:{ apply heap_top_None in Htop. exists st.
        assert (pq_pending st = []) as Hnil by (unfold pq_pending; by rewrite Htop).
        rewrite Hnil. simpl. split_and!; [done|done|done|by intros ?%elem_of_nil|lia]. }
    destruct (pq_pending_min st key qsi Hok Htop) as [Hin Hkey].
    destruct (decide (key = - x)) as [->|Hne].
    2:{ assert (x ∉ pq_pending st) as Hx.
        { intros Hx. specialize (Hkey x Hx). specialize (Hmin _ Hin). lia. }
        assert (count_occ Z.eq_dec (pq_pending st) x = 0%nat) as Hc
          by by apply count_occ_not_elem_of.
        exists st. rewrite Hc. simpl. split_and!; [done..|lia]. }
    rewrite Z.opp_involutive in Hin.
    destruct (pq_step st (- x) qsi (u32 (accum st + skip_val)) Hok Htop)
      as (pl & pos & queue & Hqs & Hqueue & Hok' & Hperm).
    rewrite Z.opp_involutive in Hperm.
    unfold at_ at 1. rewrite Hqs. cbn [bind post_ post_pos_]. rewrite Hqueue. cbn [bind].
    set (st1 := mkPQ queue _ _) in *.
    assert (count_occ Z.eq_dec (pq_pending st) x
            = S (count_occ Z.eq_dec (pq_pending st1) x)) as Hc.
    { rewrite (count_occ_Permutation _ _ x Hperm).
      by rewrite (count_occ_cons_eq Z.eq_dec _ (eq_refl x)). }
    rewrite Hc in *.
    assert (accum st1 = accum st + skip_val) as Hacc1.
    { unfold st1. simpl. apply u32_small. nia. }
    destruct (IH st1) as (st' & -> & Hok'' & Hperm' & Hx' & Hacc'); [done| |lia|lia|nia|].
    { intros y Hy. apply Hmin. rewrite Hperm. by right. }
    exists st'. split_and!; [done|done| |done|lia].
    rewrite Hperm, Hperm' at 1. done.
Qed.

(** The outer loop admits the pending ids whose count reaches the
    threshold. *)
Lemma pq_merge_spec (fuel : nat) (st : PQState) (cands : list Z) :
  pq_ok st → accum st = 0 →
  (length (pq_pending st) ≤ fuel)%nat →
  (∀ y, skip_val * Z.of_nat (count_occ Z.eq_dec (pq_pending st) y) < 2 ^ 32) →
  Forall (λ p, 0 ≤ p < Z.of_nat dataQty) (pq_pending st) →
  ∃ cands',
    pq_merge dataQty skip_val thresh fuel st cands = Ok cands'
    ∧ ∀ y, y ∈ cands' ↔
        y ∈ cands
        ∨ (y ∈ pq_pending st
           ∧ thresh ≤ skip_val * Z.of_nat (count_occ Z.eq_dec (pq_pending st) y)).
Proof.
  revert st cands. induction fuel as [|fuel IH]; intros st cands Hok Hacc Hfuel Hover Hrange.
  - destruct (pq_pending st) eqn:Hnil; [|simpl in Hfuel; lia].
    destruct (heap_top (postListQueue st)) as [[key qsi]|] eqn:Htop.
    { destruct (pq_pending_min st key qsi Hok Htop) as [Hin _].
      rewrite Hnil in Hin. by apply elem_of_nil in Hin. }
    simpl. rewrite Htop. exists cands. split; [done|].
    intros y. split; [by left|by intros [?|[?%elem_of_nil _]]].
  - cbn [pq_merge]. destruct (heap_top (postListQueue st)) as [[key qsi]|] eqn:Htop.
    2:{ apply heap_top_None in Htop. exists cands. split; [done|].
        assert (pq_pending st = []) as -> by (unfold pq_pending; by rewrite Htop).
        intros y. split; [by left|by intros [?|[?%elem_of_nil _]]]. }
    destruct (pq_pending_min st key qsi Hok Htop) as [Hin Hkey].
    set (x := - key) in *. replace key with (- x) by (unfold x; lia).
    set (c := count_occ Z.eq_dec (pq_pending st) x).
    assert (1 ≤ c)%nat as Hc by by apply count_occ_elem_of.
    assert (c ≤ length (pq_pending st))%nat as Hc' by apply count_occ_bound.
    destruct (pq_accumulate_spec (S fuel) x st)
      as (st' & -> & Hok' & Hperm & Hx' & Hacc'); [done|done|lia|lia| |].
    { rewrite Hacc. apply Hover. }
    fold c in Hperm, Hacc'. cbn [bind]. rewrite Hacc, Z.add_0_l in Hacc'.
    assert (0 ≤ x < Z.of_nat dataQty) as Hx_range.
    { rewrite Forall_forall in Hrange. by apply Hrange. }
    set (cands1 := if bool_decide (thresh ≤ accum st') then cands ++ [x] else cands).
    assert ((if bool_decide (thresh ≤ accum st')
             then do obj <- data_start dataQty x; Ok (addToVectorWithResSize cands obj)
             else Ok cands) = Ok cands1) as ->.
    { unfold cands1, data_start. case_bool_decide; [|done].
      by rewrite bool_decide_eq_true_2 by done. }
    cbn [bind].
    assert (∀ y, y ≠ x → count_occ Z.eq_dec (pq_pending st) y
                          = count_occ Z.eq_dec (pq_pending st') y) as Hother.
    { intros y Hy. rewrite (count_occ_Permutation _ _ y Hperm), count_occ_app.
      rewrite (count_occ_not_elem_of (replicate c x)); [done|].
      by intros [-> _]%elem_of_replicate. }
    set (st1 := mkPQ (postListQueue st') (queryStates st') 0).
    assert (pq_pending st1 = pq_pending st') as Hpend by done.
    destruct (IH st1 cands1) as (cands' & -> & Hcands'); [done|done| | | |].
    { rewrite Hpend. rewrite Hperm, length_app, length_replicate in Hfuel. lia. }
    { intros y. rewrite Hpend. destruct (decide (y = x)) as [->|Hy].
      - rewrite count_occ_not_elem_of by done. lia.
      - rewrite <-Hother by done. apply Hover. }
    { rewrite Hpend. rewrite Hperm in Hrange. by apply Forall_app in Hrange as [_ ?]. }
    exists cands'. split; [done|]. intros y. rewrite Hcands', Hpend.
    destruct (decide (y = x)) as [->|Hy].
    + fold c. rewrite <-Hacc'. unfold cands1. case_bool_decide.
      * rewrite elem_of_app, list_elem_of_singleton. tauto.
      * tauto.
    + rewrite <-Hother by done.
      assert (y ∈ pq_pending st ↔ y ∈ pq_pending st') as ->.
      { rewrite !count_occ_elem_of. by rewrite Hother. }
      unfold cands1. case_bool_decide; [|done].
      rewrite elem_of_app, list_elem_of_singleton. tauto.
Qed.

End PriorQueue.

(** The queue after the cursors have been opened: one cursor at the start of
    every non-empty posting list of the query. *)
Lemma pq_init_spec (lists : list (list Z)) (st : PQState) :
  Forall (λ post, Sorted Z.le post) lists →
  pq_ok st →
  (∀ e, e ∈ postListQueue st → e.2 < length (queryStates st))%nat →
  ∃ st',
    foldM (λ post st,
        match post with
        | [] => Ok st
        | post0 :: _ =>
            Ok (mkPQ (heap_push (- post0) (length (queryStates st)) (postListQueue st))
                  (queryStates st ++ [mkQueryState post 0])
                  (accum st))
        end) lists st = Ok st'
    ∧ pq_ok st'
    ∧ accum st' = accum st
    ∧ pq_pending st' ≡ₚ pq_pending st ++ concat lists
    ∧ pq_remaining st' = (pq_remaining st + length (concat lists))%nat.
Proof.
  revert st. induction lists as [|post lists IH]; intros st Hsorted Hok Hlt.
  - exists st. simpl. rewrite app_nil_r. split_and!; [done..|lia].
  - apply Forall_cons in Hsorted as [Hpost Hsorted]. simpl.
    destruct post as [|post0 post]; cbn [bind].
    { destruct (IH st) as (st' & -> & ? & ? & ? & ?); [done..|]. by exists st'. }
    destruct st as [q qs a]. cbn [postListQueue queryStates accum] in *.
    set (st1 := mkPQ _ _ _).
    assert (∀ e, e ∈ q → (qs ++ [mkQueryState (post0 :: post) 0]) !! e.2 = qs !! e.2)
      as Hold.
    { intros e He. apply lookup_app_l. by apply Hlt. }
    assert (pq_pending st1 = (post0 :: post) ++ pq_pending (mkPQ q qs a)) as Hpend.
    { unfold pq_pending, st1, heap_push. cbn [postListQueue queryStates].
      rewrite bind_cons. f_equal.
      - unfold cursor_rest. cbn [snd]. by rewrite list_lookup_middle.
      - apply Forall_bind_ext, Forall_forall. intros e He. unfold cursor_rest.
        by rewrite Hold. }
    destruct (IH st1) as (st' & -> & Hok' & Hacc' & Hpend' & Hrem'); [done| | |].
    { destruct Hok as [Hnd Hok]. split; cbn [postListQueue queryStates st1 heap_push].
      - apply NoDup_cons. split; [|done]. cbn [snd].
        intros (e & He2 & He)%list_elem_of_fmap. specialize (Hlt e He). lia.
      - intros key qsi [[= -> ->]|He]%elem_of_cons.
        + exists (mkQueryState (post0 :: post) 0). rewrite list_lookup_middle by done.
          rewrite Z.opp_involutive. split_and!; [done| |done].
          apply Sorted_StronglySorted; [apply _|done].
        + pose proof (Hold (key, qsi) He) as Hq. cbn [snd] in Hq. rewrite Hq.
          by apply Hok. }
    { cbn [postListQueue queryStates st1 heap_push]. rewrite length_app. simpl.
      intros e [->|He]%elem_of_cons; [simpl; lia|]. specialize (Hlt e He). lia. }
    exists st'. split_and!; [done|done|done| |].
    + rewrite Hpend', Hpend.
      change (concat ((post0 :: post) :: lists)) with ((post0 :: post) ++ concat lists).
      rewrite !app_assoc. apply Permutation_app_tail, Permutation_app_comm.
    + rewrite Hrem'. unfold pq_remaining, st1. cbn [queryStates].
      rewrite fmap_app, sum_list_with_app, length_app. simpl. lia.
Qed.

Section PriorQueueAlg.

Context (dataQty : nat) (skip_val thresh : Z).
Context (posting_lists : list (list Z)) (combIds : list Z) (cqty : nat).
Hypothesis Hskip : 0 ≤ skip_val.
Hypothesis Hkeys : keys_in_store posting_lists combIds cqty.
Hypothesis Hpost : postings_ok dataQty (query_lists posting_lists combIds cqty).
Hypothesis Hover : ∀ x,
  accumulated_count skip_val x (query_lists posting_lists combIds cqty) < 2 ^ 32.

(** The priority queue admits the ids that occur in a posting list of the
    query and whose accumulated count reaches the threshold. *)
Lemma prior_queue_alg_spec :
  ∃ cands,
    prior_queue_alg posting_lists dataQty skip_val thresh combIds cqty = Ok cands
    ∧ ∀ x, x ∈ cands ↔
        1 ≤ hits x (query_lists posting_lists combIds cqty)
        ∧ thresh ≤ accumulated_count skip_val x (query_lists posting_lists combIds cqty).
Proof.
  unfold prior_queue_alg, pq_init.
  rewrite (foldM_query_lists posting_lists combIds cqty
             (λ post st,
                match post with
                | [] => Ok st
                | post0 :: _ =>
                    Ok (mkPQ (heap_push (- post0) (length (queryStates st))
                                (postListQueue st))
                          (queryStates st ++ [mkQueryState post 0]) (accum st))
                end)) by done.
  set (lists := query_lists posting_lists combIds cqty) in *.
  destruct (pq_init_spec lists (mkPQ [] [] 0))
    as (st & -> & Hok & Hacc & Hpend & Hrem).
  - eapply Forall_impl; [exact Hpost|]. by intros post [? _].
  - split; [constructor|]. by intros key qsi ?%elem_of_nil.
  - by intros e ?%elem_of_nil.
  - simpl in Hacc, Hpend, Hrem. cbn [bind].
    destruct (pq_merge_spec dataQty skip_val thresh Hskip (pq_remaining st) st [])
      as (cands & -> & Hcands); [done|done|by rewrite Hpend, Hrem| | |].
    { intros y. rewrite (count_occ_Permutation _ _ y Hpend). apply Hover. }
    { rewrite Hpend. apply Forall_concat.
      eapply Forall_impl; [exact Hpost|]. by intros post [_ ?]. }
    exists cands. split; [done|]. intros x. rewrite Hcands.
    rewrite (count_occ_elem_of (pq_pending st) x).
    rewrite (count_occ_Permutation _ _ x Hpend). unfold accumulated_count, hits.
    split; [intros [?%elem_of_nil|[? ?]]; [done|]; split; [lia|done]|].
    intros [? ?]. right. split; [lia|done].
Qed.

End PriorQueueAlg.

(** ** The query executor *)

Lemma usize_small (x : Z) : 0 ≤ x < 2 ^ 64 → usize x = x.
Proof. intros. unfold usize, wrap. by apply Z.mod_small. Qed.

(** The threshold the code computes in [size_t] is section 4.7's. *)
Lemma scaled_thresh_formula (k min_times num_prefix : Z) :
  k = 1 ∨ k = 2 ∨ k = 3 →
  0 ≤ min_times → 1 ≤ num_prefix < 2 ^ 64 →
  min_times * num_prefix * num_prefix < 2 ^ 64 →
  scaled_thresh k min_times num_prefix = thresh_formula k min_times num_prefix.
Proof.
  intros Hk Hmt Hnp Hbound. unfold scaled_thresh, thresh_formula.
  assert (0 ≤ min_times * (num_prefix - 1) ≤ min_times * num_prefix * num_prefix)
    as Hm1 by nia.
  rewrite (usize_small (num_prefix - 1)) by nia.
  rewrite (usize_small (min_times * (num_prefix - 1))) by lia.
  destruct Hk as [-> | [-> | ->]]; simpl; [done..|].
  destruct (decide (num_prefix = 1)) as [->|].
  - by rewrite !Z.mul_0_r.
  - assert (0 ≤ min_times * (num_prefix - 1) * (num_prefix - 2)
            ≤ min_times * num_prefix * num_prefix) as Hm2 by nia.
    rewrite (usize_small (num_prefix - 2)) by nia. by rewrite usize_small by lia.
Qed.

Lemma genPivotCombIds_Ok_qty T3 k skip_val ids perm P r :
  genPivotCombIds T3 k skip_val ids perm P = Ok r → k = 1 ∨ k = 2 ∨ k = 3.
Proof.
  unfold genPivotCombIds. intros (? & _ & H)%bind_Ok.
  destruct (decide (k = 1)); [by left|]. destruct (decide (k = 2)); [by right; left|].
  apply bind_Ok in H as (? & Hk & _). unfold CHECK in Hk.
  case_bool_decide; [by right; right|done].
Qed.

Lemma hits_elem_of (x : Z) (lists : list (list Z)) :
  1 ≤ hits x lists ↔ x ∈ concat lists.
Proof. unfold hits. rewrite count_occ_elem_of. lia. Qed.

Lemma accumulated_count_bound (skip_val x : Z) (lists : list (list Z)) :
  0 ≤ skip_val →
  accumulated_count skip_val x lists ≤ skip_val * Z.of_nat (length (concat lists)).
Proof.
  intros Hskip. unfold accumulated_count, hits.
  pose proof (count_occ_bound Z.eq_dec x (concat lists)). nia.
Qed.

(** What [GenSearch] returns under each algorithm but the pairwise merge. *)
Lemma GenSearch_spec (T3 : Z → Z → Z → Z) (idx : Index) (perm_q : list Z)
    (combIds : list Z) (cqty : nat) :
  let b := bparams idx in
  let q := qparams idx in
  let lists := query_lists (posting_lists_ (store idx)) combIds cqty in
  genPivotCombIds T3 (pivot_comb_qty_ b) (skip_val_ b)
    (replicate (Z.to_nat (maxPostQty_ b)) 0) perm_q (Z.to_nat (num_prefix_search_ q))
  = Ok (combIds, cqty) →
  1 ≤ num_prefix_search_ q →
  0 ≤ skip_val_ b →
  keys_in_store (posting_lists_ (store idx)) combIds cqty →
  postings_ok (data_qty idx) lists →
  (∀ x, accumulated_count (skip_val_ b) x lists < 2 ^ 32) →
  inv_proc_alg_ q ≠ kMerge →
  ∃ cands,
    GenSearch T3 idx perm_q = Ok (cands, if skip_checking_ q then [] else cands)
    ∧ ∀ x, x ∈ cands ↔
        (if inv_proc_alg_ q is kScan then 0 ≤ x < Z.of_nat (data_qty idx)
         else 1 ≤ hits x lists)
        ∧ scaled_thresh (pivot_comb_qty_ b) (min_times_ q) (num_prefix_ b)
          ≤ accumulated_count (skip_val_ b) x lists.
Proof.
  intros b q lists Hgen Hnps Hskip Hkeys Hpost Hover Halg.
  unfold GenSearch. fold b q. rewrite Hgen. cbn [bind].
  unfold CHECK. rewrite bool_decide_eq_true_2 by done.
  set (thresh := scaled_thresh _ _ _).
  destruct (inv_proc_alg_ q) eqn:Ealg; [|done| |]; cbn [bind].
  - destruct (scan_alg_spec (data_qty idx) (skip_val_ b) thresh Hskip
                (posting_lists_ (store idx)) combIds cqty Hkeys Hpost Hover)
      as (cands & -> & Hcands).
    by exists cands.
  - destruct (prior_queue_alg_spec (data_qty idx) (skip_val_ b) thresh
                (posting_lists_ (store idx)) combIds cqty Hskip Hkeys Hpost Hover)
      as (cands & -> & Hcands).
    by exists cands.
  - destruct (store_sort_alg_spec (data_qty idx) (skip_val_ b) thresh
                (posting_lists_ (store idx)) combIds cqty Hskip Hkeys Hpost Hover
                (replicate (Z.to_nat (2 * exp_post_per_query_qty_ b)) 0))
      as (cands & -> & Hcands).
    by exists cands.
Qed.

(** On an index whose posting lists ascend and hold positions of [data_],
    with counts that fit 32 bits and a threshold that does not wrap: scan
    admits a position of [data_] if and only if its accumulated count is at
    least the threshold the code computes; store-and-sort and the priority
    queue admit an id if and only if it occurs in a posting list of the query
    and its accumulated count is at least that threshold, which is min_times
    for k = 1 and the truncated quotients min_times·(num_prefix − 1)/2 for
    k = 2 and min_times·(num_prefix − 1)·(num_prefix − 2)/6 for k = 3. *)
Theorem GenSearch_admits_by_threshold (T3 : Z → Z → Z → Z) (idx : Index)
    (perm_q : list Z) (combIds : list Z) (cqty : nat) :
  let b := bparams idx in
  let q := qparams idx in
  let lists := query_lists (posting_lists_ (store idx)) combIds cqty in
  let thresh := thresh_formula (pivot_comb_qty_ b) (min_times_ q) (num_prefix_ b) in
  genPivotCombIds T3 (pivot_comb_qty_ b) (skip_val_ b)
    (replicate (Z.to_nat (maxPostQty_ b)) 0) perm_q (Z.to_nat (num_prefix_search_ q))
  = Ok (combIds, cqty) →
  1 ≤ num_prefix_search_ q →
  0 ≤ min_times_ q → 1 ≤ num_prefix_ b < 2 ^ 64 →
  min_times_ q * num_prefix_ b * num_prefix_ b < 2 ^ 64 →
  0 ≤ skip_val_ b →
  keys_in_store (posting_lists_ (store idx)) combIds cqty →
  postings_ok (data_qty idx) lists →
  (∀ x, accumulated_count (skip_val_ b) x lists < 2 ^ 32) →
  inv_proc_alg_ q ≠ kMerge →
  ∃ cands,
    GenSearch T3 idx perm_q = Ok (cands, if skip_checking_ q then [] else cands)
    ∧ ∀ x, x ∈ cands ↔
        (if inv_proc_alg_ q is kScan then 0 ≤ x < Z.of_nat (data_qty idx)
         else 1 ≤ hits x lists)
        ∧ thresh ≤ accumulated_count (skip_val_ b) x lists.
Proof.
  intros b q lists thresh Hgen Hnps Hmt Hnp Hbound Hskip Hkeys Hpost Hover Halg.
  unfold thresh. rewrite <-scaled_thresh_formula; [|by eapply genPivotCombIds_Ok_qty|done..].
  by apply GenSearch_spec.
Qed.

Lemma GenSearch_admits_by_threshold_witness :
  let idx :=
    mkIndex 5 (mkBuildParams 4 3 1 false 0 "" 1 2 false 6 2 6)
      (mkQueryParams false kPriorQueue 2 3)
      (mkStore [[0; 3; 4]; [0; 3]; [0; 1; 2; 3]; [4]; [1; 2; 4]; [1; 2]]
         [[[]; []; []; []; []; []]] [0]) in
  let lists := [[0; 3; 4]; [0; 3]; [0; 1; 2; 3]] in
  ∃ cands,
    GenSearch (λ _ _ _, 0) idx [0; 1; 2; 3] = Ok (cands, cands)
    ∧ ∀ x, x ∈ cands ↔ 1 ≤ hits x lists ∧ 2 * (3 - 1) / 2 ≤ accumulated_count 1 x lists.
Proof.
  cbv zeta.
  apply (GenSearch_admits_by_threshold (λ _ _ _, 0)
    (mkIndex 5 (mkBuildParams 4 3 1 false 0 "" 1 2 false 6 2 6)
      (mkQueryParams false kPriorQueue 2 3)
      (mkStore [[0; 3; 4]; [0; 3]; [0; 1; 2; 3]; [4]; [1; 2; 4]; [1; 2]]
         [[[]; []; []; []; []; []]] [0]))
    [0; 1; 2; 3] [0; 1; 2; 0; 0; 0] 3).
  - vm_compute. reflexivity.
  - simpl. lia.
  - simpl. lia.
  - simpl. lia.
  - simpl. lia.
  - simpl. lia.
  - split; [simpl; lia|]. repeat constructor; simpl; lia.
  - repeat (constructor; try lia).
  - intros x. eapply Z.le_lt_trans; [apply accumulated_count_bound; simpl; lia|].
    vm_compute. reflexivity.
  - discriminate.
Defined.

(** With a threshold of at least 1, reaching it takes a hit. *)
Lemma admitted_has_hit (dataQty : nat) (skip_val thresh x : Z) (lists : list (list Z)) :
  0 ≤ skip_val → 1 ≤ thresh → postings_ok dataQty lists →
  (0 ≤ x < Z.of_nat dataQty ∧ thresh ≤ accumulated_count skip_val x lists)
  ↔ (1 ≤ hits x lists ∧ thresh ≤ accumulated_count skip_val x lists).
Proof.
  intros Hskip Hthresh Hpost. unfold accumulated_count. split; intros [H1 H2].
  - split; [|done]. unfold hits in *. nia.
  - split; [|done]. apply hits_elem_of in H1.
    apply list_elem_of_In, in_concat in H1 as (post & Hpost' & Hx).
    unfold postings_ok in Hpost. rewrite Forall_forall in Hpost.
    destruct (Hpost post) as [_ Hrange].
    { by apply list_elem_of_In. }
    rewrite Forall_forall in Hrange. by apply Hrange, list_elem_of_In.
Qed.

(** ** The scenario of section 8 with num_prefix = 2 *)

(** C3. Six objects at the positions 0, 1, 2, 10, 11, 12, the pivots at 0, 6
    and 12, pairs, skip_val = 1, num_prefix = 2, min_times = 1, built on one
    worker; the query lies at position 1. The objects 0, 1, 2 share the
    query's one pair, the objects 3, 4, 5 share none. Store-and-sort and
    the priority queue return 0, 1, 2; scan returns all six objects, and the
    pairwise merge returns none: the four algorithms do not return the same
    candidate set. *)
Theorem GenSearch_algorithms_disagree (T3 : Z → Z → Z → Z) :
  let pivots := [0; 6; 12] in
  let permutation_of pos :=
    GetPermutationPPIndexEfficiently Z.lt id 3 ((λ piv, Z.abs (pos - piv)) <$> pivots) in
  let data_perm := [[0; 1; 2]; [0; 1; 2]; [0; 1; 2]; [2; 1; 0]; [2; 1; 0]; [2; 1; 0]] in
  let perm_q := [0; 1; 2] in
  let built :=
    CreateIndex T3 8 data_perm
      [("numPivot", PNum 3); ("numPrefix", PNum 2); ("pivotFile", PStr "pivots.txt");
       ("indexThreadQty", PNum 1)]
      [(0, 0); (1, 0); (2, 0); (3, 0); (4, 0); (5, 0)]%nat
      [(0, 0); (1, 0); (2, 0)]%nat in
  let search alg :=
    do idx <- built;
    do idx <- Index_SetQueryTimeParams idx
                [("numPivotSearch", PNum 1); ("invProcAlg", PStr alg)];
    GenSearch T3 idx perm_q in
  Forall2 (λ pos perm, permutation_of pos = Ok perm) [0; 1; 2; 10; 11; 12] data_perm
  ∧ permutation_of 1 = Ok perm_q
  ∧ (do idx <- built; Ok (posting_lists_ (store idx))) = Ok [[0; 1; 2]; []; [3; 4; 5]]
  ∧ search PERM_PROC_STORE_SORT = Ok ([0; 1; 2], [0; 1; 2])
  ∧ search PERM_PROC_PRIOR_QUEUE = Ok ([0; 1; 2], [0; 1; 2])
  ∧ search PERM_PROC_FAST_SCAN = Ok ([0; 1; 2; 3; 4; 5], [0; 1; 2; 3; 4; 5])
  ∧ search PERM_PROC_MERGE = Ok ([], [])
  ∧ ¬ (∀ x : Z, x ∈ [0; 1; 2; 3; 4; 5] ↔ x ∈ [0; 1; 2]).
Proof.
  cbv zeta. split_and!; [|vm_compute; reflexivity..|].
  - repeat (constructor; [vm_compute; reflexivity|]). constructor.
  - intros H. specialize (H 3). destruct H as [H _].
    specialize (H ltac:(do 3 right; left)).
    repeat (apply elem_of_cons in H as [H|H]; [discriminate|]).
    by apply elem_of_nil in H.
Qed.

(** C4. In the same scenario the query's one key has the posting list
    0, 1, 2, so the objects 3, 4 and 5 have the accumulated count 0, below
    thresh = 1·(2 − 1)/2. Store-and-sort admits exactly the objects whose
    count reaches thresh. Scan admits the objects 3, 4 and 5 as well: the
    code has truncated the quotient to 0 and compares the counts of all the
    objects with it. *)
Theorem GenSearch_scan_admits_below_thresh (T3 : Z → Z → Z → Z) :
  let data_perm := [[0; 1; 2]; [0; 1; 2]; [0; 1; 2]; [2; 1; 0]; [2; 1; 0]; [2; 1; 0]] in
  let perm_q := [0; 1; 2] in
  let built :=
    CreateIndex T3 8 data_perm
      [("numPivot", PNum 3); ("numPrefix", PNum 2); ("pivotFile", PStr "pivots.txt");
       ("indexThreadQty", PNum 1)]
      [(0, 0); (1, 0); (2, 0); (3, 0); (4, 0); (5, 0)]%nat
      [(0, 0); (1, 0); (2, 0)]%nat in
  let search alg :=
    do idx <- built;
    do idx <- Index_SetQueryTimeParams idx
                [("numPivotSearch", PNum 1); ("invProcAlg", PStr alg)];
    GenSearch T3 idx perm_q in
  let lists := [[0; 1; 2]] in
  let count x := accumulated_count 1 x lists in
  (do idx <- built;
   do '(combIds, cqty) <- genPivotCombIds T3 2 1 (replicate 3 0) perm_q 2;
   Ok (query_lists (posting_lists_ (store idx)) combIds cqty)) = Ok lists
  ∧ search PERM_PROC_STORE_SORT = Ok ([0; 1; 2], [0; 1; 2])
  ∧ (∀ x, x ∈ [0; 1; 2] ↔ reaches_thresh 2 1 2 (count x))
  ∧ search PERM_PROC_FAST_SCAN = Ok ([0; 1; 2; 3; 4; 5], [0; 1; 2; 3; 4; 5])
  ∧ scaled_thresh 2 1 2 = 0
  ∧ count 3 = 0
  ∧ ¬ reaches_thresh 2 1 2 (count 3)
  ∧ ¬ (∀ x, x ∈ [0; 1; 2; 3; 4; 5] ↔ reaches_thresh 2 1 2 (count x)).
Proof.
  cbv zeta.
  assert (∀ x, x ∈ [0; 1; 2] ↔ reaches_thresh 2 1 2 (accumulated_count 1 x [[0; 1; 2]]))
    as Hsort.
  { intros x. rewrite !elem_of_cons, elem_of_nil.
    unfold reaches_thresh, accumulated_count, hits.
    rewrite (decide_False (P := 2 = 1)), (decide_True (P := 2 = 2)) by done.
    cbn [concat app count_occ].
    destruct (Z.eq_dec 0 x), (Z.eq_dec 1 x), (Z.eq_dec 2 x); lia. }
  split_and!; [vm_compute; reflexivity|vm_compute; reflexivity|exact Hsort| | | | |].
  - vm_compute. reflexivity.
  - vm_compute. reflexivity.
  - vm_compute. reflexivity.
  - intros H. vm_compute in H. by apply H.
  - intros H. specialize (H 3). destruct H as [H _].
    specialize (H ltac:(do 3 right; left)). vm_compute in H. by apply H.
Qed.

(** The pairwise merge. With [postListUnion] writing into its third
    argument, the loop leaves the running union in [tmpRes[prevRes]] and the
    candidates are read from [tmpRes[1 - prevRes]], the union before the last
    posting list was merged: here with the lists [0,3,4], [0,3] and [0,1,2,3]
    and the threshold 1. *)
Example merge_alg_reads_previous_union :
  let posting_lists := [[0; 3; 4]; [0; 3]; [0; 1; 2; 3]] in
  merge_lists posting_lists 1 [0; 1; 2] 3
  = Ok ([[(0, 2); (3, 2); (4, 1)]; [(0, 3); (1, 1); (2, 1); (3, 3); (4, 1)]], 1%nat)
  ∧ merge_alg posting_lists 5 1 1 [0; 1; 2] 3 = Ok [0; 3; 4]
  ∧ store_sort_alg posting_lists 5 1 1 [0; 1; 2] 3 [] = Ok [0; 1; 2; 3; 4].
Proof. cbv zeta. split_and!; vm_compute; reflexivity. Qed.

(** * Further properties of the code *)

(** ** The permutation builder *)

Lemma foldM_collect {A B C} (g : A → Res B) (h : A → B → C) (f : A → B)
    (l : list A) (acc : list C) :
  (∀ a, a ∈ l → g a = Ok (f a)) →
  foldM (λ a acc, do x <- g a; Ok (acc ++ [h a x])) l acc
  = Ok (acc ++ ((λ a, h a (f a)) <$> l)).
Proof.
  revert acc. induction l as [|a l IH]; intros acc Hg; simpl.
  - by rewrite app_nil_r.
  - rewrite (Hg a) by left. cbn [bind]. rewrite IH by (intros; apply Hg; by right).
    by rewrite <-app_assoc.
Qed.

Lemma fmap_lookup_total_seq {A} `{Inhabited A} (l : list A) :
  (λ i, l !!! i) <$> seq 0 (length l) = l.
Proof.
  apply list_eq. intros i. rewrite list_lookup_fmap.
  destruct (l !! i) as [x|] eqn:E.
  - rewrite lookup_seq_lt by (by eapply lookup_lt_Some). simpl.
    f_equal. by apply list_lookup_total_correct.
  - rewrite lookup_seq_ge; [done|]. by apply lookup_ge_None.
Qed.

Lemma StronglySorted_lookup_lt {A} (R : relation A) (l : list A) i j x y :
  StronglySorted R l → (i < j)%nat → l !! i = Some x → l !! j = Some y → R x y.
Proof.
  intros Hs. revert i j. induction Hs as [|a l Hs IH Ha]; intros i j Hij Hi Hj; [done|].
  destruct j as [|j]; [lia|]. simpl in Hj. destruct i as [|i]; simpl in Hi.
  - injection Hi as <-. rewrite Forall_forall in Ha. apply Ha.
    by eapply list_elem_of_lookup_2.
  - apply (IH i j); [lia|done..].
Qed.

Section PermutationOrder.

Context {dist_t : Type} (dist_lt : relation dist_t) `{!RelDecision dist_lt}.
Hypothesis Hswo : strict_weak_order dist_lt.

Lemma DistInt_le_trans : Transitive (DistInt_le dist_lt).
Proof.
  destruct Hswo as (_ & _ & Hcmp).
  intros a b c. unfold DistInt_le, DistInt_lt. intros Hab Hbc [Hlt|[Hn Hlt]].
  - destruct (Hcmp _ _ b.1 Hlt) as [?|?]; [apply Hbc|apply Hab]; by left.
  - destruct (decide (dist_lt a.1 b.1)) as [Hab1|Hab1].
    { destruct (Hcmp _ _ c.1 Hab1) as [?|?]; [done|]. apply Hbc. by left. }
    destruct (decide (dist_lt b.1 c.1)) as [Hbc1|Hbc1].
    { destruct (Hcmp _ _ a.1 Hbc1) as [?|?]; [|done]. apply Hab. by left. }
    destruct (decide (b.2 < a.2)); [apply Hab; by right|].
    destruct (decide (c.2 < b.2)); [apply Hbc; by right|]. lia.
Qed.

Lemma DistInt_le_total : Total (DistInt_le dist_lt).
Proof.
  destruct Hswo as (Hirr & Htr & _).
  intros a b. unfold DistInt_le, DistInt_lt.
  destruct (decide (dist_lt a.1 b.1)) as [Hab|Hab].
  { left. intros [Hba|[? _]]; [|done]. by apply (Hirr a.1), (Htr _ b.1). }
  destruct (decide (dist_lt b.1 a.1)) as [Hba|Hba].
  { right. intros [?|[? _]]; done. }
  destruct (decide (a.2 ≤ b.2)); [left|right]; intros [?|[_ ?]]; try done; lia.
Qed.

End PermutationOrder.

(** The pairs the permutation builder sorts, and the permutation it reads off
    the sorted pairs. *)
Lemma GetPermutation_dists {dist_t : Type} (dist_lt : relation dist_t)
    `{!RelDecision dist_lt} (cast : Z → Z) (n : nat) (vDst : list dist_t) :
  (n ≤ length vDst)%nat →
  (∀ i, (i < n)%nat → cast (Z.of_nat i) = Z.of_nat i) →
  ∃ dists,
    GetPermutationPPIndexEfficiently dist_lt cast n vDst = Ok (std_sort dist_lt dists).*2
    ∧ dists.*2 = Z.of_nat <$> seq 0 n
    ∧ ∀ e, e ∈ dists → vDst !! Z.to_nat e.2 = Some e.1.
Proof.
  intros Hn Hcast.
  destruct (decide (n = 0%nat)) as [->|Hpos].
  { exists []. split; [reflexivity|]. split; [done|]. by intros e ?%elem_of_nil. }
  assert (Inhabited dist_t) as Hinh.
  { destruct vDst as [|d0 ?]; [simpl in Hn; lia|exact (populate d0)]. }
  set (dists := (λ i, (vDst !!! i, Z.of_nat i)) <$> seq 0 n).
  exists dists. split; [|split].
  - unfold GetPermutationPPIndexEfficiently.
    rewrite (foldM_collect (at_ vDst) (λ i d, (d, cast (Z.of_nat i))) (λ i, vDst !!! i)).
    2:{ intros i [_ Hi]%elem_of_seq. unfold at_.
        rewrite list_lookup_lookup_total_lt by lia. done. }
    cbn [bind app].
    assert ((λ i, (vDst !!! i, cast (Z.of_nat i))) <$> seq 0 n = dists) as ->.
    { apply list_fmap_ext. intros k i [-> Hi]%lookup_seq. simpl. by rewrite Hcast. }
    assert (length (std_sort dist_lt dists) = n) as Hlen.
    { unfold std_sort. rewrite merge_sort_Permutation. unfold dists.
      by rewrite length_fmap, length_seq. }
    rewrite (foldM_collect (at_ (std_sort dist_lt dists)) (λ _ e, e.2)
               (λ i, std_sort dist_lt dists !!! i)).
    2:{ intros i [_ Hi]%elem_of_seq. unfold at_.
        rewrite list_lookup_lookup_total_lt by lia. done. }
    cbn [app]. f_equal. rewrite <-Hlen at 1.
    rewrite <-(fmap_lookup_total_seq (std_sort dist_lt dists)) at 2.
    by rewrite <-list_fmap_compose.
  - unfold dists. rewrite <-list_fmap_compose. done.
  - unfold dists. intros e (i & -> & [_ Hi]%elem_of_seq)%list_elem_of_fmap. simpl.
    rewrite Nat2Z.id. apply list_lookup_lookup_total_lt. lia.
Qed.

(** X2. Given a distance for every pivot, on which [operator<] is a strict
    weak order (any [int]s; [float]s or [double]s none of which is NaN; on
    other distances [std::sort] is undefined), the permutation builder
    returns a permutation of the pivot indices 0 .. N-1: every index once. *)
Theorem GetPermutation_is_permutation {dist_t : Type} (dist_lt : relation dist_t)
    `{!RelDecision dist_lt} (cast : Z → Z) (n : nat) (vDst : list dist_t) :
  strict_weak_order dist_lt →
  (n ≤ length vDst)%nat →
  (∀ i, (i < n)%nat → cast (Z.of_nat i) = Z.of_nat i) →
  ∃ p, GetPermutationPPIndexEfficiently dist_lt cast n vDst = Ok p
    ∧ p ≡ₚ Z.of_nat <$> seq 0 n.
Proof.
  intros _ Hn Hcast.
  destruct (GetPermutation_dists dist_lt cast n vDst Hn Hcast) as (dists & -> & Hids & _).
  eexists. split; [done|].
  unfold std_sort. by rewrite merge_sort_Permutation, Hids.
Qed.

Lemma GetPermutation_is_permutation_witness :
  ∃ p, GetPermutationPPIndexEfficiently Z.lt id 4 [7; 3; 7; 1] = Ok p
    ∧ p ≡ₚ Z.of_nat <$> seq 0 4.
Proof.
  apply (GetPermutation_is_permutation Z.lt id 4 [7; 3; 7; 1]).
  - unfold strict_weak_order. split_and!; intros; lia.
  - simpl. lia.
  - done.
Defined.

(** X3. Under the same condition on the distances, the permutation lists the
    pivots by ascending distance, and pivots neither of whose distances is
    less than the other's by ascending index. *)
Theorem GetPermutation_ascending {dist_t : Type} (dist_lt : relation dist_t)
    `{!RelDecision dist_lt} (cast : Z → Z) (n : nat) (vDst : list dist_t)
    (p : Permutation) (i j : nat) (pi pj : Z) (di dj : dist_t) :
  strict_weak_order dist_lt →
  (n ≤ length vDst)%nat →
  (∀ i, (i < n)%nat → cast (Z.of_nat i) = Z.of_nat i) →
  GetPermutationPPIndexEfficiently dist_lt cast n vDst = Ok p →
  (i < j)%nat → p !! i = Some pi → p !! j = Some pj →
  vDst !! Z.to_nat pi = Some di → vDst !! Z.to_nat pj = Some dj →
  dist_lt di dj ∨ (¬ dist_lt dj di ∧ pi < pj).
Proof.
  intros Hswo Hn Hcast Hp Hij Hi Hj Hdi Hdj.
  destruct (GetPermutation_dists dist_lt cast n vDst Hn Hcast)
    as (dists & Hrun & Hids & Hdist).
  rewrite Hrun in Hp. injection Hp as <-.
  pose proof (DistInt_le_trans dist_lt Hswo) as Htrans.
  pose proof (DistInt_le_total dist_lt Hswo) as Htotal.
  assert (std_sort dist_lt dists ≡ₚ dists) as Hperm by apply merge_sort_Permutation.
  assert (NoDup (std_sort dist_lt dists).*2) as Hnodup.
  { rewrite Hperm, Hids. apply NoDup_fmap_2; [|apply NoDup_seq]. intros x y. lia. }
  pose proof (StronglySorted_merge_sort (DistInt_le dist_lt) dists) as Hsorted.
  fold (std_sort dist_lt dists) in Hsorted.
  rewrite list_lookup_fmap in Hi, Hj.
  destruct (std_sort dist_lt dists !! i) as [ei|] eqn:Ei; [|done].
  destruct (std_sort dist_lt dists !! j) as [ej|] eqn:Ej; [|done].
  simpl in Hi, Hj. injection Hi as <-. injection Hj as <-.
  assert (DistInt_le dist_lt ei ej) as Hle.
  { by apply (StronglySorted_lookup_lt (DistInt_le dist_lt) (std_sort dist_lt dists) i j). }
  assert (ei.2 ≠ ej.2) as Hne.
  { intros Heq. assert (i = j); [|lia].
    eapply NoDup_lookup; [exact Hnodup| |]; rewrite list_lookup_fmap.
    - by rewrite Ei.
    - by rewrite Ej, Heq. }
  assert (ei.1 = di ∧ ej.1 = dj) as [<- <-].
  { split.
    - specialize (Hdist ei). rewrite Hdi in Hdist. symmetry.
      assert (Some di = Some ei.1) as [= ->]; [|done].
      apply Hdist. rewrite <-Hperm. by eapply list_elem_of_lookup_2.
    - specialize (Hdist ej). rewrite Hdj in Hdist. symmetry.
      assert (Some dj = Some ej.1) as [= ->]; [|done].
      apply Hdist. rewrite <-Hperm. by eapply list_elem_of_lookup_2. }
  unfold DistInt_le, DistInt_lt in Hle.
  destruct (decide (dist_lt ei.1 ej.1)); [by left|right].
  split; [intros ?; apply Hle; by left|].
  destruct (decide (ej.2 < ei.2)); [|lia].
  exfalso. apply Hle. by right.
Qed.

Lemma GetPermutation_ascending_witness :
  GetPermutationPPIndexEfficiently Z.lt id 4 [7; 3; 7; 1] = Ok [3; 1; 0; 2]
  ∧ (7 < 7 ∨ (¬ 7 < 7 ∧ 0 < 2)).
Proof.
  split; [reflexivity|].
  apply (GetPermutation_ascending Z.lt id 4 [7; 3; 7; 1] [3; 1; 0; 2] 2 3 0 2 7 7).
  - unfold strict_weak_order. split_and!; intros; lia.
  - simpl. lia.
  - done.
  - reflexivity.
  - lia.
  - reflexivity.
  - reflexivity.
  - reflexivity.
  - reflexivity.
Defined.

(** ** Query-time parameters, further *)

Lemma to_size_t_Ok v n : to_size_t v = Ok n → v = PNum n ∧ 0 ≤ n < 2 ^ 64.
Proof.
  destruct v as [m|s]; simpl; [|done]. unfold in_range.
  case_bool_decide; [|done]. by intros [= ->].
Qed.

Lemma GetParamOptional_last_any {A} pmgr' ps Name w (conv : ParamValue → Res A) d v pmgr1' :
  params pmgr' = ps ++ [(Name, w)] →
  GetParamOptional pmgr' Name conv d = Ok (v, pmgr1') →
  conv w = Ok v.
Proof.
  intros Hps. unfold GetParamOptional. rewrite Hps, GetParam_loop_snoc.
  intros ([v' bFound] & H & [= <- _])%bind_Ok. revert H.
  destruct (GetParam_loop conv Name ps d false) as [[v0 b0]|]; [|done].
  cbn [bind]. rewrite String.eqb_refl.
  destruct (conv w); [|done]. cbn [bind]. congruence.
Qed.

(** X4. [SetQueryTimeParams] ends in an exception whenever the parameters
    name both [minTimes] and [numPivotSearch]. *)
Theorem SetQueryTimeParams_rejects_both_aliases
    (num_prefix num_pivot : Z) (QueryTimeParams : AnyParams) :
  hasParam (mkPmgr QueryTimeParams []) "minTimes" = true →
  hasParam (mkPmgr QueryTimeParams []) "numPivotSearch" = true →
  is_Err (SetQueryTimeParams num_prefix num_pivot QueryTimeParams).
Proof.
  intros H1 H2. unfold SetQueryTimeParams.
  step_Err as [skip_checking pmgr1] eqn:E1.
  step_Err as [inv_proc_alg pmgr2] eqn:E2.
  apply GetParamOptional_params in E1, E2.
  assert (params pmgr2 = params (mkPmgr QueryTimeParams [])) as E by congruence.
  rewrite !(hasParam_params _ _ _ E), H1, H2. apply is_Err_Err.
Qed.

Lemma SetQueryTimeParams_rejects_both_aliases_witness :
  is_Err (SetQueryTimeParams 32 512 [("numPivotSearch", PNum 3); ("minTimes", PNum 3)]).
Proof. apply SetQueryTimeParams_rejects_both_aliases; reflexivity. Defined.

(** X5. When the last query-time parameter is [numPivotSearch = v] and the
    parameters are accepted, [min_times_] is [v]. *)
Theorem SetQueryTimeParams_numPivotSearch
    (num_prefix num_pivot : Z) (ps : AnyParams) (v : Z) (q : QueryParams) :
  SetQueryTimeParams num_prefix num_pivot (ps ++ [("numPivotSearch", PNum v)]) = Ok q →
  min_times_ q = v.
Proof.
  unfold SetQueryTimeParams.
  intros ([skip_checking pmgr1] & E1 & H)%bind_Ok.
  apply bind_Ok in H as ([inv_proc_alg pmgr2] & E2 & H).
  apply bind_Ok in H as (_ & _ & H).
  apply bind_Ok in H as ([min_times0 pmgr3] & E3 & H).
  apply bind_Ok in H as ([min_times pmgr4] & E4 & H).
  apply GetParamOptional_params in E1, E2, E3.
  apply (GetParamOptional_last_any _ ps _ (PNum v)) in E4; [|simpl in *; congruence].
  apply to_size_t_Ok in E4 as [[= ->] _].
  apply bind_Ok in H as ([num_prefix_search pmgr5] & E5 & H).
  apply bind_Ok in H as (_ & _ & H).
  apply bind_Ok in H as (alg & _ & H).
  apply bind_Ok in H as (_ & _ & [= <-]). done.
Qed.

Lemma SetQueryTimeParams_numPivotSearch_witness :
  SetQueryTimeParams 32 512 ([("invProcAlg", PStr "scan")] ++ [("numPivotSearch", PNum 5)])
  = Ok (mkQueryParams false kScan 5 32)
  ∧ min_times_ (mkQueryParams false kScan 5 32) = 5.
Proof.
  split; [reflexivity|].
  apply (SetQueryTimeParams_numPivotSearch 32 512 [("invProcAlg", PStr "scan")] 5).
  reflexivity.
Defined.

(** X6. Query-time parameters that [SetQueryTimeParams] accepts leave
    [num_prefix_search_] at most [num_pivot_]; when they do not name
    [numPrefixSearch] it is [num_prefix_]. *)
Theorem SetQueryTimeParams_numPrefixSearch
    (num_prefix num_pivot : Z) (QueryTimeParams : AnyParams) (q : QueryParams) :
  SetQueryTimeParams num_prefix num_pivot QueryTimeParams = Ok q →
  num_prefix_search_ q ≤ num_pivot
  ∧ (hasParam (mkPmgr QueryTimeParams []) "numPrefixSearch" = false →
     num_prefix_search_ q = num_prefix).
Proof.
  unfold SetQueryTimeParams.
  intros ([skip_checking pmgr1] & E1 & H)%bind_Ok.
  apply bind_Ok in H as ([inv_proc_alg pmgr2] & E2 & H).
  apply bind_Ok in H as (_ & _ & H).
  apply bind_Ok in H as ([min_times0 pmgr3] & E3 & H).
  apply bind_Ok in H as ([min_times pmgr4] & E4 & H).
  apply bind_Ok in H as ([num_prefix_search pmgr5] & E5 & H).
  apply bind_Ok in H as (? & Hle & H).
  apply bind_Ok in H as (alg & _ & H).
  apply bind_Ok in H as (_ & _ & [= <-]). simpl.
  split.
  - case_bool_decide; [done|lia].
  - intros Habs. apply GetParamOptional_params in E1, E2, E3, E4.
    assert (hasParam pmgr4 "numPrefixSearch" = false) as Habs4.
    { rewrite (hasParam_params (mkPmgr QueryTimeParams []) pmgr4); [done|].
      simpl in *. congruence. }
    rewrite (GetParamOptional_absent _ _ _ _ Habs4) in E5. congruence.
Qed.

Lemma SetQueryTimeParams_numPrefixSearch_witness :
  SetQueryTimeParams 32 512 [("skipChecking", PNum 1)]
  = Ok (mkQueryParams true kStoreSort 2 32)
  ∧ num_prefix_search_ (mkQueryParams true kStoreSort 2 32) ≤ 512
  ∧ (hasParam (mkPmgr [("skipChecking", PNum 1)] []) "numPrefixSearch" = false →
     num_prefix_search_ (mkQueryParams true kStoreSort 2 32) = 32).
Proof.
  split; [reflexivity|].
  apply (SetQueryTimeParams_numPrefixSearch 32 512 [("skipChecking", PNum 1)]).
  reflexivity.
Defined.

(** X7. When the last query-time parameter is [invProcAlg = s]: a text that
    is none of the four algorithm names ends [SetQueryTimeParams] in an
    exception, and accepted parameters select the algorithm [s] names. *)
Theorem SetQueryTimeParams_invProcAlg
    (num_prefix num_pivot : Z) (ps : AnyParams) (s : string) :
  (s ∉ [PERM_PROC_FAST_SCAN; PERM_PROC_STORE_SORT; PERM_PROC_MERGE; PERM_PROC_PRIOR_QUEUE] →
   is_Err (SetQueryTimeParams num_prefix num_pivot (ps ++ [("invProcAlg", PStr s)])))
  ∧ (∀ q,
     SetQueryTimeParams num_prefix num_pivot (ps ++ [("invProcAlg", PStr s)]) = Ok q →
     (s, inv_proc_alg_ q)
     ∈ [(PERM_PROC_FAST_SCAN, kScan); (PERM_PROC_STORE_SORT, kStoreSort);
        (PERM_PROC_MERGE, kMerge); (PERM_PROC_PRIOR_QUEUE, kPriorQueue)]).
Proof.
  assert (∀ q,
     SetQueryTimeParams num_prefix num_pivot (ps ++ [("invProcAlg", PStr s)]) = Ok q →
     (s, inv_proc_alg_ q)
     ∈ [(PERM_PROC_FAST_SCAN, kScan); (PERM_PROC_STORE_SORT, kStoreSort);
        (PERM_PROC_MERGE, kMerge); (PERM_PROC_PRIOR_QUEUE, kPriorQueue)]) as Hok.
  { intros q. unfold SetQueryTimeParams.
    intros ([skip_checking pmgr1] & E1 & H)%bind_Ok.
    apply bind_Ok in H as ([inv_proc_alg pmgr2] & E2 & H).
    apply GetParamOptional_params in E1.
    apply (GetParamOptional_last_any _ ps _ (PStr s)) in E2; [|simpl in *; congruence].
    injection E2 as <-.
    apply bind_Ok in H as (_ & _ & H).
    apply bind_Ok in H as ([min_times0 pmgr3] & E3 & H).
    apply bind_Ok in H as ([min_times pmgr4] & E4 & H).
    apply bind_Ok in H as ([num_prefix_search pmgr5] & E5 & H).
    apply bind_Ok in H as (_ & _ & H).
    apply bind_Ok in H as (alg & Halg & H).
    apply bind_Ok in H as (_ & _ & [= <-]). simpl.
    destruct (String.eqb_spec s PERM_PROC_FAST_SCAN) as [->|];
      [injection Halg as <-; by left|].
    destruct (String.eqb_spec s PERM_PROC_STORE_SORT) as [->|];
      [injection Halg as <-; by right; left|].
    destruct (String.eqb_spec s PERM_PROC_MERGE) as [->|];
      [injection Halg as <-; by do 2 right; left|].
    destruct (String.eqb_spec s PERM_PROC_PRIOR_QUEUE) as [->|];
      [injection Halg as <-; by do 3 right; left|].
    done. }
  split; [|done].
  intros Hs.
  destruct (SetQueryTimeParams _ _ _) as [q|e] eqn:E; [|apply is_Err_Err].
  exfalso. specialize (Hok q eq_refl). apply Hs.
  by apply (list_elem_of_fmap_2 fst) in Hok.
Qed.

Lemma SetQueryTimeParams_invProcAlg_witness :
  is_Err (SetQueryTimeParams 32 512 ([("minTimes", PNum 3)] ++ [("invProcAlg", PStr "quick")])).
Proof.
  apply (SetQueryTimeParams_invProcAlg 32 512 [("minTimes", PNum 3)] "quick").
  intros Hin. repeat (apply elem_of_cons in Hin as [Hin|Hin]; [discriminate|]).
  by apply elem_of_nil in Hin.
Defined.

(** ** Build-time parameters, further *)

Lemma GetParam_loop_value {A} (conv : ParamValue → Res A) (P : A → Prop) Name ps d bFound v b :
  P d → (∀ w v, conv w = Ok v → P v) →
  GetParam_loop conv Name ps d bFound = Ok (v, b) → P v.
Proof.
  intros Hd Hconv. revert d bFound Hd.
  induction ps as [|[n w] ps IH]; intros d bFound Hd; simpl.
  - by intros [= <- _].
  - destruct (String.eqb Name n); [|by apply IH].
    intros (v' & Hv' & H)%bind_Ok. eapply IH; [|exact H]. by eapply Hconv.
Qed.

Lemma GetParamOptional_value {A} (conv : ParamValue → Res A) (P : A → Prop) pmgr Name d v pmgr' :
  P d → (∀ w v, conv w = Ok v → P v) →
  GetParamOptional pmgr Name conv d = Ok (v, pmgr') → P v.
Proof.
  intros Hd Hconv. unfold GetParamOptional.
  intros ([v' b] & H & [= <- _])%bind_Ok. by eapply GetParam_loop_value.
Qed.

Lemma to_unsigned_range w v n : to_unsigned w v = Ok n → 0 ≤ n < 2 ^ w.
Proof.
  destruct v as [m|s]; simpl; [|done]. unfold in_range.
  case_bool_decide; [|done]. by intros [= <-].
Qed.

Lemma div_Ok a b c : div_ a b = Ok c → b ≠ 0 ∧ c = a / b.
Proof. unfold div_. destruct (decide (b = 0)); [done|]. by intros [= <-]. Qed.

(** What [CreateIndex] has established once it has read its parameters. *)
Lemma CreateIndex_params_Ok hardware_concurrency dataSize IndexParams b q :
  CreateIndex_params hardware_concurrency dataSize IndexParams = Ok (b, q) →
  pivot_comb_qty_ b = 2
  ∧ 0 < skip_val_ b < 2 ^ 32
  ∧ 0 ≤ num_prefix_ b ≤ num_pivot_ b
  ∧ num_pivot_ b < 2 ^ 64
  ∧ maxPostQty_ b
    = (num_pivot_ b * (num_pivot_ b - 1) + 2 * skip_val_ b - 1) / (2 * skip_val_ b)
  ∧ maxPostQty_ b ≠ 0
  ∧ q = mkQueryParams false kStoreSort 2 (num_prefix_ b).
Proof.
  unfold CreateIndex_params.
  intros ([num_pivot pmgr1] & E1 & H)%bind_Ok.
  apply bind_Ok in H as (? & _ & H).
  apply bind_Ok in H as ([num_prefix0 pmgr2] & E2 & H).
  apply bind_Ok in H as ([num_prefix pmgr3] & E3 & H).
  apply bind_Ok in H as ([index_thread_qty pmgr4] & E4 & H).
  apply bind_Ok in H as ([disable_pivot_index pmgr5] & E5 & H).
  apply bind_Ok in H as ([hash_trick_dim pmgr6] & E6 & H).
  apply bind_Ok in H as (? & Hle & H).
  apply bind_Ok in H as (? & _ & H).
  apply bind_Ok in H as ([pivot_file pmgr7] & E7 & H).
  apply bind_Ok in H as ([skip_val pmgr8] & E8 & H).
  apply bind_Ok in H as ([pivot_comb_qty pmgr9] & E9 & H).
  apply bind_Ok in H as ([print_pivot_stat pmgr10] & E10 & H).
  apply bind_Ok in H as (? & _ & H).
  apply bind_Ok in H as (? & _ & H).
  apply bind_Ok in H as (qp & Hqp & H).
  apply bind_Ok in H as (maxPostQty & Hmax & H).
  apply bind_Ok in H as (? & Hk & H).
  apply bind_Ok in H as (exp_avg_post_size & Hdiv & H).
  apply bind_Ok in H as (exp_post_per_query_qty & _ & [= <- <-]). simpl.
  assert (pivot_comb_qty = 2) as ->.
  { unfold CHECK in Hk. by case_bool_decide. }
  assert (num_prefix ≤ num_pivot) as Hnp.
  { revert Hle. destruct (bool_decide_reflect (num_prefix > num_pivot)); [discriminate|lia]. }
  apply (GetParamOptional_value _ (λ v, 0 ≤ v < 2 ^ 64)) in E1;
    [|lia|apply to_unsigned_range].
  apply (GetParamOptional_value _ (λ v, 0 ≤ v < 2 ^ 64)) in E2;
    [|lia|apply to_unsigned_range].
  apply (GetParamOptional_value _ (λ v, 0 ≤ v < 2 ^ 64)) in E3;
    [|lia|apply to_unsigned_range].
  apply (GetParamOptional_value _ (λ v, 0 ≤ v < 2 ^ 32)) in E8;
    [|lia|apply to_unsigned_range].
  unfold getPostQtys, ceil_div in Hmax. simpl in Hmax.
  apply div_Ok in Hdiv as [Hnz _].
  assert (skip_val ≠ 0 ∧ maxPostQty ≠ 0) as [Hskip Hmnz].
  { split; intros ->; apply Hnz; [|rewrite Z.mul_0_r; reflexivity].
    change (u32 (2 * 0)) with 0. rewrite Z.mul_0_l. reflexivity. }
  apply div_Ok in Hmax as [_ ->].
  split_and!; [done|lia|lia|lia|done|lia|done|done|].
  unfold ResetQueryTimeParams, SetQueryTimeParams in Hqp. simpl in Hqp.
  rewrite bool_decide_eq_false_2 in Hqp by lia. simpl in Hqp. congruence.
Qed.

(** ** The index builder *)

Lemma foldM_invariant {A St} (I : St → Prop) (body : A → St → Res St)
    (l : list A) (s s' : St) :
  (∀ a s s', a ∈ l → I s → body a s = Ok s' → I s') →
  I s → foldM body l s = Ok s' → I s'.
Proof.
  revert s. induction l as [|a l IH]; intros s Hstep Hs; simpl.
  - by intros [= <-].
  - intros (s1 & H1 & H)%bind_Ok. apply (IH s1); [|by eapply Hstep; [left|..]|done].
    intros a' s2 s3 Ha'. apply Hstep. by right.
Qed.

Lemma foldM_prefix_invariant {A St} (I : list A → St → Prop) (body : A → St → Res St)
    (l : list A) (s s' : St) :
  I [] s →
  (∀ done a rest s s',
     l = done ++ a :: rest → I done s → body a s = Ok s' → I (done ++ [a]) s') →
  foldM body l s = Ok s' → I l s'.
Proof.
  intros Hs Hstep.
  enough (∀ todo done s, l = done ++ todo → I done s →
            foldM body todo s = Ok s' → I l s') as Haux by (by apply (Haux l [] s)).
  induction todo as [|a todo IH]; intros done s0 Hl Hdone; simpl.
  - intros [= <-]. by rewrite Hl, app_nil_r.
  - intros (s1 & H1 & H)%bind_Ok. apply (IH (done ++ [a]) s1); [|by eapply Hstep|done].
    by rewrite <-app_assoc.
Qed.

(** The encoder's count stays within the buffer it returns, and the keys it
    wrote are 32-bit values. *)
Lemma genPivotCombIds_emitted_wf T3 k skip_val ids perm P r :
  genPivotCombIds T3 k skip_val ids perm P = Ok r →
  (r.2 ≤ length r.1)%nat ∧ Forall (λ key, 0 ≤ key < 2 ^ 32) (emitted r).
Proof.
  set (I := λ st : list Z * nat,
         (st.2 ≤ length st.1)%nat ∧ Forall (λ key, 0 ≤ key < 2 ^ 32) (emitted st)).
  assert (∀ q imod st, I st → I (emit (u32 q) imod st)) as Hemit.
  { intros q imod st [Hle Hall].
    destruct (emit_emitted (u32 q) imod st Hle) as [Hle' Hem]. split; [done|].
    rewrite Hem. apply Forall_app. split; [done|].
    destruct (decide (imod = 0)); [|constructor].
    repeat constructor; unfold u32, wrap; apply Z.mod_pos_bound; lia. }
  assert (I (ids, 0%nat)) as Hinit.
  { split; [simpl; lia|]. unfold emitted. simpl. constructor. }
  unfold genPivotCombIds. intros (? & _ & H)%bind_Ok. revert H.
  destruct (decide (k = 1)); [|destruct (decide (k = 2))].
  - intros (? & _ & H)%bind_Ok. revert H.
    apply (foldM_invariant I); [|done].
    intros i st st' _ Hst H. apply bind_Ok in H as (index & _ & H).
    apply bind_Ok in H as (q & _ & H). apply bind_Ok in H as (imod & _ & [= <-]).
    by apply Hemit.
  - apply (foldM_invariant I); [|done].
    intros j st st' _ Hst. apply (foldM_invariant I); [|done].
    intros k0 st0 st0' _ Hst0 H. apply bind_Ok in H as (pj & _ & H).
    apply bind_Ok in H as (pk & _ & H). apply bind_Ok in H as (q & _ & H).
    apply bind_Ok in H as (imod & _ & [= <-]). by apply Hemit.
  - intros (? & _ & H)%bind_Ok. revert H.
    apply (foldM_invariant I); [|done].
    intros j st st' _ Hst. apply (foldM_invariant I); [|done].
    intros k0 st0 st0' _ Hst0. apply (foldM_invariant I); [|done].
    intros l0 st1 st1' _ Hst1 H. apply bind_Ok in H as (pj & _ & H).
    apply bind_Ok in H as (pk & _ & H). apply bind_Ok in H as (pl & _ & H).
    apply bind_Ok in H as (q & _ & [= <-]). by apply Hemit.
Qed.

(** The loop that files the object under its keys (source lines 175-181). *)
Lemma push_keys_spec (M id : Z) (keys : list Z) (postList postList' : list (list Z)) :
  foldM (λ cid postList,
      do _ <- CHECK (bool_decide (cid < M)) "cid < maxPostQty_";
      do l <- at_ postList (Z.to_nat cid);
      Ok (<[Z.to_nat cid := l ++ [id]]> postList))
    keys postList = Ok postList' →
  Forall (λ k, 0 ≤ k) keys →
  length postList' = length postList
  ∧ ∀ b : nat, postList' !!! b
      = postList !!! b ++ (k ← keys; if decide (k = Z.of_nat b) then [id] else []).
Proof.
  revert postList. induction keys as [|cid keys IH]; intros postList; cbn [foldM].
  - intros [= <-] _. split; [done|]. intros b. by rewrite app_nil_r.
  - intros (postList1 & H1 & H)%bind_Ok Hk. apply Forall_cons in Hk as [Hcid Hk].
    apply bind_Ok in H1 as (? & _ & H1). apply bind_Ok in H1 as (l & Hl & [= <-]).
    destruct (IH _ H Hk) as [Hlen Hb]. rewrite length_insert in Hlen.
    split; [done|]. intros b. rewrite Hb, bind_cons, app_assoc. f_equal.
    unfold at_ in Hl. destruct (postList !! Z.to_nat cid) as [l'|] eqn:E; [|done].
    injection Hl as ->.
    destruct (decide (cid = Z.of_nat b)) as [->|Hne].
    + rewrite Nat2Z.id in *. rewrite list_lookup_total_insert_eq by (by eapply lookup_lt_Some).
      by rewrite (list_lookup_total_correct _ _ _ E).
    + rewrite list_lookup_total_insert_ne by lia. by rewrite app_nil_r.
Qed.

Lemma bind_lookup_Permutation {A B} (f : A → list B) (l : list A) (i : nat) (x : A) :
  l !! i = Some x → l ≫= f ≡ₚ f x ++ (delete i l ≫= f).
Proof.
  intros H. rewrite <-(take_drop_middle l i x H) at 1.
  rewrite delete_take_drop, !bind_app, bind_cons.
  rewrite !app_assoc. f_equiv. apply Permutation_app_comm.
Qed.

Lemma bind_insert_Permutation {A B} (f : A → list B) (l : list A) (i : nat) (x y : A) :
  l !! i = Some x → <[i:=y]> l ≫= f ≡ₚ f y ++ (delete i l ≫= f).
Proof.
  intros H. rewrite insert_take_drop by (by eapply lookup_lt_Some).
  rewrite delete_take_drop, !bind_app, bind_cons.
  rewrite !app_assoc. f_equiv. apply Permutation_app_comm.
Qed.

Lemma lookup_total_zip_with_app (l k : list (list Z)) (b : nat) :
  (b < length l)%nat → (b < length k)%nat →
  zip_with (λ permList tmpList, permList ++ tmpList) l k !!! b = l !!! b ++ k !!! b.
Proof.
  intros Hl Hk. apply list_lookup_total_correct. rewrite lookup_zip_with.
  rewrite (list_lookup_lookup_total_lt l b), (list_lookup_lookup_total_lt k b) by done.
  done.
Qed.

Lemma lookup_total_replicate_nil (n b : nat) : replicate n ([] : list Z) !!! b = [].
Proof.
  destruct (decide (b < n)%nat).
  - by rewrite lookup_total_replicate_2.
  - rewrite list_lookup_total_alt.
    by rewrite (proj1 (lookup_replicate_None n [] b)) by lia.
Qed.

(** A flush moves the worker's private postings to the shared lists. *)
Lemma flushTmpPost_spec (M t : nat) (st st' : Store) :
  store_wf M st → flushTmpPost t st = Ok st' →
  ∃ tmp, tmp_posting_lists_ st !! t = Some tmp
    ∧ store_wf M st'
    ∧ (∀ b, (b < M)%nat → posting_lists_ st' !!! b = posting_lists_ st !!! b ++ tmp !!! b)
    ∧ tmp_posting_lists_ st' = <[t := replicate M []]> (tmp_posting_lists_ st)
    ∧ ∀ b, (b < M)%nat → bucket_content st' b ≡ₚ bucket_content st b.
Proof.
  intros (Hp & Ht & Hq). unfold flushTmpPost.
  intros (tmp & Htmp & H)%bind_Ok. apply bind_Ok in H as (qty & _ & [= <-]).
  unfold at_ in Htmp. destruct (tmp_posting_lists_ st !! t) as [tmp'|] eqn:E; [|done].
  injection Htmp as ->. exists tmp.
  assert (length tmp = M) as Hlen.
  { rewrite Forall_forall in Ht. apply Ht. by eapply list_elem_of_lookup_2. }
  assert (∀ b, (b < M)%nat →
            zip_with (λ permList tmpList, permList ++ tmpList) (posting_lists_ st) tmp !!! b
            = posting_lists_ st !!! b ++ tmp !!! b) as Hzip.
  { intros b Hb. apply lookup_total_zip_with_app; lia. }
  split_and!; [done| |done|by rewrite Hlen|].
  - split_and!; simpl.
    + rewrite length_zip_with. lia.
    + apply Forall_insert; [done|]. by rewrite length_replicate.
    + by rewrite !length_insert.
  - intros b Hb. unfold bucket_content. simpl. rewrite Hzip by done.
    rewrite (bind_insert_Permutation _ _ t tmp) by done.
    rewrite (bind_lookup_Permutation _ (tmp_posting_lists_ st) t tmp) by done.
    rewrite lookup_total_replicate_nil. by rewrite <-app_assoc.
Qed.

Lemma at_Ok {A} (v : list A) (i : nat) (x : A) : at_ v i = Ok x → v !! i = Some x.
Proof. unfold at_. destruct (v !! i); [by intros [= ->]|done]. Qed.

Lemma bucket_postings_app keys ids1 ids2 bucket :
  bucket_postings keys (ids1 ++ ids2) bucket
  = bucket_postings keys ids1 bucket ++ bucket_postings keys ids2 bucket.
Proof. unfold bucket_postings. by rewrite bind_app. Qed.

Lemma bucket_postings_singleton keys id bucket :
  bucket_postings keys [id] bucket
  = k ← keys id; if decide (k = Z.of_nat bucket) then [Z.of_nat id] else [].
Proof. unfold bucket_postings. rewrite bind_cons. apply app_nil_r. Qed.

(** One turn of the first loop: the worker files the object under its keys in
    its private lists, and flushes them when its counter says so. *)
Lemma index_object_inv T3 (b : BuildParams) (data_perm : list Permutation)
    (id t : nat) (st st' : Store) :
  index_object T3 b data_perm id t st = Ok st' →
  ∃ tmp tmp' qtys,
    (id < length data_perm)%nat
    ∧ Z.of_nat t < index_thread_qty_ b
    ∧ tmp_posting_lists_ st !! t = Some tmp
    ∧ length tmp' = length tmp
    ∧ (∀ bucket, tmp' !!! bucket
         = tmp !!! bucket ++ bucket_postings (object_keys T3 b data_perm) [id] bucket)
    ∧ length qtys = length (tmp_post_doc_qty_ st)
    ∧ let st_mid := mkStore (posting_lists_ st) (<[t := tmp']> (tmp_posting_lists_ st)) qtys in
      st' = st_mid ∨ flushTmpPost t st_mid = Ok st'.
Proof.
  unfold index_object.
  intros (perm & Hperm%at_Ok & H)%bind_Ok.
  apply bind_Ok in H as (? & Ht & H).
  apply bind_Ok in H as ([combIds cqty] & Hgen & H).
  apply bind_Ok in H as (tmp & Htmp%at_Ok & H).
  apply bind_Ok in H as (tmp' & Hpush & H).
  apply bind_Ok in H as (qty & Hqty & H).
  destruct (genPivotCombIds_emitted_wf _ _ _ _ _ _ _ Hgen) as [Hle Hkeys].
  simpl in Hle. unfold emitted in Hkeys. simpl in Hkeys.
  assert (length (take cqty combIds) = cqty) as Hlen by (rewrite length_take; lia).
  rewrite <-Hlen in Hpush at 1.
  rewrite (foldM_seq_lookup (at_ combIds)
             (λ cid postList,
                do _ <- CHECK (bool_decide (cid < maxPostQty_ b)) "cid < maxPostQty_";
                do l <- at_ postList (Z.to_nat cid);
                Ok (<[Z.to_nat cid := l ++ [Z.of_nat id]]> postList))) in Hpush.
  2:{ intros kk a Hkk. simpl. apply lookup_take_Some in Hkk as [Hkk _].
      unfold at_. by rewrite Hkk. }
  apply push_keys_spec in Hpush as [Hlen' Hb];
    [|eapply Forall_impl; [exact Hkeys|]; simpl; lia].
  exists tmp, tmp', (<[t := qty + 1]> (tmp_post_doc_qty_ st)).
  split_and!; [exact (lookup_lt_Some _ _ _ Hperm)| |done|done| |by rewrite length_insert|].
  - unfold CHECK in Ht. revert Ht.
    by destruct (bool_decide_reflect (Z.of_nat t < index_thread_qty_ b)).
  - intros bucket. rewrite Hb, bucket_postings_singleton. f_equal.
    unfold object_keys. by rewrite Hperm, Hgen.
  - cbv zeta. destruct (bool_decide (MAX_TMP_DOC_QTY ≤ qty + 1)); [by right|left; congruence].
Qed.

(** The first loop keeps the store in shape and adds the object's postings
    to the buckets of its keys. *)
Lemma index_object_spec T3 (b : BuildParams) (data_perm : list Permutation)
    (id t : nat) (st st' : Store) :
  store_wf (Z.to_nat (maxPostQty_ b)) st →
  index_object T3 b data_perm id t st = Ok st' →
  store_wf (Z.to_nat (maxPostQty_ b)) st'
  ∧ length (tmp_posting_lists_ st') = length (tmp_posting_lists_ st)
  ∧ (∀ t', t' ≠ t → tmp_posting_lists_ st' !! t' = tmp_posting_lists_ st !! t')
  ∧ ∀ bucket, (bucket < Z.to_nat (maxPostQty_ b))%nat →
      bucket_content st' bucket
      ≡ₚ bucket_content st bucket
         ++ bucket_postings (object_keys T3 b data_perm) [id] bucket.
Proof.
  intros Hwf H. set (M := Z.to_nat (maxPostQty_ b)) in *.
  apply index_object_inv in H
    as (tmp & tmp' & qtys & _ & _ & Htmp & Hlen & Hb & Hq & Hst').
  set (st_mid := mkStore _ _ _) in Hst'.
  destruct Hwf as (Hp & Ht & Hqty).
  assert (store_wf M st_mid) as Hmid.
  { split_and!; simpl; [done| |by rewrite length_insert; lia].
    apply Forall_insert; [done|]. rewrite Hlen.
    rewrite Forall_forall in Ht. apply Ht. by eapply list_elem_of_lookup_2. }
  assert (∀ bucket,
            bucket_content st_mid bucket
            ≡ₚ bucket_content st bucket
               ++ bucket_postings (object_keys T3 b data_perm) [id] bucket) as Hcont.
  { intros bucket. unfold bucket_content. simpl.
    rewrite (bind_insert_Permutation _ _ t tmp) by done.
    rewrite (bind_lookup_Permutation _ (tmp_posting_lists_ st) t tmp) by done.
    rewrite Hb. rewrite <-!app_assoc. do 2 f_equiv. apply Permutation_app_comm. }
  destruct Hst' as [->|Hflush].
  { split_and!; [done|apply length_insert| |done].
    intros t' Ht'. simpl. by rewrite list_lookup_insert_ne. }
  apply (flushTmpPost_spec M) in Hflush as (? & _ & Hwf' & _ & Htmps & Hflush); [|done].
  split_and!; [done| | |].
  - rewrite Htmps. simpl. by rewrite !length_insert.
  - intros t' Ht'. rewrite Htmps. simpl. by rewrite !list_lookup_insert_ne.
  - intros bucket Hbucket. by rewrite Hflush, Hcont.
Qed.

(** One turn of the final loop: the worker's private postings go to the
    shared lists, and one shared list is sorted. *)
Lemma flush_and_sort_spec (M pivId t : nat) (st st' : Store) :
  store_wf M st → flush_and_sort pivId t st = Ok st' →
  store_wf M st'
  ∧ tmp_posting_lists_ st' = <[t := replicate M []]> (tmp_posting_lists_ st)
  ∧ (t < length (tmp_posting_lists_ st))%nat
  ∧ ∀ bucket, (bucket < M)%nat → bucket_content st' bucket ≡ₚ bucket_content st bucket.
Proof.
  intros Hwf. unfold flush_and_sort. intros (st1 & Hflush & H)%bind_Ok.
  apply bind_Ok in H as (oneList & Hone%at_Ok & [= <-]).
  apply (flushTmpPost_spec M) in Hflush as (tmp & Htmp & Hwf1 & _ & Htmps & Hcont); [|done].
  destruct Hwf1 as (Hp & Ht & Hq).
  split_and!; simpl; [|done|by eapply lookup_lt_Some|].
  - split_and!; simpl; [by rewrite length_insert|done..].
  - intros bucket Hbucket. rewrite <-Hcont by done. unfold bucket_content. simpl.
    f_equiv. destruct (decide (bucket = pivId)) as [->|].
    + rewrite list_lookup_total_insert_eq by (by eapply lookup_lt_Some).
      rewrite (list_lookup_total_correct _ _ _ Hone).
      unfold integer_sort. apply merge_sort_Permutation.
    + by rewrite list_lookup_total_insert_ne.
Qed.

Lemma CreateIndex_Ok T3 hardware_concurrency data_perm IndexParams sched1 sched2 idx :
  CreateIndex T3 hardware_concurrency data_perm IndexParams sched1 sched2 = Ok idx →
  let b := bparams idx in
  let M := Z.to_nat (maxPostQty_ b) in
  let W := Z.to_nat (index_thread_qty_ b) in
  ∃ st1,
    CreateIndex_params hardware_concurrency (Z.of_nat (length data_perm)) IndexParams
    = Ok (b, qparams idx)
    ∧ data_qty idx = length data_perm
    ∧ ParallelFor sched1 (index_object T3 b data_perm)
        (mkStore (replicate M []) (replicate W (replicate M [])) (replicate W 0))
      = Ok st1
    ∧ ParallelFor sched2 flush_and_sort st1 = Ok (store idx).
Proof.
  unfold CreateIndex. intros ([b q] & Hparams & H)%bind_Ok.
  apply bind_Ok in H as (st1 & H1 & H). apply bind_Ok in H as (st2 & H2 & [= <-]).
  simpl. by exists st1.
Qed.

Lemma bucket_postings_Permutation keys ids1 ids2 bucket :
  ids1 ≡ₚ ids2 → bucket_postings keys ids1 bucket ≡ₚ bucket_postings keys ids2 bucket.
Proof. intros H. unfold bucket_postings. by rewrite H. Qed.

Lemma bind_all_nil (tmps : list (list (list Z))) (M bucket : nat) :
  Forall (λ tmp, tmp = replicate M []) tmps →
  tmps ≫= (λ tmp, tmp !!! bucket) = [].
Proof.
  induction 1 as [|tmp tmps -> _ IH]; [done|].
  by rewrite bind_cons, IH, lookup_total_replicate_nil.
Qed.

(** The store after the two loops of [CreateIndex]. *)
Lemma CreateIndex_loops T3 (b : BuildParams) (data_perm : list Permutation)
    (sched1 sched2 : list (nat * nat)) (st1 st2 : Store) :
  let M := Z.to_nat (maxPostQty_ b) in
  let W := Z.to_nat (index_thread_qty_ b) in
  ParallelFor sched1 (index_object T3 b data_perm)
    (mkStore (replicate M []) (replicate W (replicate M [])) (replicate W 0)) = Ok st1 →
  ParallelFor sched2 flush_and_sort st1 = Ok st2 →
  store_wf M st2
  ∧ (∀ bucket, (bucket < M)%nat →
       bucket_content st2 bucket
       ≡ₚ bucket_postings (object_keys T3 b data_perm) sched1.*1 bucket)
  ∧ ∀ t tmp, tmp_posting_lists_ st2 !! t = Some tmp →
      t ∉ sched1.*2 ∨ t ∈ sched2.*2 → tmp = replicate M [].
Proof.
  intros M W H1 H2. unfold ParallelFor in *.
  set (keys := object_keys T3 b data_perm).
  pose (I1 := λ (done : list (nat * nat)) (st : Store),
    store_wf M st
    ∧ (∀ bucket, (bucket < M)%nat →
         bucket_content st bucket ≡ₚ bucket_postings keys done.*1 bucket)
    ∧ ∀ t tmp, tmp_posting_lists_ st !! t = Some tmp → t ∉ done.*2 →
        tmp = replicate M []).
  apply (foldM_prefix_invariant I1) in H1.
  2:{ split_and!; simpl.
      - split_and!; simpl; [by rewrite length_replicate| |by rewrite !length_replicate].
        apply Forall_replicate. by rewrite length_replicate.
      - intros bucket Hbucket. unfold bucket_content. simpl.
        rewrite lookup_total_replicate_nil.
        by rewrite (bind_all_nil _ M) by (by apply Forall_replicate).
      - by intros t tmp [-> _]%lookup_replicate _. }
  2:{ intros done [id t] rest st st' _ (Hwf & Hcont & Hidle) Hbody.
      apply index_object_spec in Hbody as (Hwf' & _ & Hother & Hcont'); [|done].
      split_and!; [done| |].
      - intros bucket Hbucket. rewrite fmap_app, bucket_postings_app.
        rewrite Hcont', Hcont by done. done.
      - intros t' tmp Htmp Ht'. rewrite fmap_app in Ht'. simpl in Ht'.
        apply not_elem_of_app in Ht' as [Ht'1 Ht'2].
        apply (Hidle t'); [|done]. rewrite <-Hother; [done|].
        intros ->. apply Ht'2. by left. }
  destruct H1 as (Hwf1 & Hcont1 & Hidle1).
  pose (I2 := λ (done : list (nat * nat)) (st : Store),
    store_wf M st
    ∧ (∀ bucket, (bucket < M)%nat →
         bucket_content st bucket ≡ₚ bucket_postings keys sched1.*1 bucket)
    ∧ ∀ t tmp, tmp_posting_lists_ st !! t = Some tmp →
        t ∉ sched1.*2 ∨ t ∈ done.*2 → tmp = replicate M []).
  apply (foldM_prefix_invariant I2) in H2; [done| |].
  - split_and!; [done..|]. intros t tmp Htmp [Ht|Ht]; [by eapply Hidle1|].
    by apply elem_of_nil in Ht.
  - intros done [pivId t] rest st st' _ (Hwf & Hcont & Hidle) Hbody.
    apply (flush_and_sort_spec M) in Hbody as (Hwf' & Htmps & Hlt & Hcont'); [|done].
    split_and!; [done| |].
    + intros bucket Hbucket. by rewrite Hcont', Hcont.
    + intros t' tmp Htmp Ht'. rewrite Htmps in Htmp.
      destruct (decide (t' = t)) as [->|Hne].
      * rewrite list_lookup_insert_eq in Htmp by done. by injection Htmp as <-.
      * rewrite list_lookup_insert_ne in Htmp by done. apply (Hidle t'); [done|].
        destruct Ht' as [?|Ht']; [by left|right].
        rewrite fmap_app in Ht'. apply elem_of_app in Ht' as [?|Ht']; [done|].
        simpl in Ht'. apply list_elem_of_singleton in Ht'. done.
Qed.

Lemma bucket_postings_singleton_eq keys id bucket :
  Forall (λ p, p = Z.of_nat id) (bucket_postings keys [id] bucket).
Proof.
  rewrite bucket_postings_singleton. induction (keys id) as [|k ks IH]; [constructor|].
  rewrite bind_cons. apply Forall_app. split; [|done].
  destruct (decide _); by repeat constructor.
Qed.

Lemma StronglySorted_all_eq (x : Z) (l : list Z) :
  Forall (λ p, p = x) l → StronglySorted Z.le l.
Proof.
  induction 1 as [|p l -> Hl IH]; constructor; [done|].
  eapply Forall_impl; [exact Hl|]. simpl. lia.
Qed.

(** The shared lists after one turn of the final loop. *)
Lemma flush_and_sort_inv (M pivId t : nat) (st st' : Store) :
  store_wf M st → flush_and_sort pivId t st = Ok st' →
  ∃ tmp, tmp_posting_lists_ st !! t = Some tmp
    ∧ (pivId < M)%nat
    ∧ ∀ bucket, (bucket < M)%nat →
        posting_lists_ st' !!! bucket
        = if decide (bucket = pivId)
          then integer_sort (posting_lists_ st !!! bucket ++ tmp !!! bucket)
          else posting_lists_ st !!! bucket ++ tmp !!! bucket.
Proof.
  intros Hwf. unfold flush_and_sort. intros (st1 & Hflush & H)%bind_Ok.
  apply bind_Ok in H as (oneList & Hone%at_Ok & [= <-]).
  apply (flushTmpPost_spec M) in Hflush as (tmp & Htmp & Hwf1 & Hpost & _); [|done].
  destruct Hwf1 as (Hp & _). exists tmp.
  assert (pivId < M)%nat as HpivId by (rewrite <-Hp; by eapply lookup_lt_Some).
  split_and!; [done..|].
  intros bucket Hbucket. simpl. destruct (decide (bucket = pivId)) as [->|].
  - rewrite list_lookup_total_insert_eq by lia.
    by rewrite <-Hpost, (list_lookup_total_correct _ _ _ Hone).
  - rewrite list_lookup_total_insert_ne by done. by apply Hpost.
Qed.

(** The two loops on one worker, the first in the order of the objects. *)
Lemma sequential_loops_postings_ok T3 (b : BuildParams) (data_perm : list Permutation)
    (sched2 : list (nat * nat)) (st1 st2 : Store) :
  let M := Z.to_nat (maxPostQty_ b) in
  let W := Z.to_nat (index_thread_qty_ b) in
  ParallelFor ((λ id, (id, 0%nat)) <$> seq 0 (length data_perm))
    (index_object T3 b data_perm)
    (mkStore (replicate M []) (replicate W (replicate M [])) (replicate W 0)) = Ok st1 →
  ParallelFor sched2 flush_and_sort st1 = Ok st2 →
  sched2 ≠ [] → Forall (λ it, it.2 = 0%nat) sched2 →
  postings_ok (length data_perm) (posting_lists_ st2).
Proof.
  intros M W H1 H2 Hne Hworkers.
  set (sched1 := (λ id, (id, 0%nat)) <$> seq 0 (length data_perm)) in *.
  assert (sched1 = (λ id, (id, 0%nat)) <$> seq 0 (length data_perm)) as Hsched1 by done.
  clearbody sched1.
  set (keys := object_keys T3 b data_perm).
  pose (good := λ (n : nat) (st : Store),
    store_wf M st
    ∧ ∀ bucket : nat, (bucket < M)%nat →
        let l := posting_lists_ st !!! bucket
                 ++ (tmp_posting_lists_ st !!! 0%nat) !!! bucket in
        StronglySorted Z.le l ∧ Forall (λ p, 0 ≤ p < Z.of_nat n) l).
  unfold ParallelFor in *.
  apply (foldM_prefix_invariant (λ done st, good (length done) st)) in H1.
  2:{ split.
      - split_and!; simpl; [by rewrite length_replicate| |by rewrite !length_replicate].
        apply Forall_replicate. by rewrite length_replicate.
      - intros bucket Hbucket. simpl. rewrite lookup_total_replicate_nil.
        assert ((replicate W (replicate M ([] : list Z)) !!! 0%nat) !!! bucket = []) as ->.
        { destruct W as [|W']; [done|].
          rewrite lookup_total_replicate_2 by lia. apply lookup_total_replicate_nil. }
        simpl. split; constructor. }
  2:{ intros done [id t] rest st st' Hdone [Hwf Hgood] Hbody.
      assert (id = length done ∧ t = 0%nat) as [-> ->].
      { assert (sched1 !! length done = Some (id, t)) as Hl.
        { rewrite Hdone. by apply list_lookup_middle. }
        rewrite Hsched1, list_lookup_fmap in Hl.
        destruct (seq 0 (length data_perm) !! length done) as [k|] eqn:Ek; [|done].
        apply lookup_seq in Ek as [-> _]. by injection Hl as <- <-. }
      pose proof Hbody as Hspec. apply index_object_spec in Hspec as [Hwf' _]; [|done].
      apply index_object_inv in Hbody
        as (tmp & tmp' & qtys & _ & _ & Htmp & Hlen & Hb & Hq & Hst').
      set (st_mid := mkStore _ _ _) in Hst'.
      rewrite length_app. simpl. split; [done|]. intros bucket Hbucket.
      specialize (Hgood bucket Hbucket) as [Hsorted Hrange]. simpl in Hsorted, Hrange.
      rewrite (list_lookup_total_correct _ _ _ Htmp) in Hsorted, Hrange.
      pose proof (bucket_postings_singleton_eq keys (length done) bucket) as Hnew.
      assert (posting_lists_ st' !!! bucket ++ (tmp_posting_lists_ st' !!! 0%nat) !!! bucket
              = (posting_lists_ st !!! bucket ++ tmp !!! bucket)
                ++ bucket_postings keys [length done] bucket) as ->.
      { destruct Hst' as [->|Hflush].
        - simpl. rewrite list_lookup_total_insert_eq by (by eapply lookup_lt_Some).
          by rewrite Hb, app_assoc.
        - assert (store_wf M st_mid) as Hmid.
          { destruct Hwf as (Hp & Ht & Hqq).
            split_and!; simpl; [done| |by rewrite length_insert; lia].
            apply Forall_insert; [done|]. rewrite Hlen.
            rewrite Forall_forall in Ht. apply Ht. by eapply list_elem_of_lookup_2. }
          apply (flushTmpPost_spec M) in Hflush
            as (tmp1 & Htmp1 & _ & Hpost & Htmps & _); [|done].
          simpl in Htmp1. rewrite list_lookup_insert_eq in Htmp1 by (by eapply lookup_lt_Some).
          injection Htmp1 as <-.
          rewrite Hpost, Htmps by done. simpl.
          rewrite list_lookup_total_insert_eq
            by (rewrite length_insert; by eapply lookup_lt_Some).
          rewrite lookup_total_replicate_nil, app_nil_r. by rewrite Hb, app_assoc. }
      split.
      - apply StronglySorted_app.
        split_and!; [|done|exact (StronglySorted_all_eq _ _ Hnew)].
        intros x1 x2 Hx1 Hx2. rewrite Forall_forall in Hrange, Hnew.
        rewrite (Hnew x2 Hx2). specialize (Hrange x1 Hx1). lia.
      - apply Forall_app. split.
        + eapply Forall_impl; [exact Hrange|]. simpl. lia.
        + eapply Forall_impl; [exact Hnew|]. simpl. lia. }
  assert (length sched1 = length data_perm) as Hlen1.
  { by rewrite Hsched1, length_fmap, length_seq. }
  rewrite Hlen1 in H1.
  pose (I2 := λ (done : list (nat * nat)) (st : Store),
    good (length data_perm) st
    ∧ (done ≠ [] → tmp_posting_lists_ st !! 0%nat = Some (replicate M []))).
  apply (foldM_prefix_invariant I2) in H2; [| |].
  - destruct H2 as [[(Hlen & _) Hgood] Hflushed]. specialize (Hflushed Hne).
    unfold postings_ok. apply Forall_lookup. intros bucket post Hpost.
    assert (bucket < M)%nat as Hbucket by (rewrite <-Hlen; by eapply lookup_lt_Some).
    specialize (Hgood bucket Hbucket) as [Hsorted Hrange]. simpl in Hsorted, Hrange.
    rewrite (list_lookup_total_correct _ _ _ Hflushed) in Hsorted, Hrange.
    rewrite lookup_total_replicate_nil, app_nil_r in Hsorted, Hrange.
    rewrite (list_lookup_total_correct _ _ _ Hpost) in Hsorted, Hrange.
    split; [by apply StronglySorted_Sorted|done].
  - by split.
  - intros done [pivId t] rest st st' Hdone [[Hwf Hgood] _] Hbody.
    assert (t = 0%nat) as ->.
    { rewrite Forall_forall in Hworkers.
      specialize (Hworkers (pivId, t)). simpl in Hworkers.
      apply Hworkers. rewrite Hdone. apply elem_of_app. right. by left. }
    pose proof Hbody as Hspec.
    apply (flush_and_sort_spec M) in Hspec as (Hwf' & Htmps & Hlt & _); [|done].
    apply (flush_and_sort_inv M) in Hbody as (tmp & Htmp & HpivId & Hpost); [|done].
    assert (tmp_posting_lists_ st' !! 0%nat = Some (replicate M [])) as Hflushed.
    { rewrite Htmps. by apply list_lookup_insert_eq. }
    split; [|done]. split; [done|]. intros bucket Hbucket.
    specialize (Hgood bucket Hbucket) as [Hsorted Hrange]. simpl in Hsorted, Hrange.
    rewrite (list_lookup_total_correct _ _ _ Htmp) in Hsorted, Hrange.
    simpl. rewrite (list_lookup_total_correct _ _ _ Hflushed).
    rewrite lookup_total_replicate_nil, app_nil_r, Hpost by done.
    destruct (decide (bucket = pivId)) as [->|]; [|done].
    unfold integer_sort. split.
    + apply StronglySorted_merge_sort; apply _.
    + by rewrite merge_sort_Permutation.
Qed.

(** X9. A build whose first loop takes the objects in order on one worker
    leaves every posting list ascending, with positions of [data_] only. *)
Theorem CreateIndex_sequential_postings_ok
    (T3 : Z → Z → Z → Z) (hardware_concurrency : Z) (data_perm : list Permutation)
    (IndexParams : AnyParams) (sched1 sched2 : list (nat * nat)) (idx : Index) :
  CreateIndex T3 hardware_concurrency data_perm IndexParams sched1 sched2 = Ok idx →
  sched1 = (λ id, (id, 0%nat)) <$> seq 0 (length data_perm) →
  admissible 0 (Z.to_nat (num_pivot_ (bparams idx))) 1 sched2 →
  postings_ok (data_qty idx) (posting_lists_ (store idx)).
Proof.
  intros (st1 & Hparams & Hqty & H1 & H2)%CreateIndex_Ok Hsched1 [Hitems Hworkers].
  rewrite Hqty. rewrite Hsched1 in H1.
  apply (sequential_loops_postings_ok _ _ _ _ _ _ H1 H2).
  - intros ->. apply Permutation_nil_l in Hitems.
    apply CreateIndex_params_Ok in Hparams as (_ & Hskip & Hnp & _ & Hmax & Hnz & _).
    assert (Z.to_nat (num_pivot_ (bparams idx)) - 0 = 0)%nat as Hz.
    { destruct (Z.to_nat (num_pivot_ (bparams idx)) - 0)%nat; [done|discriminate]. }
    apply Hnz. rewrite Hmax.
    assert (num_pivot_ (bparams idx) = 0) as -> by lia. simpl.
    apply Z.div_small. lia.
  - eapply Forall_impl; [exact Hworkers|]. simpl. lia.
Qed.

Lemma CreateIndex_sequential_postings_ok_witness :
  let data_perm := [[0; 1; 2; 3]; [3; 2; 1; 0]; [1; 0; 3; 2]] in
  let IndexParams :=
    [("numPivot", PNum 4); ("numPrefix", PNum 3); ("indexThreadQty", PNum 1)] in
  let sched1 := [(0, 0); (1, 0); (2, 0)]%nat in
  let sched2 := [(3, 0); (1, 0); (0, 0); (2, 0)]%nat in
  ∃ idx, CreateIndex (λ _ _ _, 0) 8 data_perm IndexParams sched1 sched2 = Ok idx
    ∧ postings_ok (data_qty idx) (posting_lists_ (store idx)).
Proof.
  cbv zeta. eexists. split; [vm_compute; reflexivity|].
  eapply (CreateIndex_sequential_postings_ok (λ _ _ _, 0) 8
            [[0; 1; 2; 3]; [3; 2; 1; 0]; [1; 0; 3; 2]]
            [("numPivot", PNum 4); ("numPrefix", PNum 3); ("indexThreadQty", PNum 1)]
            [(0, 0); (1, 0); (2, 0)]%nat [(3, 0); (1, 0); (0, 0); (2, 0)]%nat).
  - vm_compute. reflexivity.
  - reflexivity.
  - split.
    + change ([3; 1; 0; 2]%nat ≡ₚ [0; 1; 2; 3]%nat).
      apply (Permutation_cons_app (0 :: 1 :: 2 :: nil)%nat nil 3%nat).
      simpl. apply perm_swap.
    + repeat constructor.
Defined.

(** ** When the build succeeds *)

Lemma foldM_Ok_invariant {A St} (I : St → Prop) (body : A → St → Res St)
    (l : list A) (s : St) :
  (∀ a s, a ∈ l → I s → ∃ s', body a s = Ok s' ∧ I s') →
  I s → ∃ s', foldM body l s = Ok s' ∧ I s'.
Proof.
  revert s. induction l as [|a l IH]; intros s Hstep Hs; simpl; [by exists s|].
  destruct (Hstep a s) as (s1 & -> & Hs1); [by left|done|]. cbn [bind].
  apply IH; [|done]. intros a' s' Ha'. apply Hstep. by right.
Qed.

Lemma foldM_Err {A St} (body : A → St → Res St) (l : list A) (s : St) (e : error) :
  foldM body l s = Err e → ∃ a s0, a ∈ l ∧ body a s0 = Err e.
Proof.
  revert s. induction l as [|a l IH]; intros s; simpl; [done|].
  destruct (body a s) as [s1|e1] eqn:E; simpl.
  - intros (a' & s0 & Ha' & H)%IH. exists a', s0. split; [by right|done].
  - intros [= ->]. exists a, s. split; [by left|done].
Qed.

(** The encoder for pairs, on a prefix of a list of pivot indices. *)
Lemma genPivotCombIds_pairs_emitted T3 (skip_val : Z) (ids : list Z) (π : list Z)
    (P : nat) (num_pivot : Z) :
  0 < skip_val → (P ≤ length π)%nat → num_pivot ≤ 2 ^ 16 →
  Forall (λ p, 0 ≤ p < num_pivot) π →
  ∃ r, genPivotCombIds T3 2 skip_val ids π P = Ok r
    ∧ emitted r = pair_keys skip_val π P.
Proof.
  intros Hskip HP HN Hπ. unfold genPivotCombIds. cbn [bind CHECK].
  rewrite (decide_False (P := 2 = 1)), (decide_True (P := 2 = 2)) by done.
  simpl bool_decide. unfold CHECK. cbn [andb bind].
  assert (∀ i, (i < length π)%nat → 0 ≤ π !!! i < 2 ^ 16) as Hin.
  { intros i Hi. rewrite Forall_lookup in Hπ.
    specialize (Hπ i (π !!! i) (list_lookup_lookup_total_lt _ _ Hi)). simpl in Hπ. lia. }
  lazymatch goal with
  | |- context [foldM ?body (seq 1 (P - 1)) ?st] =>
      destruct (foldM_emitted body
        (λ b, a ← seq 0 b; skip_filter skip_val (PAIR (π !!! b) (π !!! a)))
        (seq 1 (P - 1)) st) as (r & -> & _ & Hem)
  end.
  - intros j st [? ?]%elem_of_seq Hst.
    apply foldM_emitted; [|done]. intros k st' [? ?]%elem_of_seq Hst'.
    rewrite !at_lookup_total by lia. cbn [bind].
    unfold div_, mod_. rewrite !decide_False by lia. cbn [bind].
    eexists. split; [done|].
    pose proof (PAIR_bound _ _ (Hin j ltac:(lia)) (Hin k ltac:(lia))) as Hb.
    lazymatch goal with
    | |- context [emit ?idiv ?imod st'] =>
        destruct (emit_emitted idiv imod st' Hst') as [Hle' Hem']
    end.
    split; [done|]. rewrite Hem'. f_equal. unfold skip_filter.
    rewrite !PostingListIndex_PAIR. rewrite u32_small; [done|].
    split; [apply Z.div_pos; lia|]. apply Z.div_lt_upper_bound; nia.
  - simpl. lia.
  - exists r. split; [done|]. rewrite Hem. unfold emitted at 1. simpl.
    by rewrite seq_bind_skip_first.
Qed.

Lemma twice_half_product (m : Z) : 2 * (m * (m - 1) / 2) = m * (m - 1).
Proof.
  pose proof (Z.div_mod (m * (m - 1)) 2 ltac:(lia)) as Hdm.
  assert (m * (m - 1) mod 2 = 0); [|lia].
  pose proof (Z.div_mod m 2 ltac:(lia)) as Hm.
  pose proof (Z.mod_pos_bound m 2 ltac:(lia)) as Hr.
  assert (m mod 2 = 0 ∨ m mod 2 = 1) as [E|E] by lia.
  - replace (m * (m - 1)) with ((m / 2 * (m - 1)) * 2) by lia. apply Z.mod_mul. lia.
  - replace (m * (m - 1)) with ((m * (m / 2)) * 2) by lia. apply Z.mod_mul. lia.
Qed.

(** The index of a pair of different pivots is below the number of pairs. *)
Lemma PAIR_lt_pairs (x y N : Z) :
  0 ≤ x < N → 0 ≤ y < N → x ≠ y → 0 ≤ 2 * PAIR x y ≤ N * (N - 1) - 2.
Proof.
  intros Hx Hy Hne. unfold PAIR.
  pose proof (twice_half_product (Z.max x y)) as Hh.
  assert (Z.min x y + 1 ≤ Z.max x y) by lia.
  assert (Z.max x y ≤ N - 1) by lia. assert (0 ≤ Z.min x y) by lia.
  nia.
Qed.

(** The keys of a prefix of a permutation of the pivots are bucket ids. *)
Lemma pair_keys_range (skip_val N : Z) (π : list Z) (P : nat) (key : Z) :
  0 < skip_val → (P ≤ length π)%nat → NoDup π → Forall (λ p, 0 ≤ p < N) π →
  key ∈ pair_keys skip_val π P →
  0 ≤ key < (N * (N - 1) + 2 * skip_val - 1) / (2 * skip_val).
Proof.
  intros Hskip HP Hnd Hπ. unfold pair_keys.
  intros (b & (a & Hkey & [_ Ha]%elem_of_seq)%list_elem_of_bind
            & [_ Hb]%elem_of_seq)%list_elem_of_bind.
  unfold skip_filter in Hkey. destruct (decide _) as [Hmod|]; [|by apply elem_of_nil in Hkey].
  apply list_elem_of_singleton in Hkey as ->.
  assert (∀ i, (i < length π)%nat → 0 ≤ π !!! i < N) as Hin.
  { intros i Hi. rewrite Forall_lookup in Hπ.
    apply (Hπ i (π !!! i) (list_lookup_lookup_total_lt _ _ Hi)). }
  assert (π !!! b ≠ π !!! a) as Hne.
  { intros Heq. assert (b = a); [|lia].
    apply (NoDup_lookup π b a (π !!! b)); [done|..].
    - apply list_lookup_lookup_total_lt. lia.
    - rewrite Heq. apply list_lookup_lookup_total_lt. lia. }
  pose proof (PAIR_lt_pairs _ _ N (Hin b ltac:(lia)) (Hin a ltac:(lia)) Hne) as Hp.
  set (idx := PAIR (π !!! b) (π !!! a)) in *.
  pose proof (Z.div_mod idx skip_val ltac:(lia)) as Hdm. rewrite Hmod in Hdm.
  split; [apply Z.div_pos; lia|].
  assert (idx / skip_val + 1 ≤ (N * (N - 1) + 2 * skip_val - 1) / (2 * skip_val));
    [|lia].
  apply Z.div_le_lower_bound; [lia|]. nia.
Qed.

Lemma push_keys_Ok (M id : Z) (keys : list Z) (postList : list (list Z)) :
  Forall (λ k, 0 ≤ k < M) keys → length postList = Z.to_nat M →
  ∃ postList',
    foldM (λ cid postList,
        do _ <- CHECK (bool_decide (cid < M)) "cid < maxPostQty_";
        do l <- at_ postList (Z.to_nat cid);
        Ok (<[Z.to_nat cid := l ++ [id]]> postList))
      keys postList = Ok postList'.
Proof.
  intros Hkeys. revert postList.
  induction Hkeys as [|cid keys Hcid _ IH]; intros postList Hlen; cbn [foldM].
  - by exists postList.
  - unfold CHECK. rewrite bool_decide_eq_true_2 by lia. cbn [bind].
    destruct (lookup_lt_is_Some_2 postList (Z.to_nat cid)) as [l Hl]; [lia|].
    unfold at_. rewrite Hl. cbn [bind]. apply IH. by rewrite length_insert.
Qed.

Lemma at_Some {A} (v : list A) (i : nat) (x : A) : v !! i = Some x → at_ v i = Ok x.
Proof. unfold at_. by intros ->. Qed.

Lemma flushTmpPost_Ok (t : nat) (st : Store) :
  (t < length (tmp_posting_lists_ st))%nat → (t < length (tmp_post_doc_qty_ st))%nat →
  ∃ st', flushTmpPost t st = Ok st'.
Proof.
  intros [tmp Htmp]%lookup_lt_is_Some_2 [qty Hqty]%lookup_lt_is_Some_2.
  unfold flushTmpPost, at_. rewrite Htmp, Hqty. cbn [bind]. by eexists.
Qed.

Lemma perms_ok_lookup (num_pivot : Z) (data_perm : list Permutation) (id : nat) perm :
  perms_ok num_pivot data_perm → data_perm !! id = Some perm →
  length perm = Z.to_nat num_pivot ∧ NoDup perm ∧ Forall (λ p, 0 ≤ p < num_pivot) perm.
Proof.
  intros Hperms Hperm. unfold perms_ok in Hperms. rewrite Forall_lookup in Hperms.
  specialize (Hperms id perm Hperm). simpl in Hperms. split_and!.
  - by rewrite Hperms, length_fmap, length_seq.
  - rewrite Hperms. apply NoDup_fmap_2; [|apply NoDup_seq]. intros x y. lia.
  - rewrite Hperms. apply Forall_fmap, Forall_forall.
    intros i [_ Hi]%elem_of_seq. simpl. lia.
Qed.

Section BuildSucceeds.

Context (T3 : Z → Z → Z → Z) (b : BuildParams) (data_perm : list Permutation).

Local Abbreviation M := (Z.to_nat (maxPostQty_ b)).
Local Abbreviation W := (Z.to_nat (index_thread_qty_ b)).

Hypothesis Hk : pivot_comb_qty_ b = 2.
Hypothesis Hskip : 0 < skip_val_ b.
Hypothesis Hprefix : 0 ≤ num_prefix_ b ≤ num_pivot_ b.
Hypothesis Hpivots : num_pivot_ b ≤ 2 ^ 16.
Hypothesis Hmax :
  maxPostQty_ b
  = (num_pivot_ b * (num_pivot_ b - 1) + 2 * skip_val_ b - 1) / (2 * skip_val_ b).
Hypothesis Hperms : perms_ok (num_pivot_ b) data_perm.

(** A turn of the first loop succeeds. *)
Lemma index_object_Ok (id t : nat) (st : Store) :
  (id < length data_perm)%nat → (t < W)%nat →
  store_wf M st → length (tmp_posting_lists_ st) = W →
  ∃ st', index_object T3 b data_perm id t st = Ok st'.
Proof.
  intros [perm Hperm]%lookup_lt_is_Some_2 Ht (Hp & Htmps & Hq) HW.
  destruct (perms_ok_lookup _ _ _ _ Hperms Hperm) as (Hlen & Hnd & Hrange).
  unfold index_object. rewrite (at_Some _ _ _ Hperm). cbn [bind].
  unfold CHECK at 1. rewrite bool_decide_eq_true_2 by lia. cbn [bind].
  rewrite Hk.
  destruct (genPivotCombIds_pairs_emitted T3 (skip_val_ b) (replicate M 0) perm
              (Z.to_nat (num_prefix_ b)) (num_pivot_ b))
    as ([combIds cqty] & Hgen & Hem); [done|lia|done|done|].
  rewrite Hgen. cbn [bind].
  destruct (genPivotCombIds_emitted_wf _ _ _ _ _ _ _ Hgen) as [Hle _]. simpl in Hle.
  unfold emitted in Hem. simpl in Hem.
  destruct (lookup_lt_is_Some_2 (tmp_posting_lists_ st) t) as [tmp Htmp]; [lia|].
  rewrite (at_Some _ _ _ Htmp). cbn [bind].
  assert (length (take cqty combIds) = cqty) as Hlenk by (rewrite length_take; lia).
  replace (seq 0 cqty) with (seq 0 (length (take cqty combIds))) by (by rewrite Hlenk).
  rewrite (foldM_seq_lookup (at_ combIds)
             (λ cid postList,
                do _ <- CHECK (bool_decide (cid < maxPostQty_ b)) "cid < maxPostQty_";
                do l <- at_ postList (Z.to_nat cid);
                Ok (<[Z.to_nat cid := l ++ [Z.of_nat id]]> postList))).
  2:{ intros kk a Hkk. simpl. apply lookup_take_Some in Hkk as [Hkk _].
      unfold at_. by rewrite Hkk. }
  destruct (push_keys_Ok (maxPostQty_ b) (Z.of_nat id) (take cqty combIds) tmp)
    as [tmp' ->].
  { rewrite Hem. apply Forall_forall. intros key Hkey. rewrite Hmax.
    apply (pair_keys_range _ _ perm (Z.to_nat (num_prefix_ b))); [done|lia|done..]. }
  { rewrite Forall_forall in Htmps. apply Htmps. by eapply list_elem_of_lookup_2. }
  cbn [bind].
  destruct (lookup_lt_is_Some_2 (tmp_post_doc_qty_ st) t) as [qty Hqty]; [lia|].
  rewrite (at_Some _ _ _ Hqty). cbn [bind].
  destruct (bool_decide (MAX_TMP_DOC_QTY ≤ qty + 1)); [|by eexists].
  apply flushTmpPost_Ok; simpl; rewrite length_insert; lia.
Qed.

(** The first loop succeeds on an admissible schedule. *)
Lemma index_loop_Ok (sched1 : list (nat * nat)) :
  admissible 0 (length data_perm) W sched1 →
  ∃ st1,
    ParallelFor sched1 (index_object T3 b data_perm)
      (mkStore (replicate M []) (replicate W (replicate M [])) (replicate W 0)) = Ok st1
    ∧ store_wf M st1 ∧ length (tmp_posting_lists_ st1) = W.
Proof.
  intros [Hitems Hworkers]. unfold ParallelFor.
  apply (foldM_Ok_invariant
           (λ st, store_wf M st ∧ length (tmp_posting_lists_ st) = W)).
  - intros [id t] st Hin [Hwf HW].
    assert (id < length data_perm)%nat as Hid.
    { apply (list_elem_of_fmap_2 fst) in Hin. rewrite Hitems in Hin.
      apply elem_of_seq in Hin. simpl in Hin. lia. }
    assert (t < W)%nat as Ht.
    { rewrite Forall_forall in Hworkers. apply (Hworkers _ Hin). }
    destruct (index_object_Ok id t st Hid Ht Hwf HW) as [st' Hst'].
    exists st'. split; [done|].
    apply index_object_spec in Hst' as (Hwf' & Hlen & _); [|done].
    split; [done|lia].
  - split; [|simpl; by rewrite length_replicate].
    split_and!; simpl; [by rewrite length_replicate| |by rewrite !length_replicate].
    apply Forall_replicate. by rewrite length_replicate.
Qed.

End BuildSucceeds.

Lemma flush_and_sort_Ok (M pivId t : nat) (st : Store) :
  store_wf M st → (t < length (tmp_posting_lists_ st))%nat → (pivId < M)%nat →
  ∃ st', flush_and_sort pivId t st = Ok st'.
Proof.
  intros Hwf Ht HpivId. unfold flush_and_sort.
  destruct (flushTmpPost_Ok t st) as [st1 Hst1]; [done|destruct Hwf as (_ & _ & ->); done|].
  rewrite Hst1. cbn [bind].
  apply (flushTmpPost_spec M) in Hst1 as (_ & _ & (Hp & _) & _); [|done].
  destruct (lookup_lt_is_Some_2 (posting_lists_ st1) pivId) as [oneList Hone]; [lia|].
  rewrite (at_Some _ _ _ Hone). cbn [bind]. by eexists.
Qed.

Lemma at_Err {A} (v : list A) (i : nat) (e : error) :
  at_ v i = Err e → e = undefined_behaviour "vector index out of range".
Proof. unfold at_. destruct (v !! i); [done|]. by intros [= <-]. Qed.

(** The final loop can only fail by indexing past the end of a vector. *)
Lemma flush_and_sort_Err (pivId t : nat) (st : Store) (e : error) :
  flush_and_sort pivId t st = Err e →
  e = undefined_behaviour "vector index out of range".
Proof.
  unfold flush_and_sort, flushTmpPost.
  destruct (at_ (tmp_posting_lists_ st) t) as [tmp|e1] eqn:E1; cbn [bind];
    [|intros [= <-]; by eapply at_Err].
  destruct (at_ (tmp_post_doc_qty_ st) t) as [qty|e2] eqn:E2; cbn [bind];
    [|intros [= <-]; by eapply at_Err].
  simpl. destruct (at_ _ pivId) as [oneList|e3] eqn:E3; cbn [bind]; [done|].
  intros [= <-]. by eapply at_Err.
Qed.

(** ** The build on one worker *)

(** [CreateIndex] reads its parameters, fills the store and returns. *)
Lemma CreateIndex_build_store T3 hardware_concurrency data_perm IndexParams sched1 sched2 :
  CreateIndex T3 hardware_concurrency data_perm IndexParams sched1 sched2
  = do '(b, q) <- CreateIndex_params hardware_concurrency (Z.of_nat (length data_perm))
                    IndexParams;
    do st <- CreateIndex_build T3 b data_perm sched1 sched2;
    Ok (mkIndex (length data_perm) b q st).
Proof.
  unfold CreateIndex, CreateIndex_build.
  destruct (CreateIndex_params _ _ _) as [[b q]|e]; cbn [bind]; [|done].
  by destruct (ParallelFor sched1 _ _) as [st1|e]; cbn [bind].
Qed.

(** X10. With accepted parameters, one indexing thread, at most 2^16 pivots,
    no more pivots than buckets and, for every object, a permutation of the
    pivot indices, the set-up of the store and the two loops of [CreateIndex]
    (source lines 138-201) end without an exception: no key fails the check
    [cid < maxPostQty_] and no vector is indexed outside its range. *)
Theorem CreateIndex_build_succeeds
    (T3 : Z → Z → Z → Z) (hardware_concurrency : Z) (data_perm : list Permutation)
    (IndexParams : AnyParams) (sched2 : list (nat * nat))
    (b : BuildParams) (q : QueryParams) :
  CreateIndex_params hardware_concurrency (Z.of_nat (length data_perm)) IndexParams
  = Ok (b, q) →
  index_thread_qty_ b = 1 →
  num_pivot_ b ≤ 2 ^ 16 →
  num_pivot_ b ≤ maxPostQty_ b →
  perms_ok (num_pivot_ b) data_perm →
  admissible 0 (Z.to_nat (num_pivot_ b)) 1 sched2 →
  ∃ st, CreateIndex_build T3 b data_perm (one_worker 0 (length data_perm)) sched2 = Ok st
    ∧ length (posting_lists_ st) = Z.to_nat (maxPostQty_ b).
Proof.
  intros Hparams Hone Hpivots Hbuckets Hperms [Hitems Hworkers].
  destruct (CreateIndex_params_Ok _ _ _ _ _ Hparams)
    as (Hk & Hskip & Hprefix & _ & Hmax & _ & _).
  assert (admissible 0 (length data_perm) (Z.to_nat (index_thread_qty_ b))
            (one_worker 0 (length data_perm))) as Hsched1.
  { unfold one_worker. split.
    - rewrite <-list_fmap_compose. by rewrite list_fmap_id.
    - apply Forall_fmap, Forall_forall. intros id _. simpl. lia. }
  destruct (index_loop_Ok T3 b data_perm Hk ltac:(lia) Hprefix Hpivots Hmax Hperms
              _ Hsched1) as (st1 & H1 & Hwf1 & HW1).
  unfold CreateIndex_build. rewrite H1. cbn [bind]. unfold ParallelFor.
  destruct (foldM_Ok_invariant
              (λ st, store_wf (Z.to_nat (maxPostQty_ b)) st
                     ∧ length (tmp_posting_lists_ st) = Z.to_nat (index_thread_qty_ b))
              (λ '(item, threadId) s, flush_and_sort item threadId s) sched2 st1)
    as (st2 & -> & [(Hlen & _) _]); [|done|by exists st2].
  intros [pivId t] st Hin [Hwf HW].
  assert (pivId < Z.to_nat (maxPostQty_ b))%nat as HpivId.
  { apply (list_elem_of_fmap_2 fst) in Hin. rewrite Hitems in Hin.
    apply elem_of_seq in Hin. simpl in Hin. lia. }
  assert (t < Z.to_nat (index_thread_qty_ b))%nat as Ht.
  { rewrite Forall_forall in Hworkers. specialize (Hworkers _ Hin). simpl in Hworkers. lia. }
  destruct (flush_and_sort_Ok _ pivId t st Hwf ltac:(lia) HpivId) as [st' Hst'].
  exists st'. split; [done|].
  apply (flush_and_sort_spec (Z.to_nat (maxPostQty_ b))) in Hst'
    as (Hwf' & Htmps & _ & _); [|done].
  split; [done|]. by rewrite Htmps, length_insert.
Qed.

Lemma CreateIndex_build_succeeds_witness :
  let data_perm := [[0; 1; 2; 3]; [3; 2; 1; 0]; [1; 0; 3; 2]] in
  ∃ b q st,
    CreateIndex_params 8 3
      [("numPivot", PNum 4); ("numPrefix", PNum 3); ("indexThreadQty", PNum 1)]
    = Ok (b, q)
    ∧ CreateIndex_build (λ _ _ _, 0) b data_perm (one_worker 0 3)
        [(3, 0); (1, 0); (0, 0); (2, 0)]%nat = Ok st
    ∧ length (posting_lists_ st) = Z.to_nat (maxPostQty_ b).
Proof.
  cbv zeta. do 2 eexists.
  assert (CreateIndex_params 8 3
            [("numPivot", PNum 4); ("numPrefix", PNum 3); ("indexThreadQty", PNum 1)]
          = Ok (mkBuildParams 4 3 1 false 0 "" 1 2 false 6 1 3,
                mkQueryParams false kStoreSort 2 3)) as Hparams.
  { vm_compute. reflexivity. }
  assert (∃ st, CreateIndex_build (λ _ _ _, 0) (mkBuildParams 4 3 1 false 0 "" 1 2 false 6 1 3)
                  [[0; 1; 2; 3]; [3; 2; 1; 0]; [1; 0; 3; 2]] (one_worker 0 3)
                  [(3, 0); (1, 0); (0, 0); (2, 0)]%nat = Ok st
            ∧ length (posting_lists_ st) = 6%nat) as (st & Hst & Hlen).
  { apply (CreateIndex_build_succeeds (λ _ _ _, 0) 8
             [[0; 1; 2; 3]; [3; 2; 1; 0]; [1; 0; 3; 2]]
             [("numPivot", PNum 4); ("numPrefix", PNum 3); ("indexThreadQty", PNum 1)]
             [(3, 0); (1, 0); (0, 0); (2, 0)]%nat
             (mkBuildParams 4 3 1 false 0 "" 1 2 false 6 1 3)
             (mkQueryParams false kStoreSort 2 3)).
    - exact Hparams.
    - reflexivity.
    - simpl. lia.
    - simpl. lia.
    - unfold perms_ok. simpl.
      apply Forall_cons. split; [done|]. apply Forall_cons. split; [|apply Forall_cons; split].
      + apply (Permutation_cons_app (0 :: 1 :: 2 :: nil) nil 3).
        apply (Permutation_cons_app (0 :: 1 :: nil) nil 2).
        apply perm_swap.
      + etrans; [apply perm_swap|]. do 2 apply perm_skip. apply perm_swap.
      + constructor.
    - split; [|repeat constructor]. simpl.
      apply (Permutation_cons_app (0 :: 1 :: 2 :: nil)%nat nil 3%nat).
      apply (Permutation_cons_app (0 :: nil)%nat (2 :: nil)%nat 1%nat). done. }
  exists st. split; [exact Hparams|]. split; [exact Hst|exact Hlen].
Defined.

(** X11. With fewer buckets than pivots, the final loop of a build that is
    otherwise in order reads [posting_lists_] past its end: [pivId] runs
    over the pivots, not over the buckets. *)
Theorem CreateIndex_final_loop_out_of_range
    (T3 : Z → Z → Z → Z) (hardware_concurrency : Z) (data_perm : list Permutation)
    (IndexParams : AnyParams) (sched1 sched2 : list (nat * nat))
    (b : BuildParams) (q : QueryParams) :
  CreateIndex_params hardware_concurrency (Z.of_nat (length data_perm)) IndexParams
  = Ok (b, q) →
  num_pivot_ b ≤ 2 ^ 16 →
  maxPostQty_ b < num_pivot_ b →
  perms_ok (num_pivot_ b) data_perm →
  admissible 0 (length data_perm) (Z.to_nat (index_thread_qty_ b)) sched1 →
  admissible 0 (Z.to_nat (num_pivot_ b)) (Z.to_nat (index_thread_qty_ b)) sched2 →
  CreateIndex T3 hardware_concurrency data_perm IndexParams sched1 sched2
  = Err (undefined_behaviour "vector index out of range").
Proof.
  intros Hparams Hpivots Hbuckets Hperms Hsched1 [Hitems Hworkers].
  destruct (CreateIndex_params_Ok _ _ _ _ _ Hparams)
    as (Hk & Hskip & Hprefix & _ & Hmax & _ & _).
  destruct (index_loop_Ok T3 b data_perm Hk ltac:(lia) Hprefix Hpivots Hmax Hperms
              sched1 Hsched1) as (st1 & H1 & Hwf1 & HW1).
  unfold CreateIndex. rewrite Hparams. cbn [bind]. rewrite H1. cbn [bind].
  unfold ParallelFor.
  destruct (foldM _ sched2 st1) as [st2|e] eqn:H2; cbn [bind].
  - exfalso.
    apply (foldM_prefix_invariant
             (λ done st, store_wf (Z.to_nat (maxPostQty_ b)) st
                         ∧ Forall (λ it, it.1 < Z.to_nat (maxPostQty_ b))%nat done))
      in H2 as [_ Hall]; [|by split|].
    + assert (Z.to_nat (maxPostQty_ b) ∈ sched2.*1) as Hin.
      { rewrite Hitems. apply elem_of_seq.
        assert (0 ≤ maxPostQty_ b); [|lia].
        rewrite Hmax. apply Z.div_pos; nia. }
      apply list_elem_of_fmap in Hin as ([pivId t] & HpivId & Hin).
      rewrite Forall_forall in Hall. specialize (Hall _ Hin). simpl in *. lia.
    + intros done [pivId t] rest st st' _ [Hwf Hdone] Hbody.
      pose proof Hbody as Hspec.
      apply (flush_and_sort_spec (Z.to_nat (maxPostQty_ b))) in Hspec as (Hwf' & _); [|done].
      apply (flush_and_sort_inv (Z.to_nat (maxPostQty_ b))) in Hbody
        as (_ & _ & HpivId & _); [|done].
      split; [done|]. apply Forall_app. split; [done|]. by repeat constructor.
  - apply foldM_Err in H2 as ([pivId t] & st0 & _ & Hbody).
    by apply flush_and_sort_Err in Hbody as ->.
Qed.

Lemma CreateIndex_final_loop_out_of_range_witness :
  CreateIndex (λ _ _ _, 0) 8 [[1; 0]; [0; 1]]
    [("numPivot", PNum 2); ("numPrefix", PNum 2); ("indexThreadQty", PNum 1)]
    [(0, 0); (1, 0)]%nat [(0, 0); (1, 0)]%nat
  = Err (undefined_behaviour "vector index out of range").
Proof.
  apply (CreateIndex_final_loop_out_of_range (λ _ _ _, 0) 8 [[1; 0]; [0; 1]]
           [("numPivot", PNum 2); ("numPrefix", PNum 2); ("indexThreadQty", PNum 1)]
           [(0, 0); (1, 0)]%nat [(0, 0); (1, 0)]%nat
           (mkBuildParams 2 2 1 false 0 "" 1 2 false 1 2 2)
           (mkQueryParams false kStoreSort 2 2)).
  - vm_compute. reflexivity.
  - simpl. lia.
  - simpl. lia.
  - unfold perms_ok. simpl.
    apply Forall_cons. split; [apply perm_swap|]. apply Forall_cons. split; [done|constructor].
  - split; [done|]. simpl. repeat constructor.
  - split; [done|]. simpl. repeat constructor.
Defined.

(** X12. An index that [CreateIndex] has built combines pivots in pairs, has
    a skip value of at least 1, at least two pivots, a prefix no longer than
    the number of pivots and at least one bucket; its query-time parameters
    are the defaults: store-and-sort, [minTimes] 2 and a search prefix as
    long as the indexed one. *)
Theorem CreateIndex_accepted_parameters
    (T3 : Z → Z → Z → Z) (hardware_concurrency : Z) (data_perm : list Permutation)
    (IndexParams : AnyParams) (sched1 sched2 : list (nat * nat)) (idx : Index) :
  CreateIndex T3 hardware_concurrency data_perm IndexParams sched1 sched2 = Ok idx →
  let b := bparams idx in
  pivot_comb_qty_ b = 2
  ∧ 1 ≤ skip_val_ b
  ∧ 2 ≤ num_pivot_ b
  ∧ 0 ≤ num_prefix_ b ≤ num_pivot_ b
  ∧ 1 ≤ maxPostQty_ b
  ∧ qparams idx = mkQueryParams false kStoreSort 2 (num_prefix_ b)
  ∧ data_qty idx = length data_perm.
Proof.
  intros (st1 & Hparams & Hqty & _)%CreateIndex_Ok b. fold b in Hparams.
  apply CreateIndex_params_Ok in Hparams as (Hk & Hskip & Hprefix & _ & Hmax & Hnz & Hq).
  assert (0 ≤ maxPostQty_ b) as Hge by (rewrite Hmax; apply Z.div_pos; nia).
  split_and!; [done|lia| |lia|lia|lia|done|done].
  destruct (decide (2 ≤ num_pivot_ b)) as [|Hsmall]; [done|]. exfalso. apply Hnz.
  rewrite Hmax. assert (num_pivot_ b * (num_pivot_ b - 1) = 0) as -> by nia.
  apply Z.div_small. lia.
Qed.

Lemma CreateIndex_accepted_parameters_witness :
  ∃ idx,
    CreateIndex (λ _ _ _, 0) 8 [[0; 1; 2]; [2; 1; 0]]
      [("numPivot", PNum 3); ("numPrefix", PNum 2); ("indexThreadQty", PNum 1)]
      [(0, 0); (1, 0)]%nat [(0, 0); (1, 0); (2, 0)]%nat = Ok idx
    ∧ pivot_comb_qty_ (bparams idx) = 2
    ∧ 1 ≤ skip_val_ (bparams idx)
    ∧ 2 ≤ num_pivot_ (bparams idx)
    ∧ 0 ≤ num_prefix_ (bparams idx) ≤ num_pivot_ (bparams idx)
    ∧ 1 ≤ maxPostQty_ (bparams idx)
    ∧ qparams idx = mkQueryParams false kStoreSort 2 (num_prefix_ (bparams idx))
    ∧ data_qty idx = length [[0; 1; 2]; [2; 1; 0]].
Proof.
  eexists. split; [vm_compute; reflexivity|].
  apply (CreateIndex_accepted_parameters (λ _ _ _, 0) 8 [[0; 1; 2]; [2; 1; 0]]
           [("numPivot", PNum 3); ("numPrefix", PNum 2); ("indexThreadQty", PNum 1)]
           [(0, 0); (1, 0)]%nat [(0, 0); (1, 0); (2, 0)]%nat).
  vm_compute. reflexivity.
Defined.

(** ** The pairwise merge *)

(** X13. With a single key the pairwise merge returns no candidate, whatever
    the posting list of the key holds and whatever the threshold is: the
    candidates are read from the buffer that was filled before the last
    posting list was merged, which is the empty one. *)
Theorem merge_alg_single_key
    (posting_lists : list (list Z)) (dataQty : nat) (skip_val thresh : Z)
    (combIds : list Z) :
  keys_in_store posting_lists combIds 1 →
  merge_alg posting_lists dataQty skip_val thresh combIds 1 = Ok [].
Proof.
  intros Hkeys.
  destruct (query_post_lookup posting_lists combIds 1 0 Hkeys ltac:(lia))
    as (post & _ & Hpost).
  unfold merge_alg, merge_lists. cbn [seq foldM]. rewrite Hpost. done.
Qed.

Lemma merge_alg_single_key_witness :
  merge_alg [[0; 1; 2]; [1]] 3 1 0 [0] 1 = Ok [].
Proof.
  apply merge_alg_single_key. split; [simpl; lia|]. simpl. repeat constructor; lia.
Defined.

(** ** Persistence, further *)

(** X14. When the location cannot be opened, [SaveIndex] and [LoadIndex] fail
    their first check and leave the index and the files as they were. *)
Theorem SaveIndex_LoadIndex_cannot_open
    (SaveIndex_rest LoadIndex_rest : string → IO unit)
    (location : string) (idx : Index) (fs : FileSystem) :
  (can_write fs location = false →
   SaveIndex SaveIndex_rest location (idx, fs) = (Err (check_failed "outFile"), (idx, fs)))
  ∧ (file_content fs location = None →
     LoadIndex LoadIndex_rest location (idx, fs) = (Err (check_failed "inFile"), (idx, fs))).
Proof.
  split.
  - intros Hw. unfold SaveIndex, io_bind, ofstream. by rewrite Hw.
  - intros Hr. unfold LoadIndex, io_bind, ifstream. rewrite Hr.
    rewrite bool_decide_eq_false_2; [done|]. by intros [? ?].
Qed.

Lemma SaveIndex_LoadIndex_cannot_open_witness :
  let idx :=
    mkIndex 2 (mkBuildParams 3 2 1 false 0 "" 1 2 false 3 0 0)
      (mkQueryParams false kStoreSort 2 2) (mkStore [[0]; []; [1]] [[[]; []; []]] [0]) in
  let fs := mkFS (λ _, None) (λ _, false) in
  let rest (_ : string) : IO unit := λ w, (Ok (), w) in
  SaveIndex rest "index.bin" (idx, fs) = (Err (check_failed "outFile"), (idx, fs))
  ∧ LoadIndex rest "index.bin" (idx, fs) = (Err (check_failed "inFile"), (idx, fs)).
Proof.
  cbv zeta.
  destruct (SaveIndex_LoadIndex_cannot_open (λ _ w, (Ok (), w)) (λ _ w, (Ok (), w))
              "index.bin"
              (mkIndex 2 (mkBuildParams 3 2 1 false 0 "" 1 2 false 3 0 0)
                 (mkQueryParams false kStoreSort 2 2)
                 (mkStore [[0]; []; [1]] [[[]; []; []]] [0]))
              (mkFS (λ _, None) (λ _, false))) as [Hsave Hload].
  split; [apply Hsave|apply Hload]; reflexivity.
Defined.

(** X15. The alias [numPivotIndex] sets the indexed prefix: when it is the
    last build-time parameter and [CreateIndex] succeeds, [num_prefix_] is
    its value (the lookup of [numPrefix] that follows takes the value just
    read as its default). *)
Theorem CreateIndex_numPivotIndex
    (T3 : Z → Z → Z → Z) (hardware_concurrency : Z) (data_perm : list Permutation)
    (ps : AnyParams) (v : Z) (sched1 sched2 : list (nat * nat)) (idx : Index) :
  CreateIndex T3 hardware_concurrency data_perm (ps ++ [("numPivotIndex", PNum v)])
    sched1 sched2 = Ok idx →
  num_prefix_ (bparams idx) = v.
Proof.
  intros (st1 & Hparams & _)%CreateIndex_Ok. revert Hparams.
  generalize (qparams idx). generalize (bparams idx). intros b q.
  unfold CreateIndex_params.
  intros ([num_pivot pmgr1] & E1 & H)%bind_Ok.
  apply bind_Ok in H as (? & Halias & H).
  apply bind_Ok in H as ([num_prefix0 pmgr2] & E2 & H).
  apply bind_Ok in H as ([num_prefix pmgr3] & E3 & H).
  apply GetParamOptional_params in E1. simpl in E1.
  assert (hasParam pmgr1 "numPivotIndex" = true) as Hhas.
  { unfold hasParam. rewrite E1, fmap_app, existsb_app. simpl. apply orb_true_r. }
  rewrite Hhas in Halias. simpl in Halias.
  destruct (hasParam pmgr1 "numPrefix") eqn:Habs; [done|].
  pose proof E2 as E2'. apply GetParamOptional_params in E2'.
  apply (GetParamOptional_last_any _ ps _ (PNum v)) in E2; [|done].
  apply to_size_t_Ok in E2 as [[= ->] _].
  assert (hasParam pmgr2 "numPrefix" = false) as Habs2.
  { by rewrite (hasParam_params pmgr1 pmgr2). }
  rewrite (GetParamOptional_absent _ _ _ _ Habs2) in E3.
  assert (num_prefix = num_prefix0) as -> by congruence.
  apply bind_Ok in H as ([index_thread_qty pmgr4] & _ & H).
  apply bind_Ok in H as ([disable_pivot_index pmgr5] & _ & H).
  apply bind_Ok in H as ([hash_trick_dim pmgr6] & _ & H).
  apply bind_Ok in H as (? & _ & H).
  apply bind_Ok in H as (? & _ & H).
  apply bind_Ok in H as ([pivot_file pmgr7] & _ & H).
  apply bind_Ok in H as ([skip_val pmgr8] & _ & H).
  apply bind_Ok in H as ([pivot_comb_qty pmgr9] & _ & H).
  apply bind_Ok in H as ([print_pivot_stat pmgr10] & _ & H).
  apply bind_Ok in H as (? & _ & H).
  apply bind_Ok in H as (? & _ & H).
  apply bind_Ok in H as (qp & _ & H).
  apply bind_Ok in H as (maxPostQty & _ & H).
  apply bind_Ok in H as (? & _ & H).
  apply bind_Ok in H as (exp_avg_post_size & _ & H).
  apply bind_Ok in H as (exp_post_per_query_qty & _ & [= <- _]). done.
Qed.

Lemma CreateIndex_numPivotIndex_witness :
  ∃ idx,
    CreateIndex (λ _ _ _, 0) 8 [[0; 1; 2]; [2; 1; 0]]
      ([("numPivot", PNum 3); ("indexThreadQty", PNum 1)] ++ [("numPivotIndex", PNum 2)])
      [(0, 0); (1, 0)]%nat [(0, 0); (1, 0); (2, 0)]%nat = Ok idx
    ∧ num_prefix_ (bparams idx) = 2.
Proof.
  eexists. split; [vm_compute; reflexivity|].
  apply (CreateIndex_numPivotIndex (λ _ _ _, 0) 8 [[0; 1; 2]; [2; 1; 0]]
           [("numPivot", PNum 3); ("indexThreadQty", PNum 1)] 2
           [(0, 0); (1, 0)]%nat [(0, 0); (1, 0); (2, 0)]%nat).
  vm_compute. reflexivity.
Defined.

(** ** The keys of a permutation prefix *)

Lemma skip_filter_1 (idx : Z) : skip_filter 1 idx = [idx].
Proof.
  unfold skip_filter. rewrite decide_True by apply Z.mod_1_r. by rewrite Z.div_1_r.
Qed.

Lemma length_skip_filter (skip_val idx : Z) : (length (skip_filter skip_val idx) ≤ 1)%nat.
Proof. unfold skip_filter. destruct (decide _); simpl; lia. Qed.

Lemma length_bind_le {A B} (f : A → list B) (l : list A) (n : nat) :
  (∀ a, a ∈ l → length (f a) ≤ n)%nat → (length (l ≫= f) ≤ n * length l)%nat.
Proof.
  induction l as [|a l IH]; intros Hf; [simpl; lia|].
  rewrite bind_cons, length_app. simpl.
  specialize (Hf a ltac:(left)) as Ha.
  specialize (IH ltac:(intros; apply Hf; by right)). lia.
Qed.

Lemma length_bind_eq {A B} (f : A → list B) (l : list A) (n : nat) :
  (∀ a, a ∈ l → length (f a) = n)%nat → length (l ≫= f) = (n * length l)%nat.
Proof.
  induction l as [|a l IH]; intros Hf; [simpl; lia|].
  rewrite bind_cons, length_app. simpl.
  specialize (Hf a ltac:(left)) as Ha.
  specialize (IH ltac:(intros; apply Hf; by right)). lia.
Qed.

Lemma pair_keys_S (skip_val : Z) (π : list Z) (P : nat) :
  pair_keys skip_val π (S P)
  = pair_keys skip_val π P
    ++ (a ← seq 0 P; skip_filter skip_val (PAIR (π !!! P) (π !!! a))).
Proof.
  unfold pair_keys. rewrite seq_S, bind_app. simpl. by rewrite app_nil_r.
Qed.

Lemma length_pair_keys (skip_val : Z) (π : list Z) (P : nat) :
  (2 * length (pair_keys skip_val π P) ≤ P * (P - 1))%nat
  ∧ (skip_val = 1 → (2 * length (pair_keys skip_val π P) = P * (P - 1))%nat).
Proof.
  induction P as [|P [IHle IHeq]]; [done|].
  rewrite pair_keys_S, length_app. split.
  - pose proof (length_bind_le
                  (λ a, skip_filter skip_val (PAIR (π !!! P) (π !!! a))) (seq 0 P) 1
                  ltac:(intros; apply length_skip_filter)) as Hle.
    rewrite length_seq in Hle. destruct P; simpl in *; nia.
  - intros ->. specialize (IHeq eq_refl).
    rewrite (length_bind_eq _ _ 1), length_seq by (intros; by rewrite skip_filter_1).
    destruct P; simpl in *; nia.
Qed.

(** X16. For pairs, the encoder writes at most P·(P−1)/2 keys for a prefix of
    P pivots, and exactly that many when [skip_val_] is 1. *)
Theorem genPivotCombIds_pairs_count
    (T3 : Z → Z → Z → Z) (skip_val : Z) (ids : list Z) (π : Permutation) (P : nat)
    (num_pivot : Z) (r : list Z * nat) :
  0 < skip_val →
  (P ≤ length π)%nat →
  num_pivot ≤ 2 ^ 16 →
  Forall (λ p, 0 ≤ p < num_pivot) π →
  genPivotCombIds T3 2 skip_val ids π P = Ok r →
  (2 * r.2 ≤ P * (P - 1))%nat ∧ (skip_val = 1 → (2 * r.2 = P * (P - 1))%nat).
Proof.
  intros Hskip HP HN Hπ Hgen.
  destruct (genPivotCombIds_pairs_emitted T3 skip_val ids π P num_pivot)
    as (r' & Hgen' & Hem); [done..|].
  assert (r' = r) as -> by congruence.
  destruct (genPivotCombIds_emitted_wf _ _ _ _ _ _ _ Hgen) as [Hle _].
  assert (r.2 = length (pair_keys skip_val π P)) as ->.
  { rewrite <-Hem. unfold emitted. rewrite length_take. lia. }
  apply length_pair_keys.
Qed.

Lemma genPivotCombIds_pairs_count_witness :
  ∃ r, genPivotCombIds (λ _ _ _, 0) 2 1 [] [1; 0; 2; 3] 4 = Ok r
    ∧ (2 * r.2 ≤ 4 * (4 - 1))%nat ∧ (1 = 1 → (2 * r.2 = 4 * (4 - 1))%nat).
Proof.
  eexists. split; [vm_compute; reflexivity|].
  apply (genPivotCombIds_pairs_count (λ _ _ _, 0) 1 [] [1; 0; 2; 3] 4 4).
  - lia.
  - simpl. lia.
  - lia.
  - repeat constructor; lia.
  - vm_compute. reflexivity.
Defined.

Lemma PAIR_ordered_inj (x y x' y' : Z) :
  0 ≤ y < x → 0 ≤ y' < x' →
  x * (x - 1) + 2 * y = x' * (x' - 1) + 2 * y' → x = x' ∧ y = y'.
Proof.
  intros Hy Hy' Heq.
  assert (x = x') as ->; [|lia].
  destruct (Z.lt_trichotomy x x') as [Hlt|[->|Hgt]]; [|done|]; exfalso; nia.
Qed.

(** Different unordered pairs of pivots have different indices. *)
Lemma PAIR_inj (x y x' y' : Z) :
  0 ≤ x → 0 ≤ y → x ≠ y → 0 ≤ x' → 0 ≤ y' → x' ≠ y' →
  PAIR x y = PAIR x' y' → (x = x' ∧ y = y') ∨ (x = y' ∧ y = x').
Proof.
  intros Hx Hy Hne Hx' Hy' Hne'. unfold PAIR. intros Heq.
  pose proof (twice_half_product (Z.max x y)) as Hh.
  pose proof (twice_half_product (Z.max x' y')) as Hh'.
  destruct (PAIR_ordered_inj (Z.max x y) (Z.min x y) (Z.max x' y') (Z.min x' y'));
    lia.
Qed.

Lemma skip_filter_elem_of (skip_val idx key : Z) :
  key ∈ skip_filter skip_val idx ↔ idx mod skip_val = 0 ∧ key = idx / skip_val.
Proof.
  unfold skip_filter. destruct (decide _).
  - rewrite list_elem_of_singleton. tauto.
  - split; [by intros ?%elem_of_nil|tauto].
Qed.

Section PairKeys.

Context (skip_val : Z) (π : list Z) (P : nat).
Hypothesis Hskip : 0 < skip_val.
Hypothesis HP : (P ≤ length π)%nat.
Hypothesis Hnd : NoDup π.
Hypothesis Hπ : Forall (λ p, 0 ≤ p) π.

(** Two pairs of positions of the prefix that give the same key are the same
    pair. *)
Lemma pair_key_inj (a b a' b' : nat) (key : Z) :
  (a < b < P)%nat → (a' < b' < P)%nat →
  key ∈ skip_filter skip_val (PAIR (π !!! b) (π !!! a)) →
  key ∈ skip_filter skip_val (PAIR (π !!! b') (π !!! a')) →
  a = a' ∧ b = b'.
Proof.
  intros Hab Hab' [Hmod ->]%skip_filter_elem_of [Hmod' Hkey]%skip_filter_elem_of.
  assert (∀ i, (i < P)%nat → π !! i = Some (π !!! i) ∧ 0 ≤ π !!! i) as Hin.
  { intros i Hi.
    assert (π !! i = Some (π !!! i)) as Hl by (apply list_lookup_lookup_total_lt; lia).
    split; [done|]. rewrite Forall_lookup in Hπ. apply (Hπ i _ Hl). }
  assert (∀ i j, (i < P)%nat → (j < P)%nat → π !!! i = π !!! j → i = j) as Hinj.
  { intros i j Hi Hj Heq. apply (NoDup_lookup π i j (π !!! i)); [done|by apply Hin|].
    rewrite Heq. by apply Hin. }
  assert (PAIR (π !!! b) (π !!! a) = PAIR (π !!! b') (π !!! a')) as Heq.
  { pose proof (Z.div_mod (PAIR (π !!! b) (π !!! a)) skip_val ltac:(lia)).
    pose proof (Z.div_mod (PAIR (π !!! b') (π !!! a')) skip_val ltac:(lia)). nia. }
  apply PAIR_inj in Heq as [[Hb Ha]|[Hb Ha]];
    try (apply Hin; lia);
    try (intros Heq'; apply Hinj in Heq'; lia).
  - apply Hinj in Hb, Ha; lia.
  - apply Hinj in Hb, Ha; lia.
Qed.

Lemma pair_keys_elem_of (key : Z) :
  key ∈ pair_keys skip_val π P ↔
  ∃ a b, (a < b < P)%nat ∧ key ∈ skip_filter skip_val (PAIR (π !!! b) (π !!! a)).
Proof.
  unfold pair_keys. rewrite list_elem_of_bind. split.
  - intros (b & (a & Hkey & Ha%elem_of_seq)%list_elem_of_bind & Hb%elem_of_seq).
    exists a, b. split; [lia|done].
  - intros (a & b & Hab & Hkey). exists b. split; [|apply elem_of_seq; lia].
    apply list_elem_of_bind. exists a. split; [done|apply elem_of_seq; lia].
Qed.

(** A prefix of a permutation gives every key once. *)
Lemma pair_keys_NoDup : NoDup (pair_keys skip_val π P).
Proof.
  unfold pair_keys. apply NoDup_bind; [| |apply NoDup_seq].
  - intros b b' key Hb%elem_of_seq Hb'%elem_of_seq
      (a & Hkey & Ha%elem_of_seq)%list_elem_of_bind
      (a' & Hkey' & Ha'%elem_of_seq)%list_elem_of_bind.
    by destruct (pair_key_inj a b a' b' key ltac:(lia) ltac:(lia) Hkey Hkey').
  - intros b Hb%elem_of_seq. apply NoDup_bind; [| |apply NoDup_seq].
    + intros a a' key Ha%elem_of_seq Ha'%elem_of_seq Hkey Hkey'.
      by destruct (pair_key_inj a b a' b key ltac:(lia) ltac:(lia) Hkey Hkey').
    + intros a _. unfold skip_filter. destruct (decide _); [apply NoDup_singleton|constructor].
Qed.

End PairKeys.

(** ** The posting lists of a built index *)

Lemma bucket_postings_elem_of keys ids bucket (x : Z) :
  x ∈ bucket_postings keys ids bucket ↔
  ∃ id, x = Z.of_nat id ∧ id ∈ ids ∧ Z.of_nat bucket ∈ keys id.
Proof.
  unfold bucket_postings. rewrite list_elem_of_bind. split.
  - intros (id & (k & Hx & Hk)%list_elem_of_bind & Hid).
    destruct (decide (k = Z.of_nat bucket)) as [->|]; [|by apply elem_of_nil in Hx].
    apply list_elem_of_singleton in Hx. by exists id.
  - intros (id & -> & Hid & Hk). exists id. split; [|done].
    apply list_elem_of_bind. exists (Z.of_nat bucket). split; [|done].
    rewrite decide_True by done. by left.
Qed.

Lemma bucket_postings_NoDup keys ids bucket :
  NoDup ids → (∀ id, id ∈ ids → NoDup (keys id)) →
  NoDup (bucket_postings keys ids bucket).
Proof.
  intros Hids Hkeys. unfold bucket_postings. apply NoDup_bind; [| |done].
  - intros id id' x _ _ (k & Hx & _)%list_elem_of_bind (k' & Hx' & _)%list_elem_of_bind.
    destruct (decide (k = _)); [|by apply elem_of_nil in Hx].
    destruct (decide (k' = _)); [|by apply elem_of_nil in Hx'].
    apply list_elem_of_singleton in Hx, Hx'. lia.
  - intros id Hid. apply NoDup_bind; [| |by apply Hkeys].
    + intros k k' x _ _ Hx Hx'.
      destruct (decide (k = _)); [|by apply elem_of_nil in Hx].
      destruct (decide (k' = _)); [|by apply elem_of_nil in Hx']. congruence.
    + intros k _. destruct (decide _); [apply NoDup_singleton|constructor].
Qed.

Section ObjectKeys.

Context (T3 : Z → Z → Z → Z) (b : BuildParams) (data_perm : list Permutation).

Hypothesis Hk : pivot_comb_qty_ b = 2.
Hypothesis Hskip : 0 < skip_val_ b.
Hypothesis Hprefix : 0 ≤ num_prefix_ b ≤ num_pivot_ b.
Hypothesis Hpivots : num_pivot_ b ≤ 2 ^ 16.
Hypothesis Hmax :
  maxPostQty_ b
  = (num_pivot_ b * (num_pivot_ b - 1) + 2 * skip_val_ b - 1) / (2 * skip_val_ b).
Hypothesis Hperms : perms_ok (num_pivot_ b) data_perm.

(** The keys of an object are the pair keys of its permutation's prefix. *)
Lemma object_keys_pairs (id : nat) (perm : list Z) :
  data_perm !! id = Some perm →
  object_keys T3 b data_perm id = pair_keys (skip_val_ b) perm (Z.to_nat (num_prefix_ b)).
Proof.
  intros Hperm. destruct (perms_ok_lookup _ _ _ _ Hperms Hperm) as (Hlen & Hnd & Hrange).
  unfold object_keys. rewrite Hperm, Hk.
  destruct (genPivotCombIds_pairs_emitted T3 (skip_val_ b)
              (replicate (Z.to_nat (maxPostQty_ b)) 0) perm
              (Z.to_nat (num_prefix_ b)) (num_pivot_ b))
    as (r & -> & Hem); [done|lia|done|done|done].
Qed.

Lemma object_keys_NoDup (id : nat) : NoDup (object_keys T3 b data_perm id).
Proof.
  destruct (data_perm !! id) as [perm|] eqn:Hperm.
  - rewrite (object_keys_pairs id perm Hperm).
    destruct (perms_ok_lookup _ _ _ _ Hperms Hperm) as (Hlen & Hnd & Hrange).
    apply pair_keys_NoDup; [done|lia|done|].
    eapply Forall_impl; [exact Hrange|]. simpl. lia.
  - unfold object_keys. rewrite Hperm. constructor.
Qed.

Lemma object_keys_range (id : nat) :
  Forall (λ key, 0 ≤ key < maxPostQty_ b) (object_keys T3 b data_perm id).
Proof.
  destruct (data_perm !! id) as [perm|] eqn:Hperm.
  - rewrite (object_keys_pairs id perm Hperm).
    destruct (perms_ok_lookup _ _ _ _ Hperms Hperm) as (Hlen & Hnd & Hrange).
    apply Forall_forall. intros key Hkey. rewrite Hmax.
    apply (pair_keys_range _ _ perm (Z.to_nat (num_prefix_ b))); [done|lia|done..].
  - unfold object_keys. rewrite Hperm. constructor.
Qed.

End ObjectKeys.

(** ** Searching a built index *)

Lemma count_occ_NoDup (l : list Z) (x : Z) :
  NoDup l → count_occ Z.eq_dec l x = if decide (x ∈ l) then 1%nat else 0%nat.
Proof.
  intros Hnd. destruct (decide (x ∈ l)) as [Hin|Hnin].
  - apply count_occ_elem_of in Hin.
    apply NoDup_ListNoDup in Hnd.
    pose proof (proj1 (NoDup_count_occ Z.eq_dec l) Hnd x). lia.
  - by apply count_occ_not_elem_of.
Qed.

Lemma length_NoDup_range (l : list Z) (M : Z) :
  NoDup l → Forall (λ k, 0 ≤ k < M) l → Z.of_nat (length l) ≤ Z.max 0 M.
Proof.
  intros Hnd Hr. assert (l ⊆+ seqZ 0 M) as Hsub.
  { apply NoDup_submseteq; [done|]. intros x Hx. rewrite Forall_forall in Hr.
    apply elem_of_seqZ. specialize (Hr x Hx). lia. }
  apply submseteq_length in Hsub. rewrite length_seqZ in Hsub. lia.
Qed.

Lemma count_occ_query_lists (PL : list (list Z)) (qkeys okeys : list Z) (x : Z) :
  (∀ k, k ∈ qkeys →
     count_occ Z.eq_dec (PL !!! Z.to_nat k) x = if decide (k ∈ okeys) then 1%nat else 0%nat) →
  count_occ Z.eq_dec (concat ((λ k, PL !!! Z.to_nat k) <$> qkeys)) x
  = length (filter (λ k, k ∈ okeys) qkeys).
Proof.
  induction qkeys as [|k qkeys IH]; intros Hk; [done|].
  rewrite fmap_cons. simpl concat. rewrite count_occ_app, filter_cons.
  rewrite (Hk k) by left. rewrite IH by (intros; apply Hk; by right).
  by destruct (decide (k ∈ okeys)).
Qed.

Lemma length_filter_elem_of_nil (l : list Z) :
  length (filter (λ k, k ∈ ([] : list Z)) l) = 0%nat.
Proof.
  induction l as [|k l IH]; [done|].
  by rewrite filter_cons_False by apply not_elem_of_nil.
Qed.

Lemma perm_ok_facts (num_pivot : Z) (perm : list Z) :
  perm ≡ₚ Z.of_nat <$> seq 0 (Z.to_nat num_pivot) →
  length perm = Z.to_nat num_pivot ∧ NoDup perm ∧ Forall (λ p, 0 ≤ p < num_pivot) perm.
Proof.
  intros Hperm. apply (perms_ok_lookup num_pivot [perm] 0); [|done].
  by apply Forall_singleton.
Qed.

Lemma SetQueryTimeParams_Ok_le (num_prefix num_pivot : Z) QueryTimeParams q :
  SetQueryTimeParams num_prefix num_pivot QueryTimeParams = Ok q →
  num_prefix_search_ q ≤ num_pivot.
Proof.
  unfold SetQueryTimeParams.
  intros ([skip_checking pmgr1] & E1 & H)%bind_Ok.
  apply bind_Ok in H as ([inv_proc_alg pmgr2] & E2 & H).
  apply bind_Ok in H as (_ & _ & H).
  apply bind_Ok in H as ([min_times0 pmgr3] & E3 & H).
  apply bind_Ok in H as ([min_times pmgr4] & E4 & H).
  apply bind_Ok in H as ([num_prefix_search pmgr5] & E5 & H).
  apply bind_Ok in H as (? & Hle & H).
  apply bind_Ok in H as (alg & _ & H).
  apply bind_Ok in H as (_ & _ & [= <-]). simpl.
  revert Hle. destruct (bool_decide_reflect (num_prefix_search > num_pivot)); [done|lia].
Qed.

Lemma admissible_one_worker hardware_concurrency dataSize IndexParams b q sched2 :
  CreateIndex_params hardware_concurrency dataSize IndexParams = Ok (b, q) →
  admissible 0 (Z.to_nat (num_pivot_ b)) 1 sched2 →
  sched2 ≠ [] ∧ Forall (λ it, it.2 = 0%nat) sched2.
Proof.
  intros Hparams [Hitems Hworkers]. split.
  - intros ->. apply Permutation_nil_l in Hitems.
    apply CreateIndex_params_Ok in Hparams as (_ & Hskip & Hnp & _ & Hmax & Hnz & _).
    assert (Z.to_nat (num_pivot_ b) - 0 = 0)%nat as Hz.
    { destruct (Z.to_nat (num_pivot_ b) - 0)%nat; [done|discriminate]. }
    apply Hnz. rewrite Hmax.
    assert (num_pivot_ b = 0) as -> by lia. simpl.
    apply Z.div_small. lia.
  - eapply Forall_impl; [exact Hworkers|]. simpl. lia.
Qed.

(** ** The posting lists of a build on one worker *)

Lemma bucket_postings_sorted keys (start n bucket : nat) :
  StronglySorted Z.le (bucket_postings keys (seq start n) bucket).
Proof.
  revert start. induction n as [|n IH]; intros start; [constructor|].
  change (seq start (S n)) with ([start] ++ seq (S start) n).
  rewrite bucket_postings_app. apply StronglySorted_app. split_and!.
  - intros x1 x2 Hx1 (id & -> & Hid & _)%bucket_postings_elem_of.
    pose proof (bucket_postings_singleton_eq keys start bucket) as Heq.
    rewrite Forall_forall in Heq. rewrite (Heq x1 Hx1). apply elem_of_seq in Hid. lia.
  - exact (StronglySorted_all_eq _ _ (bucket_postings_singleton_eq keys start bucket)).
  - apply IH.
Qed.

Lemma StronglySorted_le_NoDup (l : list Z) :
  StronglySorted Z.le l → NoDup l → StronglySorted Z.lt l.
Proof.
  induction 1 as [|a l Hs IH Ha]; intros Hnd; [constructor|].
  apply NoDup_cons in Hnd as [Hnin Hnd]. constructor; [by apply IH|].
  apply Forall_forall. intros x Hx. rewrite Forall_forall in Ha. specialize (Ha x Hx).
  assert (x ≠ a) by (by intros ->). lia.
Qed.

(** The store after a build on one worker: the lists ascend, and the list of
    a bucket holds the postings the objects owe it. *)
Lemma sequential_build T3 hardware_concurrency data_perm IndexParams sched2 idx :
  CreateIndex T3 hardware_concurrency data_perm IndexParams
    (one_worker 0 (length data_perm)) sched2 = Ok idx →
  admissible 0 (Z.to_nat (num_pivot_ (bparams idx))) 1 sched2 →
  length (posting_lists_ (store idx)) = Z.to_nat (maxPostQty_ (bparams idx))
  ∧ postings_ok (length data_perm) (posting_lists_ (store idx))
  ∧ ∀ bucket, (bucket < Z.to_nat (maxPostQty_ (bparams idx)))%nat →
      posting_lists_ (store idx) !!! bucket
      ≡ₚ bucket_postings (object_keys T3 (bparams idx) data_perm)
           (seq 0 (length data_perm)) bucket.
Proof.
  intros Hbuild Hsched2. unfold one_worker in Hbuild. rewrite Nat.sub_0_r in Hbuild.
  apply CreateIndex_Ok in Hbuild as (st1 & Hparams & Hqty & H1 & H2).
  destruct (admissible_one_worker _ _ _ _ _ _ Hparams Hsched2) as [Hne Hworker].
  pose proof (sequential_loops_postings_ok _ _ _ _ _ _ H1 H2 Hne Hworker) as Hpok.
  destruct (CreateIndex_loops _ _ _ _ _ _ _ H1 H2) as ((Hlen & _ & _) & Hcont & Hidle).
  split; [done|]. split; [done|].
  assert (((λ id, (id, 0%nat)) <$> seq 0 (length data_perm)).*1
          = seq 0 (length data_perm)) as Hfst.
  { rewrite <-list_fmap_compose. apply list_fmap_id. }
  rewrite Hfst in Hcont.
  intros bucket Hbucket. rewrite <-Hcont by done. unfold bucket_content.
  rewrite (bind_all_nil _ (Z.to_nat (maxPostQty_ (bparams idx)))); [by rewrite app_nil_r|].
  apply Forall_forall. intros tmp (t & Htmp)%list_elem_of_lookup_1.
  apply (Hidle t); [done|].
  destruct (decide (t = 0%nat)) as [->|Ht].
  - right. destruct sched2 as [|[pivId t0] sched2']; [done|].
    apply Forall_cons in Hworker as [Ht0 _]. simpl in Ht0. subst t0. by left.
  - left. rewrite <-list_fmap_compose.
    intros (i & -> & _)%list_elem_of_fmap. done.
Qed.

(** X8. No posting is lost, doubled or misplaced by a build on one worker:
    the build leaves [maxPostQty_] posting lists, and the list of a bucket
    holds, in the order of the objects, the position of each object once for
    each of its keys that is the bucket's id. *)
Theorem CreateIndex_sequential_postings
    (T3 : Z → Z → Z → Z) (hardware_concurrency : Z) (data_perm : list Permutation)
    (IndexParams : AnyParams) (sched2 : list (nat * nat)) (idx : Index) :
  CreateIndex T3 hardware_concurrency data_perm IndexParams
    (one_worker 0 (length data_perm)) sched2 = Ok idx →
  admissible 0 (Z.to_nat (num_pivot_ (bparams idx))) 1 sched2 →
  length (posting_lists_ (store idx)) = Z.to_nat (maxPostQty_ (bparams idx))
  ∧ ∀ bucket, (bucket < Z.to_nat (maxPostQty_ (bparams idx)))%nat →
      posting_lists_ (store idx) !!! bucket
      = bucket_postings (object_keys T3 (bparams idx) data_perm)
          (seq 0 (length data_perm)) bucket.
Proof.
  intros Hbuild Hsched2.
  destruct (sequential_build _ _ _ _ _ _ Hbuild Hsched2) as (Hlen & Hpok & Hcont).
  split; [done|]. intros bucket Hbucket.
  apply (StronglySorted_unique Z.le); [| |by apply Hcont].
  - unfold postings_ok in Hpok. rewrite Forall_lookup in Hpok.
    apply Sorted_StronglySorted; [apply _|].
    apply (Hpok bucket). apply list_lookup_lookup_total_lt. lia.
  - apply bucket_postings_sorted.
Qed.

Lemma CreateIndex_sequential_postings_witness :
  let data_perm := [[0; 1; 2; 3]; [3; 2; 1; 0]; [1; 0; 3; 2]] in
  let IndexParams :=
    [("numPivot", PNum 4); ("numPrefix", PNum 3); ("indexThreadQty", PNum 1)] in
  let sched2 := [(3, 0); (1, 0); (0, 0); (2, 0)]%nat in
  ∃ idx, CreateIndex (λ _ _ _, 0) 8 data_perm IndexParams (one_worker 0 3) sched2 = Ok idx
    ∧ length (posting_lists_ (store idx)) = Z.to_nat (maxPostQty_ (bparams idx))
    ∧ ∀ bucket, (bucket < Z.to_nat (maxPostQty_ (bparams idx)))%nat →
        posting_lists_ (store idx) !!! bucket
        = bucket_postings (object_keys (λ _ _ _, 0) (bparams idx) data_perm)
            (seq 0 (length data_perm)) bucket.
Proof.
  cbv zeta. eexists. split; [vm_compute; reflexivity|].
  apply (CreateIndex_sequential_postings (λ _ _ _, 0) 8
           [[0; 1; 2; 3]; [3; 2; 1; 0]; [1; 0; 3; 2]]
           [("numPivot", PNum 4); ("numPrefix", PNum 3); ("indexThreadQty", PNum 1)]
           [(3, 0); (1, 0); (0, 0); (2, 0)]%nat).
  - vm_compute. reflexivity.
  - split; [|repeat constructor]. simpl.
    apply (Permutation_cons_app (0 :: 1 :: 2 :: nil)%nat nil 3%nat).
    apply (Permutation_cons_app (0 :: nil)%nat (2 :: nil)%nat 1%nat). done.
Defined.

(** X17. After a build on one worker from permutations of at most 2^16
    pivots every posting list is strictly ascending: it ascends and names no
    object twice, different pairs of pivots of one permutation never having
    the same key. *)
Theorem CreateIndex_sequential_strictly_ascending
    (T3 : Z → Z → Z → Z) (hardware_concurrency : Z) (data_perm : list Permutation)
    (IndexParams : AnyParams) (sched2 : list (nat * nat)) (idx : Index) :
  CreateIndex T3 hardware_concurrency data_perm IndexParams
    (one_worker 0 (length data_perm)) sched2 = Ok idx →
  admissible 0 (Z.to_nat (num_pivot_ (bparams idx))) 1 sched2 →
  num_pivot_ (bparams idx) ≤ 2 ^ 16 →
  perms_ok (num_pivot_ (bparams idx)) data_perm →
  Forall (StronglySorted Z.lt) (posting_lists_ (store idx)).
Proof.
  intros Hbuild Hsched2 Hpivots Hperms.
  destruct (sequential_build _ _ _ _ _ _ Hbuild Hsched2) as (Hlen & Hpok & Hcont).
  unfold one_worker in Hbuild.
  apply CreateIndex_Ok in Hbuild as (_ & Hparams & _).
  destruct (CreateIndex_params_Ok _ _ _ _ _ Hparams)
    as (Hk & Hskip & Hprefix & _ & Hmax & _ & _).
  apply Forall_lookup. intros bucket post Hpost.
  assert (bucket < Z.to_nat (maxPostQty_ (bparams idx)))%nat as Hbucket.
  { rewrite <-Hlen. by eapply lookup_lt_Some. }
  apply StronglySorted_le_NoDup.
  - unfold postings_ok in Hpok. rewrite Forall_lookup in Hpok.
    apply Sorted_StronglySorted; [apply _|]. by apply (Hpok bucket).
  - specialize (Hcont bucket Hbucket).
    rewrite (list_lookup_total_correct _ _ _ Hpost) in Hcont. rewrite Hcont.
    apply bucket_postings_NoDup; [apply NoDup_seq|].
    intros id _. by apply object_keys_NoDup; [|lia|..].
Qed.

Lemma CreateIndex_sequential_strictly_ascending_witness :
  let data_perm := [[0; 1; 2; 3]; [3; 2; 1; 0]; [1; 0; 3; 2]] in
  let IndexParams :=
    [("numPivot", PNum 4); ("numPrefix", PNum 3); ("indexThreadQty", PNum 1)] in
  let sched2 := [(3, 0); (1, 0); (0, 0); (2, 0)]%nat in
  ∃ idx, CreateIndex (λ _ _ _, 0) 8 data_perm IndexParams (one_worker 0 3) sched2 = Ok idx
    ∧ Forall (StronglySorted Z.lt) (posting_lists_ (store idx)).
Proof.
  cbv zeta. eexists. split; [vm_compute; reflexivity|].
  apply (CreateIndex_sequential_strictly_ascending (λ _ _ _, 0) 8
           [[0; 1; 2; 3]; [3; 2; 1; 0]; [1; 0; 3; 2]]
           [("numPivot", PNum 4); ("numPrefix", PNum 3); ("indexThreadQty", PNum 1)]
           [(3, 0); (1, 0); (0, 0); (2, 0)]%nat).
  - vm_compute. reflexivity.
  - split; [|repeat constructor]. simpl.
    apply (Permutation_cons_app (0 :: 1 :: 2 :: nil)%nat nil 3%nat).
    apply (Permutation_cons_app (0 :: nil)%nat (2 :: nil)%nat 1%nat). done.
  - simpl. lia.
  - unfold perms_ok. simpl.
    apply Forall_cons. split; [done|]. apply Forall_cons. split; [|apply Forall_cons; split].
    + apply (Permutation_cons_app (0 :: 1 :: 2 :: nil) nil 3).
      apply (Permutation_cons_app (0 :: 1 :: nil) nil 2).
      apply perm_swap.
    + etrans; [apply perm_swap|]. do 2 apply perm_skip. apply perm_swap.
    + constructor.
Defined.

(** ** The hits of a query in a built index *)

Section SearchBuilt.

Context (T3 : Z → Z → Z → Z) (b : BuildParams) (data_perm : list Permutation).
Context (PL : list (list Z)) (perm_q : list Z) (P : nat).

Hypothesis Hk : pivot_comb_qty_ b = 2.
Hypothesis Hskip : 0 < skip_val_ b < 2 ^ 32.
Hypothesis Hprefix : 0 ≤ num_prefix_ b ≤ num_pivot_ b.
Hypothesis Hpivots : num_pivot_ b ≤ 2 ^ 16.
Hypothesis Hmax :
  maxPostQty_ b
  = (num_pivot_ b * (num_pivot_ b - 1) + 2 * skip_val_ b - 1) / (2 * skip_val_ b).
Hypothesis Hperms : perms_ok (num_pivot_ b) data_perm.
Hypothesis Hlen : length PL = Z.to_nat (maxPostQty_ b).
Hypothesis Hcont : ∀ bucket, (bucket < Z.to_nat (maxPostQty_ b))%nat →
  PL !!! bucket
  ≡ₚ bucket_postings (object_keys T3 b data_perm) (seq 0 (length data_perm)) bucket.
Hypothesis Hperm_q : perm_q ≡ₚ Z.of_nat <$> seq 0 (Z.to_nat (num_pivot_ b)).
Hypothesis HP : (P ≤ Z.to_nat (num_pivot_ b))%nat.

Local Abbreviation qkeys := (pair_keys (skip_val_ b) perm_q P).
Local Abbreviation lists := ((λ k, PL !!! Z.to_nat k) <$> qkeys).

Lemma qkeys_range : Forall (λ key, 0 ≤ key < maxPostQty_ b) qkeys.
Proof.
  destruct (perm_ok_facts _ _ Hperm_q) as (Hlenq & Hndq & Hrangeq).
  apply Forall_forall. intros key Hkey. rewrite Hmax.
  apply (pair_keys_range _ _ perm_q P); [lia|lia|done..].
Qed.

Lemma qkeys_NoDup : NoDup qkeys.
Proof.
  destruct (perm_ok_facts _ _ Hperm_q) as (Hlenq & Hndq & Hrangeq).
  apply pair_keys_NoDup; [lia|lia|done|].
  eapply Forall_impl; [exact Hrangeq|]. simpl. lia.
Qed.

Lemma posting_elem_of (k x : Z) :
  k ∈ qkeys →
  x ∈ PL !!! Z.to_nat k
  ↔ ∃ id, x = Z.of_nat id ∧ (id < length data_perm)%nat
          ∧ k ∈ object_keys T3 b data_perm id.
Proof.
  intros Hkin. pose proof qkeys_range as Hr. rewrite Forall_forall in Hr.
  specialize (Hr k Hkin).
  rewrite (Hcont (Z.to_nat k) ltac:(lia)).
  rewrite bucket_postings_elem_of. rewrite Z2Nat.id by lia.
  split; intros (id & -> & Hid & Hkey); exists id;
    (split; [done|]); (split; [|done]).
  - apply elem_of_seq in Hid. lia.
  - apply elem_of_seq. lia.
Qed.

Lemma posting_NoDup (k : Z) : k ∈ qkeys → NoDup (PL !!! Z.to_nat k).
Proof.
  intros Hkin. pose proof qkeys_range as Hr. rewrite Forall_forall in Hr.
  specialize (Hr k Hkin).
  rewrite (Hcont (Z.to_nat k) ltac:(lia)).
  apply bucket_postings_NoDup; [apply NoDup_seq|].
  intros id _. apply object_keys_NoDup; [done|lia|done..].
Qed.

(** An object is in the posting list of a query key once if the key is one
    of its own, and not at all otherwise. *)
Lemma hits_position (id : nat) :
  (id < length data_perm)%nat →
  hits (Z.of_nat id) lists = shared_keys qkeys (object_keys T3 b data_perm id).
Proof.
  intros Hid. unfold hits, shared_keys. f_equal.
  apply count_occ_query_lists. intros k Hkin.
  rewrite count_occ_NoDup by (by apply posting_NoDup).
  destruct (decide (Z.of_nat id ∈ _)) as [Hin|Hnin];
    destruct (decide (k ∈ _)) as [Hk'|Hk']; try done.
  - apply (posting_elem_of k _ Hkin) in Hin as (id' & Heq & _ & Hkey).
    apply Nat2Z.inj in Heq as <-. done.
  - exfalso. apply Hnin. apply (posting_elem_of k _ Hkin). by exists id.
Qed.

Lemma hits_elsewhere (x : Z) :
  (∀ id, (id < length data_perm)%nat → x ≠ Z.of_nat id) → hits x lists = 0.
Proof.
  intros Hx. unfold hits.
  rewrite (count_occ_query_lists PL qkeys [] x).
  - by rewrite length_filter_elem_of_nil.
  - intros k Hkin. rewrite decide_False by apply not_elem_of_nil.
    apply count_occ_not_elem_of.
    intros (id & -> & Hid & _)%(posting_elem_of k _ Hkin). by apply (Hx id).
Qed.

Lemma hits_bound (x : Z) : skip_val_ b * hits x lists < 2 ^ 32.
Proof.
  assert (0 ≤ hits x lists ≤ Z.max 0 (maxPostQty_ b)) as Hh.
  { destruct (decide (0 ≤ x < Z.of_nat (length data_perm))) as [Hx|Hx].
    - rewrite <-(Z2Nat.id x) by lia. rewrite hits_position by lia. unfold shared_keys.
      pose proof (length_filter (λ k, k ∈ object_keys T3 b data_perm (Z.to_nat x)) qkeys).
      pose proof (length_NoDup_range _ _ qkeys_NoDup qkeys_range). lia.
    - rewrite hits_elsewhere; [lia|]. intros id Hid ->. lia. }
  assert (2 * skip_val_ b * maxPostQty_ b
          ≤ num_pivot_ b * (num_pivot_ b - 1) + 2 * skip_val_ b - 1) as Hm.
  { rewrite Hmax.
    pose proof (Z.mul_div_le (num_pivot_ b * (num_pivot_ b - 1) + 2 * skip_val_ b - 1)
                  (2 * skip_val_ b) ltac:(lia)). lia. }
  assert (0 ≤ maxPostQty_ b) as Hge by (rewrite Hmax; apply Z.div_pos; nia).
  assert (num_pivot_ b * (num_pivot_ b - 1) ≤ 2 ^ 32 - 2 ^ 16) as HN by nia.
  destruct (decide (skip_val_ b < 2 ^ 31)); [nia|].
  assert (maxPostQty_ b ≤ 1) by nia. nia.
Qed.

End SearchBuilt.



(** ** Buffers on loan *)

Lemma foldM_rel {A S1 S2} (R : S1 → S2 → Prop)
    (body1 : A → S1 → Res S1) (body2 : A → S2 → Res S2) (l : list A) (s1 : S1) (s2 : S2) :
  (∀ a s1 s2, a ∈ l → R s1 s2 → res_rel R (body1 a s1) (body2 a s2)) →
  R s1 s2 → res_rel R (foldM body1 l s1) (foldM body2 l s2).
Proof.
  revert s1 s2. induction l as [|a l IH]; intros s1 s2 Hbody HR; simpl; [done|].
  specialize (Hbody a s1 s2 ltac:(left) HR) as Ha. unfold res_rel in Ha.
  destruct (body1 a s1) as [s1'|e1], (body2 a s2) as [s2'|e2]; simpl; try done.
  apply IH; [|done]. intros a' s1'' s2'' Ha'. apply Hbody. by right.
Qed.

Lemma emit_same_keys idiv imod st1 st2 :
  same_keys st1 st2 → same_keys (emit idiv imod st1) (emit idiv imod st2).
Proof.
  intros (Hsize & Hle1 & Hle2 & Hem).
  destruct (emit_emitted idiv imod st1 Hle1) as [Hle1' Hem1].
  destruct (emit_emitted idiv imod st2 Hle2) as [Hle2' Hem2].
  split_and!; [|done|done|by rewrite Hem1, Hem2, Hem].
  destruct st1 as [ids1 n1], st2 as [ids2 n2]. simpl in *. subst n2.
  unfold emit. by destruct (decide (imod = 0)).
Qed.

(** X19. The keys [genPivotCombIds] returns do not depend on the buffer it
    is lent: with any two buffers (of any size and content) the two calls
    end in the same exception, or return the same count and the same keys. *)
Theorem genPivotCombIds_buffer_independent
    (T3 : Z → Z → Z → Z) (pivot_comb_qty skip_val : Z) (ids1 ids2 : list Z)
    (perm : Permutation) (permPrefixSize : nat) :
  res_rel (λ r1 r2, r1.2 = r2.2 ∧ emitted r1 = emitted r2)
    (genPivotCombIds T3 pivot_comb_qty skip_val ids1 perm permPrefixSize)
    (genPivotCombIds T3 pivot_comb_qty skip_val ids2 perm permPrefixSize).
Proof.
  assert (same_keys (ids1, 0%nat) (ids2, 0%nat)) as Hinit.
  { split_and!; simpl; [done|lia|lia|done]. }
  enough (res_rel same_keys
            (genPivotCombIds T3 pivot_comb_qty skip_val ids1 perm permPrefixSize)
            (genPivotCombIds T3 pivot_comb_qty skip_val ids2 perm permPrefixSize)) as H.
  { unfold res_rel in *. destruct (genPivotCombIds _ _ _ ids1 _ _) as [r1|e1],
      (genPivotCombIds _ _ _ ids2 _ _) as [r2|e2]; try done.
    by destruct H as (? & _ & _ & ?). }
  unfold genPivotCombIds.
  destruct (CHECK _ "pivot_comb_qty_ && pivot_comb_qty_ <= 3") as [[]|?]; cbn [bind];
    [|done].
  destruct (decide (pivot_comb_qty = 1)); [|destruct (decide (pivot_comb_qty = 2))].
  - destruct (CHECK _ "permPrefixSize < perm.size()") as [[]|?]; cbn [bind]; [|done].
    apply foldM_rel; [|done]. intros i st1 st2 _ HR.
    destruct (at_ perm i) as [index|?]; cbn [bind]; [|done].
    destruct (div_ index skip_val) as [q|?]; cbn [bind]; [|done].
    destruct (mod_ index skip_val) as [imod|?]; cbn [bind]; [|done].
    by apply emit_same_keys.
  - apply foldM_rel; [|done]. intros j st1 st2 _ HR.
    apply foldM_rel; [|done]. intros k st1' st2' _ HR'.
    destruct (at_ perm j) as [pj|?]; cbn [bind]; [|done].
    destruct (at_ perm k) as [pk|?]; cbn [bind]; [|done].
    destruct (div_ _ skip_val) as [q|?]; cbn [bind]; [|done].
    destruct (mod_ _ skip_val) as [imod|?]; cbn [bind]; [|done].
    by apply emit_same_keys.
  - destruct (CHECK _ "pivot_comb_qty_ == 3") as [[]|?]; cbn [bind]; [|done].
    apply foldM_rel; [|done]. intros j st1 st2 _ HR.
    apply foldM_rel; [|done]. intros k st1' st2' _ HR'.
    apply foldM_rel; [|done]. intros l st1'' st2'' _ HR''.
    destruct (at_ perm j) as [pj|?]; cbn [bind]; [|done].
    destruct (at_ perm k) as [pk|?]; cbn [bind]; [|done].
    destruct (at_ perm l) as [pl|?]; cbn [bind]; [|done].
    destruct (div_ _ skip_val) as [q|?]; cbn [bind]; [|done].
    by apply emit_same_keys.
Qed.

(** *** The scratch buffer of store-and-sort *)

Lemma run_end_ext (tmpRes1 tmpRes2 : list Z) (tmpResSize : nat) (prevId : Z)
    (fuel next : nat) :
  (∀ i, (i < tmpResSize)%nat → tmpRes1 !! i = tmpRes2 !! i) →
  run_end fuel tmpRes1 tmpResSize prevId next = run_end fuel tmpRes2 tmpResSize prevId next.
Proof.
  intros Hext. revert next. induction fuel as [|fuel IH]; intros next; simpl; [done|].
  case_bool_decide as Hlt; simpl; [|done]. rewrite (Hext next Hlt).
  case_bool_decide; [apply IH|done].
Qed.

Lemma scan_sorted_ext (dataQty : nat) (skip_val thresh : Z) (tmpRes1 tmpRes2 : list Z)
    (tmpResSize fuel start : nat) (cands : list Z) :
  (∀ i, (i < tmpResSize)%nat → tmpRes1 !! i = tmpRes2 !! i) →
  scan_sorted dataQty skip_val thresh fuel tmpRes1 tmpResSize start cands
  = scan_sorted dataQty skip_val thresh fuel tmpRes2 tmpResSize start cands.
Proof.
  intros Hext. revert start cands.
  induction fuel as [|fuel IH]; intros start cands; simpl; [done|].
  case_bool_decide as Hlt; [|done].
  assert (at_ tmpRes1 start = at_ tmpRes2 start) as ->.
  { unfold at_. by rewrite (Hext start Hlt). }
  destruct (at_ tmpRes2 start) as [prevId|]; cbn [bind]; [|done].
  rewrite (run_end_ext tmpRes1 tmpRes2) by done.
  destruct (bool_decide _); cbn [bind]; [|apply IH].
  destruct (data_start dataQty prevId); cbn [bind]; [apply IH|done].
Qed.

(** X20. The candidates of store-and-sort do not depend on the scratch
    buffer it is lent: with any two buffers the search ends the same way. *)
Theorem store_sort_alg_buffer_independent
    (posting_lists : list (list Z)) (dataQty : nat) (skip_val thresh : Z)
    (combIds : list Z) (cqty : nat) (tmpRes1 tmpRes2 : list Z) :
  store_sort_alg posting_lists dataQty skip_val thresh combIds cqty tmpRes1
  = store_sort_alg posting_lists dataQty skip_val thresh combIds cqty tmpRes2.
Proof.
  unfold store_sort_alg.
  pose (R := λ st1 st2 : list Z * nat,
    st1.2 = st2.2 ∧ (st1.2 ≤ length st1.1)%nat ∧ (st2.2 ≤ length st2.1)%nat
    ∧ take st1.2 st1.1 = take st2.2 st2.1).
  lazymatch goal with
  | |- bind (foldM ?body ?l (tmpRes1, ?z)) ?k = _ =>
      pose proof (foldM_rel R body body l (tmpRes1, z) (tmpRes2, z)) as Hrel
  end.
  unfold res_rel in Hrel.
  lazymatch type of Hrel with
  | ?A → ?B → _ => assert A as HA; [|assert B as HB; [|specialize (Hrel HA HB)]]
  end.
  { intros kk st1 st2 _ (Hsize & Hle1 & Hle2 & Htake).
    destruct (query_post posting_lists combIds kk) as [post|e]; cbn [bind]; [|done].
    destruct (copy_post_spec post st1 Hle1) as (Hle1' & Hsize1 & Htake1).
    destruct (copy_post_spec post st2 Hle2) as (Hle2' & Hsize2 & Htake2).
    split_and!; [lia|done|done|]. by rewrite Htake1, Htake2, Htake. }
  { split_and!; simpl; [done|lia|lia|done]. }
  destruct (foldM _ _ (tmpRes1, 0%nat)) as [[t1 size1]|e1],
    (foldM _ _ (tmpRes2, 0%nat)) as [[t2 size2]|e2]; cbn [bind]; try done; [|congruence].
  destruct Hrel as (Hsize & Hle1 & Hle2 & Htake). simpl in *. subst size2.
  apply scan_sorted_ext. intros i Hi.
  assert (length (integer_sort (take size1 t1)) = size1) as Hlen1.
  { unfold integer_sort. rewrite merge_sort_Permutation, length_take. lia. }
  assert (length (integer_sort (take size1 t2)) = size1) as Hlen2.
  { unfold integer_sort. rewrite merge_sort_Permutation, length_take. lia. }
  rewrite !lookup_app_l by lia. by rewrite Htake.
Qed.

(** ** The order of the candidates *)

Lemma StronglySorted_lt_snoc (l : list Z) (p : Z) :
  StronglySorted Z.lt l → (∀ c, c ∈ l → c < p) → StronglySorted Z.lt (l ++ [p]).
Proof.
  intros Hl Hp. apply StronglySorted_app. split_and!; [|done|by repeat constructor].
  intros c x Hc ->%list_elem_of_singleton. by apply Hp.
Qed.

Lemma StronglySorted_lt_NoDup (l : list Z) : StronglySorted Z.lt l → NoDup l.
Proof.
  induction 1 as [|a l _ IH Ha]; constructor; [|done].
  intros Hin. rewrite Forall_forall in Ha. specialize (Ha a Hin). lia.
Qed.

Lemma StronglySorted_lt_unique (l1 l2 : list Z) :
  StronglySorted Z.lt l1 → StronglySorted Z.lt l2 → (∀ x, x ∈ l1 ↔ x ∈ l2) → l1 = l2.
Proof.
  intros H1 H2 Hiff. apply (StronglySorted_unique_strong Z.lt); [|done|done|].
  - intros x1 x2 _ _ ? ?. lia.
  - apply NoDup_Permutation; auto using StronglySorted_lt_NoDup.
Qed.

(** Scan walks the counters by ascending position. *)
Lemma scan_collect_ascending (dataQty : nat) (thresh : Z) (counter : list Z)
    (len start : nat) (cands cands' : list Z) :
  StronglySorted Z.lt cands → (∀ c, c ∈ cands → c < Z.of_nat start) →
  foldM (λ i cands,
      do c <- at_ counter i;
      if bool_decide (thresh ≤ c)
      then do obj <- data_start dataQty (Z.of_nat i);
           Ok (addToVectorWithResSize cands obj)
      else Ok cands)
    (seq start len) cands = Ok cands' →
  StronglySorted Z.lt cands'.
Proof.
  revert start cands. induction len as [|len IH]; intros start cands Hsorted Hlt; simpl.
  - by intros [= <-].
  - intros (cands1 & H1 & H)%bind_Ok. apply (IH (S start) cands1); [| |done].
    + apply bind_Ok in H1 as (c & _ & H1). destruct (bool_decide _); [|by injection H1 as <-].
      apply bind_Ok in H1 as (obj & Hobj & [= <-]). unfold data_start in Hobj.
      case_bool_decide; [|done]. injection Hobj as <-.
      by apply StronglySorted_lt_snoc.
    + apply bind_Ok in H1 as (c & _ & H1). intros c' Hc'.
      destruct (bool_decide _).
      * apply bind_Ok in H1 as (obj & Hobj & [= <-]). unfold data_start in Hobj.
        case_bool_decide; [|done]. injection Hobj as <-.
        apply elem_of_app in Hc' as [Hc'| ->%list_elem_of_singleton]; [|lia].
        specialize (Hlt c' Hc'). lia.
      * injection H1 as <-. specialize (Hlt c' Hc'). lia.
Qed.

Lemma scan_alg_ascending posting_lists dataQty skip_val thresh combIds cqty cands :
  scan_alg posting_lists dataQty skip_val thresh combIds cqty = Ok cands →
  StronglySorted Z.lt cands.
Proof.
  unfold scan_alg. intros (counter & _ & H)%bind_Ok.
  apply scan_collect_ascending in H; [done|constructor|].
  by intros c ?%elem_of_nil.
Qed.

Section StoreSortOrder.

Context (dataQty : nat) (skip_val thresh : Z).
Context (tmpRes : list Z) (tmpResSize : nat).
Hypothesis Hsize : (tmpResSize ≤ length tmpRes)%nat.
Hypothesis Hsorted : StronglySorted Z.le (take tmpResSize tmpRes).

(** Behind a run of equal ids the buffer holds greater ids only. *)
Lemma run_end_after (start : nat) (p : Z) :
  (start < tmpResSize)%nat → tmpRes !! start = Some p →
  let r := run_end tmpResSize tmpRes tmpResSize p (S start) in
  (start < r ≤ tmpResSize)%nat
  ∧ ∀ j y, (r ≤ j < tmpResSize)%nat → tmpRes !! j = Some y → p < y.
Proof.
  intros Hstart Hp r.
  set (s := take tmpResSize tmpRes) in *.
  assert (∀ i, (i < tmpResSize)%nat → s !! i = tmpRes !! i) as Hs.
  { intros i Hi. unfold s. by rewrite lookup_take_lt. }
  destruct (run_end_spec tmpRes tmpResSize Hsize p tmpResSize (S start))
    as (Hr1 & Hr2 & Hr3 & Hr4); [lia|]. fold r in Hr1, Hr2, Hr3, Hr4.
  specialize (Hr2 ltac:(lia)). split; [lia|].
  intros j y Hj Hy.
  destruct (lookup_lt_is_Some_2 tmpRes r) as [z Hz]; [lia|].
  assert (p ≤ z).
  { eapply (StronglySorted_lookup_le s start r); [done|lia|by rewrite Hs|by rewrite Hs by lia]. }
  assert (z ≤ y).
  { eapply (StronglySorted_lookup_le s r j); [done|lia|by rewrite Hs by lia|by rewrite Hs by lia]. }
  assert (z ≠ p); [|lia]. intros ->. by apply Hr4; [lia|].
Qed.

Lemma scan_sorted_ascending (fuel start : nat) (cands cands' : list Z) :
  StronglySorted Z.lt cands →
  (∀ c j y, c ∈ cands → (start ≤ j < tmpResSize)%nat → tmpRes !! j = Some y → c < y) →
  scan_sorted dataQty skip_val thresh fuel tmpRes tmpResSize start cands = Ok cands' →
  StronglySorted Z.lt cands'.
Proof.
  revert start cands. induction fuel as [|fuel IH]; intros start cands Hc Hlt; simpl.
  - case_bool_decide; [done|]. by intros [= <-].
  - case_bool_decide as Hstart; [|by intros [= <-]].
    intros (p & Hp%at_Ok & H)%bind_Ok.
    destruct (run_end_after start p Hstart Hp) as [Hr Hafter].
    set (r := run_end tmpResSize tmpRes tmpResSize p (S start)) in *.
    apply bind_Ok in H as (cands1 & H1 & H).
    apply (IH r cands1); [| |done].
    + destruct (bool_decide _); [|by injection H1 as <-].
      apply bind_Ok in H1 as (obj & Hobj & [= <-]). unfold data_start in Hobj.
      case_bool_decide; [|done]. injection Hobj as <-.
      apply StronglySorted_lt_snoc; [done|]. intros c Hin.
      apply (Hlt c start p Hin); [lia|done].
    + intros c j y Hin Hj Hy.
      assert (c ∈ cands ∨ c = p) as [Hin' | ->].
      { destruct (bool_decide _); [|injection H1 as <-; by left].
        apply bind_Ok in H1 as (obj & Hobj & [= <-]). unfold data_start in Hobj.
        case_bool_decide; [|done]. injection Hobj as <-.
        apply elem_of_app in Hin as [?| ->%list_elem_of_singleton]; [by left|by right]. }
      * apply (Hlt c j y Hin'); [lia|done].
      * apply (Hafter j y); [lia|done].
Qed.

End StoreSortOrder.

Lemma store_sort_alg_ascending posting_lists dataQty skip_val thresh combIds cqty
    tmpRes cands :
  store_sort_alg posting_lists dataQty skip_val thresh combIds cqty tmpRes = Ok cands →
  StronglySorted Z.lt cands.
Proof.
  unfold store_sort_alg. intros ([tmpRes' tmpResSize] & Hcopy & H)%bind_Ok.
  assert (tmpResSize ≤ length tmpRes')%nat as Hle.
  { revert Hcopy.
    apply (foldM_invariant (λ st : list Z * nat, (st.2 ≤ length st.1)%nat)); [|simpl; lia].
    intros kk st st' _ Hst (post & _ & [= <-])%bind_Ok.
    by destruct (copy_post_spec post st Hst). }
  assert (length (integer_sort (take tmpResSize tmpRes')) = tmpResSize) as Hlen.
  { unfold integer_sort. rewrite merge_sort_Permutation, length_take. lia. }
  eapply scan_sorted_ascending in H; [done| | |constructor|by intros c j y ?%elem_of_nil].
  - rewrite length_app, Hlen. lia.
  - rewrite take_app_length' by done. unfold integer_sort.
    apply StronglySorted_merge_sort; apply _.
Qed.

Section PriorQueueOrder.

Context (dataQty : nat) (skip_val thresh : Z).
Hypothesis Hskip : 0 ≤ skip_val.

(** The priority queue hands out the documents by ascending id. *)
Lemma pq_merge_ascending (fuel : nat) (st : PQState) (cands cands' : list Z) :
  pq_ok st → accum st = 0 →
  (length (pq_pending st) ≤ fuel)%nat →
  (∀ y, skip_val * Z.of_nat (count_occ Z.eq_dec (pq_pending st) y) < 2 ^ 32) →
  StronglySorted Z.lt cands →
  (∀ c y, c ∈ cands → y ∈ pq_pending st → c < y) →
  pq_merge dataQty skip_val thresh fuel st cands = Ok cands' →
  StronglySorted Z.lt cands'.
Proof.
  revert st cands.
  induction fuel as [|fuel IH]; intros st cands Hok Hacc Hfuel Hover Hsorted Hlt.
  - simpl. destruct (heap_top (postListQueue st)) as [[key qsi]|]; [done|].
    by intros [= <-].
  - cbn [pq_merge]. destruct (heap_top (postListQueue st)) as [[key qsi]|] eqn:Htop;
      [|by intros [= <-]].
    destruct (pq_pending_min st key qsi Hok Htop) as [Hin Hkey].
    set (x := - key) in *. replace key with (- x) by (unfold x; lia).
    set (c := count_occ Z.eq_dec (pq_pending st) x).
    assert (c ≤ length (pq_pending st))%nat as Hc' by apply count_occ_bound.
    destruct (pq_accumulate_spec skip_val Hskip (S fuel) x st)
      as (st' & -> & Hok' & Hperm & Hx' & Hacc'); [done|done|lia|lia| |].
    { rewrite Hacc. apply Hover. }
    fold c in Hperm. cbn [bind].
    intros (cands1 & H1 & H)%bind_Ok.
    assert (∀ y, y ∈ pq_pending st' → y ∈ pq_pending st ∧ y ≠ x) as Hsub.
    { intros y Hy. split; [|by intros ->].
      rewrite Hperm. apply elem_of_app. by right. }
    assert (cands1 = cands ∨ cands1 = cands ++ [x]) as Hcands1.
    { destruct (bool_decide _); [|injection H1 as <-; by left].
      apply bind_Ok in H1 as (obj & Hobj & [= <-]). unfold data_start in Hobj.
      case_bool_decide; [|done]. injection Hobj as <-. by right. }
    set (st1 := mkPQ (postListQueue st') (queryStates st') 0) in H.
    assert (pq_pending st1 = pq_pending st') as Hpend by done.
    apply (IH st1 cands1); [done|done| | | | |done].
    + rewrite Hpend. rewrite Hperm, length_app, length_replicate in Hfuel.
      assert (1 ≤ c)%nat by (by apply count_occ_elem_of). lia.
    + intros y. rewrite Hpend. destruct (decide (y = x)) as [->|Hy].
      * rewrite count_occ_not_elem_of by done. lia.
      * specialize (Hover y).
        rewrite (count_occ_Permutation _ _ y Hperm), count_occ_app in Hover.
        rewrite (count_occ_not_elem_of (replicate c x)) in Hover; [done|].
        by intros [-> _]%elem_of_replicate.
    + destruct Hcands1 as [->| ->]; [done|].
      apply StronglySorted_lt_snoc; [done|]. intros c0 Hc0. by apply (Hlt c0 x).
    + intros c0 y Hc0 Hy. rewrite Hpend in Hy. destruct (Hsub y Hy) as [Hy' Hne].
      destruct Hcands1 as [->| ->].
      * by apply Hlt.
      * apply elem_of_app in Hc0 as [Hc0| ->%list_elem_of_singleton]; [by apply Hlt|].
        specialize (Hkey y Hy'). lia.
Qed.

End PriorQueueOrder.

Lemma prior_queue_alg_ascending posting_lists dataQty skip_val thresh combIds cqty cands :
  0 ≤ skip_val →
  keys_in_store posting_lists combIds cqty →
  postings_ok dataQty (query_lists posting_lists combIds cqty) →
  (∀ x, accumulated_count skip_val x (query_lists posting_lists combIds cqty) < 2 ^ 32) →
  prior_queue_alg posting_lists dataQty skip_val thresh combIds cqty = Ok cands →
  StronglySorted Z.lt cands.
Proof.
  intros Hskip Hkeys Hpost Hover. unfold prior_queue_alg, pq_init.
  rewrite (foldM_query_lists posting_lists combIds cqty
             (λ post st,
                match post with
                | [] => Ok st
                | post0 :: _ =>
                    Ok (mkPQ (heap_push (- post0) (length (queryStates st))
                                (postListQueue st))
                          (queryStates st ++ [mkQueryState post 0]) (accum st))
                end)) by done.
  set (lists := query_lists posting_lists combIds cqty) in *.
  destruct (pq_init_spec lists (mkPQ [] [] 0))
    as (st & -> & Hok & Hacc & Hpend & Hrem).
  - eapply Forall_impl; [exact Hpost|]. by intros post [? _].
  - split; [constructor|]. by intros key qsi ?%elem_of_nil.
  - by intros e ?%elem_of_nil.
  - simpl in Hacc, Hpend, Hrem. cbn [bind].
    apply (pq_merge_ascending dataQty skip_val thresh Hskip); [done|done| | |constructor|].
    + by rewrite Hpend, Hrem.
    + intros y. rewrite (count_occ_Permutation _ _ y Hpend). apply Hover.
    + by intros c y ?%elem_of_nil.
Qed.

Lemma GenSearch_ascending (T3 : Z → Z → Z → Z) (idx : Index) (perm_q : list Z)
    (combIds : list Z) (cqty : nat) (cands checked : list Z) :
  let b := bparams idx in
  let q := qparams idx in
  let lists := query_lists (posting_lists_ (store idx)) combIds cqty in
  genPivotCombIds T3 (pivot_comb_qty_ b) (skip_val_ b)
    (replicate (Z.to_nat (maxPostQty_ b)) 0) perm_q (Z.to_nat (num_prefix_search_ q))
  = Ok (combIds, cqty) →
  0 ≤ skip_val_ b →
  keys_in_store (posting_lists_ (store idx)) combIds cqty →
  postings_ok (data_qty idx) lists →
  (∀ x, accumulated_count (skip_val_ b) x lists < 2 ^ 32) →
  inv_proc_alg_ q ≠ kMerge →
  GenSearch T3 idx perm_q = Ok (cands, checked) →
  StronglySorted Z.lt cands.
Proof.
  intros b q lists Hgen Hskip Hkeys Hpost Hover Halg.
  unfold GenSearch. fold b q. rewrite Hgen. cbn [bind].
  intros (cands' & Hrun & [= <- _])%bind_Ok.
  destruct (inv_proc_alg_ q) eqn:Ealg; [|done| |];
    apply bind_Ok in Hrun as (? & _ & Hrun).
  - by eapply scan_alg_ascending.
  - by eapply prior_queue_alg_ascending.
  - by eapply store_sort_alg_ascending.
Qed.



(** ** Posting lists in any order *)

Section UnsortedLists.

Context (dataQty : nat) (skip_val thresh : Z).
Context (posting_lists : list (list Z)) (combIds : list Z) (cqty : nat).
Hypothesis Hskip : 0 ≤ skip_val.
Hypothesis Hkeys : keys_in_store posting_lists combIds cqty.
Hypothesis Hpost : postings_in_range dataQty (query_lists posting_lists combIds cqty).
Hypothesis Hover : ∀ x,
  accumulated_count skip_val x (query_lists posting_lists combIds cqty) < 2 ^ 32.

(** Scan counts the postings whatever their order. *)
Lemma scan_alg_spec_unsorted :
  ∃ cands,
    scan_alg posting_lists dataQty skip_val thresh combIds cqty = Ok cands
    ∧ ∀ x, x ∈ cands ↔
        0 ≤ x < Z.of_nat dataQty
        ∧ thresh ≤ accumulated_count skip_val x (query_lists posting_lists combIds cqty).
Proof.
  unfold scan_alg, scan_count.
  rewrite (foldM_query_lists posting_lists combIds cqty
             (λ post counter, foldM (λ p counter,
                do c <- at_z counter p; Ok (<[Z.to_nat p := u32 (c + skip_val)]> counter))
                post counter)) by done.
  rewrite foldM_concat.
  destruct (scan_count_postings dataQty skip_val Hskip
              (concat (query_lists posting_lists combIds cqty)) []
              (replicate dataQty 0)) as (counter & -> & Hlen & Hc).
  - split; [by rewrite length_replicate|]. intros i Hi. simpl.
    rewrite lookup_replicate_2 by done. f_equal. lia.
  - by apply Forall_concat.
  - intros x. apply Hover.
  - cbn [bind]. simpl in Hc. erewrite scan_collect; [|exact Hc|].
    2:{ apply Forall_forall. intros i Hi%elem_of_seq. lia. }
    eexists; split; [done|]. intros x. simpl.
    rewrite list_elem_of_fmap. setoid_rewrite list_elem_of_filter.
    setoid_rewrite elem_of_seq. unfold accumulated_count, hits. split.
    + intros (i & -> & Hi & ?). split; [lia|done].
    + intros [Hx Ht]. exists (Z.to_nat x). rewrite Z2Nat.id by lia. split; [done|].
      split; [done|lia].
Qed.

(** Store-and-sort sorts the postings it copied, whatever their order. *)
Lemma store_sort_alg_spec_unsorted (tmpRes : list Z) :
  ∃ cands,
    store_sort_alg posting_lists dataQty skip_val thresh combIds cqty tmpRes = Ok cands
    ∧ ∀ x, x ∈ cands ↔
        1 ≤ hits x (query_lists posting_lists combIds cqty)
        ∧ thresh ≤ accumulated_count skip_val x (query_lists posting_lists combIds cqty).
Proof.
  unfold store_sort_alg.
  rewrite (foldM_query_lists posting_lists combIds cqty
             (λ post st, Ok (copy_post post st))) by done.
  set (lists := query_lists posting_lists combIds cqty) in *.
  destruct (copy_posts_spec lists (tmpRes, 0%nat)) as ([buf n] & -> & Hle & Htake);
    [simpl; lia|].
  simpl in Hle, Htake. cbn [bind]. rewrite Htake.
  set (s := integer_sort (concat lists)).
  assert (s ≡ₚ concat lists) as Hperm by apply merge_sort_Permutation.
  assert (length s = n) as Hlen.
  { rewrite Hperm, <-Htake, length_take. lia. }
  assert (take n (s ++ drop n buf) = s) as Htake' by (by apply take_app_length').
  destruct (scan_sorted_spec dataQty skip_val thresh (s ++ drop n buf) n) with
    (fuel := n) (start := 0%nat) (cands := @nil Z) as (cands & -> & Hcands).
  - rewrite length_app. lia.
  - rewrite Htake'. apply StronglySorted_merge_sort; apply _.
  - rewrite Htake', Hperm. by apply Forall_concat.
  - lia.
  - lia.
  - intros i j x y Hij. lia.
  - exists cands. split; [done|]. intros x. rewrite Hcands, Htake'. simpl.
    rewrite (count_occ_elem_of s x). unfold accumulated_count, hits.
    rewrite <-(count_occ_Permutation _ _ x Hperm).
    pose proof (Hover x) as Hov. unfold accumulated_count, hits in Hov.
    rewrite <-(count_occ_Permutation _ _ x Hperm) in Hov.
    rewrite u32_small by nia.
    split; [intros [?%elem_of_nil|[? ?]]; [done|]; split; [lia|done]|].
    intros [? ?]. right. split; [lia|done].
Qed.

End UnsortedLists.



(** ** The threshold *)

Lemma scaled_thresh_pairs_mono (m1 m2 num_prefix : Z) :
  1 ≤ num_prefix → 0 ≤ m1 ≤ m2 → m2 * (num_prefix - 1) < 2 ^ 64 →
  scaled_thresh 2 m1 num_prefix ≤ scaled_thresh 2 m2 num_prefix.
Proof.
  intros Hnp Hm Hsmall. unfold scaled_thresh. simpl.
  assert (num_prefix - 1 < 2 ^ 64 ∨ m2 = 0) as [Hlt| ->] by nia.
  - rewrite (usize_small (num_prefix - 1)) by lia.
    rewrite !usize_small by nia. apply Z.div_le_mono; [lia|nia].
  - assert (m1 = 0) as -> by lia. done.
Qed.


